(** * tg-ghost-tag: invisible mentions for Telegram bots

    A shallow embedding of the payload builder of [@tg-ghost-tag/core]
    (marker selection, anchor resolution, capacity-aware batching), of its
    two senders, and the properties its specification states about them.

    Conventions of the embedding.
    - A JavaScript string is the list of its UTF-16 code units; [.length]
      is the length of that list.
    - A JavaScript number that the caller chooses ([maxPerMessage],
      [maxTextLength], the count of [buildInvisibleText], the cap of
      [chunkUserIds], [replacePosition]) is a [number]: [NaN], an infinity
      or a finite value.  A finite value is the rational it denotes, and
      arithmetic on finite values is exact: rounding and overflow of
      doubles are not modelled.  Lengths, indices and offsets that the code
      computes from strings and arrays are integers ([Z]); user ids are
      integers that the code only copies.
    - Strings and arrays are those of ECMAScript: the limits of an engine
      on memory or on the length of a string are not modelled.
    - [String.prototype.normalize] is a host built-in: the functions take
      the normaliser [toNFC] as a parameter.
    - A [throw] is the [Throw] outcome of [Result]; a [while]/[for] loop
      whose trip count is not bounded by the syntax runs on fuel and
      answers [None] when the fuel is used up; a promise that never
      settles is [None] as well. *)

From Stdlib Require Import ZArith List Bool Lia QArith.
Import ListNotations.
Local Open Scope Z_scope.

Set Implicit Arguments.

(** ** JavaScript values *)

Definition code_unit := N.
Definition jsstring := list code_unit.

Definition UserId := Z.

Inductive ChatId :=
| ChatNumber (n : Z)
| ChatString (s : jsstring).

(** [x.length] of a string or an array. *)
Definition len {A} (l : list A) : Z := Z.of_nat (length l).

Fixpoint jsstring_eqb (a b : jsstring) : bool :=
  match a, b with
  | [], [] => true
  | x :: a', y :: b' => N.eqb x y && jsstring_eqb a' b'
  | _, _ => false
  end.

Fixpoint startsWith (s sub : jsstring) : bool :=
  match sub, s with
  | [], _ => true
  | _ :: _, [] => false
  | y :: sub', x :: s' => N.eqb x y && startsWith s' sub'
  end.

(** [s.includes(sub)]: [sub] occurs in [s] as a substring. *)
Fixpoint includes (s sub : jsstring) : bool :=
  startsWith s sub ||
  match s with
  | [] => false
  | _ :: s' => includes s' sub
  end.

(** [s.repeat(n)] for a count that is not negative. *)
Fixpoint str_repeat (s : jsstring) (n : nat) : jsstring :=
  match n with
  | O => []
  | S n' => s ++ str_repeat s n'
  end.

(** ** Numbers *)

Inductive number :=
| NaN
| NegInfinity
| PosInfinity
| Finite (q : Q).

(** An integer as a number. *)
Definition Int (z : Z) : number := Finite (inject_Z z).

(** The order of two numbers; [None] when one of them is [NaN]. *)
Definition num_compare (x y : number) : option comparison :=
  match x, y with
  | NaN, _ | _, NaN => None
  | NegInfinity, NegInfinity => Some Eq
  | NegInfinity, _ => Some Lt
  | _, NegInfinity => Some Gt
  | PosInfinity, PosInfinity => Some Eq
  | PosInfinity, _ => Some Gt
  | _, PosInfinity => Some Lt
  | Finite p, Finite q => Some (p ?= q)%Q
  end.

(** [x < y], [x <= y], [x > y] and [x === y]: all false on [NaN]. *)
Definition num_lt (x y : number) : bool :=
  match num_compare x y with
  | Some Lt => true
  | _ => false
  end.

Definition num_le (x y : number) : bool :=
  match num_compare x y with
  | Some Lt | Some Eq => true
  | _ => false
  end.

Definition num_gt (x y : number) : bool :=
  match num_compare x y with
  | Some Gt => true
  | _ => false
  end.

Definition num_eq (x y : number) : bool :=
  match num_compare x y with
  | Some Eq => true
  | _ => false
  end.

(** [Math.max(x, y)] and [Math.min(x, y)]: [NaN] when an argument is. *)
Definition num_max (x y : number) : number :=
  match num_compare x y with
  | None => NaN
  | Some Lt => y
  | Some _ => x
  end.

Definition num_min (x y : number) : number :=
  match num_compare x y with
  | None => NaN
  | Some Gt => y
  | Some _ => x
  end.

(** [x + y] and [x - y] *)
Definition num_add (x y : number) : number :=
  match x, y with
  | NaN, _ | _, NaN => NaN
  | PosInfinity, NegInfinity | NegInfinity, PosInfinity => NaN
  | PosInfinity, _ | _, PosInfinity => PosInfinity
  | NegInfinity, _ | _, NegInfinity => NegInfinity
  | Finite p, Finite q => Finite (p + q)
  end.

Definition num_neg (x : number) : number :=
  match x with
  | NaN => NaN
  | NegInfinity => PosInfinity
  | PosInfinity => NegInfinity
  | Finite q => Finite (- q)
  end.

Definition num_sub (x y : number) : number := num_add x (num_neg y).

(** [Math.trunc] of a finite number. *)
Definition trunc (q : Q) : Z := Z.quot (Qnum q) (Zpos (Qden q)).

(** ** Slices and arrays *)

(** The relative index of [Array.prototype.slice] and
    [String.prototype.slice] for an integer argument: a negative index
    counts from the end, and the result is kept inside [0, length]. *)
Definition relIndex (n k : Z) : Z :=
  if k <? 0 then Z.max (n + k) 0 else Z.min k n.

(** [l.slice(start, end)] at integers; [None] is an omitted [end]. *)
Definition slice {A} (l : list A) (start : Z) (end_ : option Z) : list A :=
  let k := relIndex (len l) start in
  let final := match end_ with
               | Some e => relIndex (len l) e
               | None => len l
               end in
  firstn (Z.to_nat (final - k)) (skipn (Z.to_nat k) l).

(** The relative index for an argument that is any number: the argument
    goes through ToIntegerOrInfinity first, which sends [NaN] to 0 and
    truncates a finite value. *)
Definition relIndex_num (n : Z) (x : number) : Z :=
  match x with
  | NaN => relIndex n 0
  | NegInfinity => 0
  | PosInfinity => n
  | Finite q => relIndex n (trunc q)
  end.

(** [l.slice(start, end)] at numbers. *)
Definition slice_num {A} (l : list A) (start : number) (end_ : option number)
    : list A :=
  let k := relIndex_num (len l) start in
  let final := match end_ with
               | Some e => relIndex_num (len l) e
               | None => len l
               end in
  firstn (Z.to_nat (final - k)) (skipn (Z.to_nat k) l).

(** [Array.from({ length: count }, (_, i) => base + i)] for the length of
    an array. *)
Definition arrayFrom (count : Z) (base : Z) : list Z :=
  map (fun i => base + Z.of_nat i) (seq 0 (Z.to_nat count)).

(** ** Errors *)

Inductive Error :=
| TypeError
| RangeError
| TemplateContainsInv (inv : jsstring)
| OffsetsLengthMismatch (offsets userIds : Z)
| BaseMessageTooLong (length : Z)
| TextOverflow (desired allowed maxTextLength : number)
| SmartTextExceeds (maxTextLength : number)
| ClassicBaseTooLong (baseLen : Z) (maxTextLength : number)
| ClassicOverflow (need : Z) (capacity maxTextLength : number)
| ClassicTextExceeds (maxTextLength : number)
| ClassicLeftover (leftover : Z).

Inductive Result (A : Type) :=
| Ok (a : A)
| Throw (e : Error).
Arguments Throw {A} e.

Definition bind {A B} (r : Result A) (k : A -> Result B) : Result B :=
  match r with
  | Ok a => k a
  | Throw e => Throw e
  end.

Notation "x <- r ;; k" := (bind r (fun x => k))
  (at level 61, r at next level, right associativity).
Notation "r ;;; k" := (bind r (fun _ => k))
  (at level 61, right associativity).

(** [s.repeat(count)]: the count goes through ToIntegerOrInfinity, and a
    negative or infinite one is a [RangeError]. *)
Definition repeat_num (s : jsstring) (count : number) : Result jsstring :=
  match count with
  | NaN => Ok []
  | NegInfinity | PosInfinity => Throw RangeError
  | Finite q =>
      if trunc q <? 0 then Throw RangeError
      else Ok (str_repeat s (Z.to_nat (trunc q)))
  end.

(** ToLength of a number: ToIntegerOrInfinity kept inside [0, 2^53 - 1]. *)
Definition toLength (x : number) : Z :=
  match x with
  | NaN | NegInfinity => 0
  | PosInfinity => 9007199254740991
  | Finite q => Z.min (Z.max (trunc q) 0) 9007199254740991
  end.

(** [Array.from({ length: count }, (_, i) => base + i)] for any number:
    an array cannot be longer than 2^32 - 1. *)
Definition arrayFrom_num (count : number) (base : Z) : Result (list Z) :=
  let n := toLength count in
  if n >? 4294967295 then Throw RangeError else Ok (arrayFrom n base).
(** ** The data model of the library *)

(** [MessageEntityTextMention]; its [type] field is the constant
    ["text_mention"]. *)
Record MessageEntity := {
  offset : Z;
  length_ : Z;
  user : UserId
}.

(** A regular expression enters the code only through [r.test(src[i])] on a
    one-code-unit string, after the [g] flag is removed: it is the
    predicate it defines on code units. *)
Record RegExp := { test : code_unit -> bool }.

Inductive Position := PosStart | PosEnd.

Inductive ReplacePosition :=
| RPstart
| RPend
| RPnumber (q : Q)      (* a finite number *)
| RPnonfinite.          (* NaN, Infinity, -Infinity *)

Record GhostTemplate := {
  before : option jsstring;
  after : option jsstring;
  char : option jsstring;
  message : option jsstring;
  charCandidates : option (list jsstring);
  replaceTargets : option (list jsstring);
  replacePosition : option ReplacePosition;
  fallbackPosition : option Position;
  punctuationRegex : option RegExp;
  preferEndIfNoPunctuation : option bool;
  separateLineForMentions : option bool;
  trailingNewline : option bool
}.

Record GhostPayload := {
  chat_id : ChatId;
  text : jsstring;
  entities : list MessageEntity
}.

Inductive Overflow := OverflowSplit | OverflowError.

Record BuildOptions := {
  maxPerMessage : option number;
  maxTextLength : option number;
  onOverflow : option Overflow
}.

(** [a ?? b] *)
Definition orElse {A} (a : option A) (b : A) : A :=
  match a with
  | Some x => x
  | None => b
  end.
Infix "??" := orElse (at level 45, left associativity).

(** [!!b] of an optional boolean. *)
Definition truthy (b : option bool) : bool := b ?? false.

Definition DEFAULT_INV_CANDIDATES : list jsstring :=
  [[8203%N]; [8291%N]; [8288%N]; [8204%N]; [8205%N]].

(** [/[.!?…]/] *)
Definition DEFAULT_PUNCT_RE : RegExp :=
  {| test := fun c => existsb (N.eqb c) [46%N; 33%N; 63%N; 8230%N] |}.

Definition DEFAULT_MAX_TEXT : Z := 4096.

(** ** Marker selection *)

Definition assertNoExistingInv (s inv : jsstring) : Result unit :=
  if includes s inv then
    match inv with
    | [] => Throw TypeError   (* [inv.codePointAt(0)] is undefined *)
    | _ :: _ => Throw (TemplateContainsInv inv)
    end
  else Ok tt.

(** [avoidIn.some((s) => s?.includes?.(c))] *)
Definition someIncludes (avoidIn : list (option jsstring)) (c : jsstring)
    : bool :=
  existsb (fun s => match s with
                    | Some s' => includes s' c
                    | None => false
                    end) avoidIn.

(** The [for (const c of candidates)] loop of [pickInvChar]; [None] when
    the loop ends without a [return]. *)
Fixpoint pickInvChar_loop (candidates : list jsstring)
    (avoidIn : list (option jsstring)) : option jsstring :=
  match candidates with
  | [] => None
  | c :: rest =>
      if negb (len c =? 1) then pickInvChar_loop rest avoidIn
      else if negb (someIncludes avoidIn c) then Some c
      else pickInvChar_loop rest avoidIn
  end.

Definition pickInvChar (candidates : list jsstring)
    (avoidIn : list (option jsstring)) : jsstring :=
  match pickInvChar_loop candidates avoidIn with
  | Some c => c
  | None => nth_error candidates 0 ?? [8203%N]
  end.

(** The same function in the first revision of the library
    ([src/index.ts]): no length filter, and [candidates[0]] is returned as
    it is ([None] is [undefined]). *)
Module Legacy.

Fixpoint pickInvChar_loop (candidates : list jsstring)
    (avoidIn : list (option jsstring)) : option jsstring :=
  match candidates with
  | [] => None
  | c :: rest =>
      if negb (someIncludes avoidIn c) then Some c
      else pickInvChar_loop rest avoidIn
  end.

Definition pickInvChar (candidates : list jsstring)
    (avoidIn : list (option jsstring)) : option jsstring :=
  match pickInvChar_loop candidates avoidIn with
  | Some c => Some c
  | None => nth_error candidates 0
  end.

End Legacy.

(** ** Building texts, entities and payloads *)

Record InvisibleText := {
  it_text : jsstring;
  it_offsets : list Z;
  it_invChar : jsstring
}.

Record SmartBaseText := {
  sb_text : jsstring;
  sb_baseLen : Z;
  sb_insertAt : Z;
  sb_newlineOverhead : Z
}.

Record AnchorOpts := {
  ao_replaceTargets : option (list jsstring);
  ao_replacePosition : option ReplacePosition;
  ao_punctuationRegex : option RegExp;
  ao_fallbackPosition : Position
}.

(** [userIds.map((id, i) => f(id, i))] *)
Fixpoint mapi_from {A B} (f : A -> nat -> B) (i : nat) (l : list A) : list B :=
  match l with
  | [] => []
  | x :: l' => f x i :: mapi_from f (S i) l'
  end.

(** [offsets[i]] is read only below [offsets.length]; the default stands
    for [undefined]. *)
Definition buildEntities (offsets : list Z) (userIds : list UserId)
    : Result (list MessageEntity) :=
  if negb (len offsets =? len userIds) then
    Throw (OffsetsLengthMismatch (len offsets) (len userIds))
  else
    Ok (mapi_from (fun id i =>
          {| offset := nth i offsets 0; length_ := 1; user := id |})
        0%nat userIds).


(** The [for (let i = 0; i < userIds.length; i += maxPerMessage)] loop. *)
Fixpoint chunkUserIds_loop (fuel : nat) (userIds : list UserId)
    (maxPerMessage : number) (i : number) (out : list (list UserId))
    : option (list (list UserId)) :=
  if num_lt i (Int (len userIds)) then
    match fuel with
    | O => None
    | S fuel' =>
        chunkUserIds_loop fuel' userIds maxPerMessage (num_add i maxPerMessage)
          (out ++ [slice_num userIds i (Some (num_add i maxPerMessage))])
    end
  else Some out.

(** [chunkUserIds(userIds, maxPerMessage)], called with its cap. *)
Definition chunkUserIds (fuel : nat) (userIds : list UserId)
    (maxPerMessage : number) : option (list (list UserId)) :=
  chunkUserIds_loop fuel userIds maxPerMessage (Int 0) [].

(** [clamp] is called on integers only. *)
Definition clamp (v min max : Z) : Z := Z.max min (Z.min max v).

(** [for (let i = src.length - 1; i >= 0; i--) if (p(src[i])) return i]:
    [n] is [i + 1]. *)
Fixpoint scanBack (p : code_unit -> bool) (src : jsstring) (n : nat)
    : option Z :=
  match n with
  | O => None
  | S i => if p (nth i src 0%N) then Some (Z.of_nat i) else scanBack p src i
  end.

(** [new Set(replaceTargets).has(src[i])] *)
Definition setHas (targets : list jsstring) (c : code_unit) : bool :=
  existsb (jsstring_eqb [c]) targets.

Definition isStart (p : option ReplacePosition) : bool :=
  match p with
  | Some RPstart => true
  | _ => false
  end.

Definition findAnchorIndex (src : jsstring) (opts : AnchorOpts) : Z :=
  match ao_replacePosition opts with
  | Some (RPnumber q) => clamp (trunc q + 1) 0 (len src)
  | _ =>
      let place i := if isStart (ao_replacePosition opts) then i else i + 1 in
      let byTargets :=
        match ao_replaceTargets opts with
        | Some ((_ :: _) as targets) =>
            scanBack (setHas targets) src (length src)
        | _ => None
        end in
      match byTargets with
      | Some i => place i
      | None =>
          let byRegex :=
            match ao_punctuationRegex opts with
            | Some r => scanBack (test r) src (length src)
            | None => None
            end in
          match byRegex with
          | Some i => place i
          | None =>
              match ao_fallbackPosition opts with
              | PosStart => 0
              | PosEnd => len src
              end
          end
      end
  end.

Definition capCountByLength (baseLen desiredCount maxTextLength : number)
    : number :=
  let allowed := num_max (Int 0) (num_sub maxTextLength baseLen) in
  num_max (Int 0) (num_min desiredCount allowed).

Definition isError (o : Overflow) : bool :=
  match o with
  | OverflowError => true
  | OverflowSplit => false
  end.

Definition withChar (t : GhostTemplate) (inv : jsstring) : GhostTemplate :=
  {| before := before t; after := after t; char := Some inv;
     message := message t; charCandidates := charCandidates t;
     replaceTargets := replaceTargets t;
     replacePosition := replacePosition t;
     fallbackPosition := fallbackPosition t;
     punctuationRegex := punctuationRegex t;
     preferEndIfNoPunctuation := preferEndIfNoPunctuation t;
     separateLineForMentions := separateLineForMentions t;
     trailingNewline := trailingNewline t |}.

(** [template.message && template.before === undefined &&
    template.after === undefined]: the message when smart mode is taken. *)
Definition smartMode (t : GhostTemplate) : option jsstring :=
  match message t, before t, after t with
  | Some (c :: m), None, None => Some (c :: m)
  | _, _, _ => None
  end.

Section WithNormaliser.

(** [toNFC = (s) => s.normalize?.("NFC") ?? s] *)
Variable toNFC : jsstring -> jsstring.

(** classic: before + INV.repeat(N) + after *)
Definition buildInvisibleText (count : number) (template : GhostTemplate)
    : Result InvisibleText :=
  let charList := charCandidates template ?? DEFAULT_INV_CANDIDATES in
  let inv := char template ??
             pickInvChar charList [before template; after template] in
  let before := toNFC (before template ?? []) in
  let after := toNFC (after template ?? []) in
  assertNoExistingInv before inv ;;;
  assertNoExistingInv after inv ;;;
  if num_le count (Int 0) then
    Ok {| it_text := before ++ after; it_offsets := []; it_invChar := inv |}
  else
    let prefixLen := len before in
    run <- repeat_num inv count ;;
    let text := before ++ run ++ after in
    offsets <- arrayFrom_num count prefixLen ;;
    Ok {| it_text := text; it_offsets := offsets; it_invChar := inv |}.

(** [buildSmartBaseText] is called with the count 0 or the length of a
    batch, and with the anchor [findAnchorIndex] returns. *)
Definition buildSmartBaseText (message inv : jsstring) (count anchorAt : Z)
    (separateLine trailingNewline : bool) : SmartBaseText :=
  let src := toNFC message in
  let left := slice src 0 (Some anchorAt) in
  let right := slice src anchorAt None in
  let nlBefore : jsstring := if separateLine then [10%N] else [] in
  let nlAfter : jsstring := if trailingNewline then [10%N] else [] in
  let text := left ++ nlBefore ++ str_repeat inv (Z.to_nat count)
                   ++ nlAfter ++ right in
  let baseLen := len left + len nlBefore + len nlAfter + len right in
  let insertAt := len left + len nlBefore in
  let newlineOverhead := len nlBefore + len nlAfter in
  {| sb_text := text; sb_baseLen := baseLen; sb_insertAt := insertAt;
     sb_newlineOverhead := newlineOverhead |}.


Section Loops.

Variables (chatId : ChatId) (userIds : list UserId)
          (template : GhostTemplate).
Variables (maxPerMessage maxTextLength : number) (onOverflow : Overflow).

(** The [while (cursor < userIds.length)] loop of smart mode. *)
Fixpoint smartLoop (fuel : nat) (msg inv : jsstring)
    (fallbackPosition : Position) (punctuationRegex : RegExp)
    (separateLine trailingNewline : bool)
    (cursor : number) (payloads : list GhostPayload)
    : option (Result (list GhostPayload)) :=
  if num_lt cursor (Int (len userIds)) then
    match fuel with
    | O => None
    | S fuel' =>
        let desired :=
          num_min maxPerMessage (num_sub (Int (len userIds)) cursor) in
        let anchorAt :=
          findAnchorIndex msg
            {| ao_replaceTargets := replaceTargets template;
               ao_replacePosition := Some (replacePosition template ?? RPend);
               ao_punctuationRegex := Some punctuationRegex;
               ao_fallbackPosition := fallbackPosition |} in
        let baseLen :=
          sb_baseLen (buildSmartBaseText msg inv 0 anchorAt
                        separateLine trailingNewline) in
        let allowed := capCountByLength (Int baseLen) desired maxTextLength in
        if num_eq allowed (Int 0) then
          Some (Throw (BaseMessageTooLong (len msg)))
        else if isError onOverflow && num_lt allowed desired then
          Some (Throw (TextOverflow desired allowed maxTextLength))
        else
          let take := allowed in
          let batch := slice_num userIds cursor (Some (num_add cursor take)) in
          let built := buildSmartBaseText msg inv (len batch) anchorAt
                         separateLine trailingNewline in
          if num_gt (Int (len (sb_text built))) maxTextLength then
            Some (Throw (SmartTextExceeds maxTextLength))
          else
            let offsets := arrayFrom (len batch) (sb_insertAt built) in
            match buildEntities offsets batch with
            | Throw e => Some (Throw e)
            | Ok entities =>
                smartLoop fuel' msg inv fallbackPosition punctuationRegex
                  separateLine trailingNewline (num_add cursor take)
                  (payloads ++ [{| chat_id := chatId; text := sb_text built;
                                   entities := entities |}])
            end
    end
  else Some (Ok payloads).

(** The [while (remaining.length > 0)] loop of classic mode. *)
Fixpoint classicWhile (fuel : nat) (inv : jsstring) (capacity : number)
    (remaining : list UserId) (payloads : list GhostPayload)
    : option (Result (list GhostPayload)) :=
  if len remaining >? 0 then
    match fuel with
    | O => None
    | S fuel' =>
        let take := num_min (Int (len remaining)) capacity in
        let part := slice_num remaining (Int 0) (Some take) in
        match buildInvisibleText (Int (len part)) (withChar template inv) with
        | Throw e => Some (Throw e)
        | Ok built =>
            if num_gt (Int (len (it_text built))) maxTextLength then
              Some (Throw (ClassicTextExceeds maxTextLength))
            else
              match buildEntities (it_offsets built) part with
              | Throw e => Some (Throw e)
              | Ok entities =>
                  let payloads' :=
                    payloads ++ [{| chat_id := chatId; text := it_text built;
                                    entities := entities |}] in
                  let remaining' := slice_num remaining take None in
                  if isError onOverflow && (len remaining' >? 0) then
                    Some (Throw (ClassicLeftover (len remaining')))
                  else classicWhile fuel' inv capacity remaining' payloads'
              end
        end
    end
  else Some (Ok payloads).

(** The [for (const chunk of chunks)] loop of classic mode. *)
Fixpoint classicFor (fuel : nat) (inv : jsstring) (capacity : number)
    (chunks : list (list UserId)) (payloads : list GhostPayload)
    : option (Result (list GhostPayload)) :=
  match chunks with
  | [] => Some (Ok payloads)
  | chunk :: rest =>
      if isError onOverflow && num_gt (Int (len chunk)) capacity then
        Some (Throw (ClassicOverflow (len chunk) capacity maxTextLength))
      else
        match classicWhile fuel inv capacity (slice chunk 0 None) payloads with
        | Some (Ok payloads') => classicFor fuel inv capacity rest payloads'
        | stopped => stopped
        end
  end.

End Loops.

(** Build payloads for sendMessage (without sending) *)
Definition buildGhostPayloads (fuel : nat) (chatId : ChatId)
    (userIds : list UserId) (template : GhostTemplate) (opts : BuildOptions)
    : option (Result (list GhostPayload)) :=
  let maxPerMessage := num_max (Int 1) (maxPerMessage opts ?? Int 100) in
  let maxTextLength := maxTextLength opts ?? Int DEFAULT_MAX_TEXT in
  let onOverflow := onOverflow opts ?? OverflowSplit in
  if len userIds =? 0 then Some (Ok [])
  else
    match smartMode template with
    | Some msg =>
        let inv := char template ??
                   pickInvChar (charCandidates template ?? DEFAULT_INV_CANDIDATES)
                     [Some msg] in
        let fallbackPosition :=
          fallbackPosition template ??
          (if preferEndIfNoPunctuation template ?? true then PosEnd
           else PosStart) in
        let punctuationRegex := punctuationRegex template ?? DEFAULT_PUNCT_RE in
        let separateLine := truthy (separateLineForMentions template) in
        let trailingNewline := truthy (trailingNewline template) in
        smartLoop chatId userIds template maxPerMessage maxTextLength
          onOverflow fuel msg inv fallbackPosition punctuationRegex
          separateLine trailingNewline (Int 0) []
    | None =>
        (* classic mode (before/after) *)
        match chunkUserIds fuel userIds maxPerMessage with
        | None => None
        | Some chunks =>
            let charList := charCandidates template ?? DEFAULT_INV_CANDIDATES in
            let inv := char template ??
                       pickInvChar charList [before template; after template] in
            let before := toNFC (before template ?? []) in
            let after := toNFC (after template ?? []) in
            match assertNoExistingInv before inv ;;;
                  assertNoExistingInv after inv with
            | Throw e => Some (Throw e)
            | Ok _ =>
                let baseLen := len before + len after in
                let capacity :=
                  num_max (Int 0) (num_sub maxTextLength (Int baseLen)) in
                if num_le capacity (Int 0) then
                  Some (Throw (ClassicBaseTooLong baseLen maxTextLength))
                else
                  classicFor chatId template maxTextLength onOverflow
                    fuel inv capacity chunks []
            end
        end
    end.

End WithNormaliser.

(** A normaliser for running the code on concrete strings: it composes
    <U+0065, U+0301> into U+00E9 and changes nothing else.  It returns what
    [normalize("NFC")] returns on every string made of ASCII characters,
    the zero-width characters of [DEFAULT_INV_CANDIDATES], U+00E9, and
    U+0301 placed directly after U+0065; on strings without U+0301 it is
    also what [toNFC] returns where [normalize] does not exist. *)
Fixpoint nfc_sample (s : jsstring) : jsstring :=
  match s with
  | [] => []
  | c :: r =>
      match r with
      | d :: r' =>
          if (N.eqb c 101 && N.eqb d 769)%bool then 233%N :: nfc_sample r'
          else c :: nfc_sample r
      | [] => [c]
      end
  end.

(** * The builder on integer limits

    When [maxPerMessage] and [maxTextLength] are integers, or absent, every
    number the loops compute is an integer.  [Integral] holds the loops of
    [chunkUserIds] and [buildGhostPayloads] again, written with the
    arithmetic of [Z]; [buildGhostPayloads_integral] proves that
    [buildGhostPayloads] computes exactly them on such limits. *)

Module Integral.

Record BuildOptions := {
  maxPerMessage : option Z;
  maxTextLength : option Z;
  onOverflow : option Overflow
}.

Fixpoint chunkUserIds_loop (fuel : nat) (userIds : list UserId)
    (maxPerMessage : Z) (i : Z) (out : list (list UserId))
    : option (list (list UserId)) :=
  if i <? len userIds then
    match fuel with
    | O => None
    | S fuel' =>
        chunkUserIds_loop fuel' userIds maxPerMessage (i + maxPerMessage)
          (out ++ [slice userIds i (Some (i + maxPerMessage))])
    end
  else Some out.

Definition chunkUserIds (fuel : nat) (userIds : list UserId)
    (maxPerMessage : Z) : option (list (list UserId)) :=
  chunkUserIds_loop fuel userIds maxPerMessage 0 [].

Definition capCountByLength (baseLen desiredCount maxTextLength : Z) : Z :=
  let allowed := Z.max 0 (maxTextLength - baseLen) in
  Z.max 0 (Z.min desiredCount allowed).

Section WithNormaliser.

Variable toNFC : jsstring -> jsstring.

Section Loops.

Variables (chatId : ChatId) (userIds : list UserId)
          (template : GhostTemplate).
Variables (maxPerMessage maxTextLength : Z) (onOverflow : Overflow).

Fixpoint smartLoop (fuel : nat) (msg inv : jsstring)
    (fallbackPosition : Position) (punctuationRegex : RegExp)
    (separateLine trailingNewline : bool)
    (cursor : Z) (payloads : list GhostPayload)
    : option (Result (list GhostPayload)) :=
  if cursor <? len userIds then
    match fuel with
    | O => None
    | S fuel' =>
        let desired := Z.min maxPerMessage (len userIds - cursor) in
        let anchorAt :=
          findAnchorIndex msg
            {| ao_replaceTargets := replaceTargets template;
               ao_replacePosition := Some (replacePosition template ?? RPend);
               ao_punctuationRegex := Some punctuationRegex;
               ao_fallbackPosition := fallbackPosition |} in
        let baseLen :=
          sb_baseLen (buildSmartBaseText toNFC msg inv 0 anchorAt
                        separateLine trailingNewline) in
        let allowed := capCountByLength baseLen desired maxTextLength in
        if allowed =? 0 then Some (Throw (BaseMessageTooLong (len msg)))
        else if isError onOverflow && (allowed <? desired) then
          Some (Throw (TextOverflow (Int desired) (Int allowed)
                         (Int maxTextLength)))
        else
          let take := allowed in
          let batch := slice userIds cursor (Some (cursor + take)) in
          let built := buildSmartBaseText toNFC msg inv (len batch) anchorAt
                         separateLine trailingNewline in
          if len (sb_text built) >? maxTextLength then
            Some (Throw (SmartTextExceeds (Int maxTextLength)))
          else
            let offsets := arrayFrom (len batch) (sb_insertAt built) in
            match buildEntities offsets batch with
            | Throw e => Some (Throw e)
            | Ok entities =>
                smartLoop fuel' msg inv fallbackPosition punctuationRegex
                  separateLine trailingNewline (cursor + take)
                  (payloads ++ [{| chat_id := chatId; text := sb_text built;
                                   entities := entities |}])
            end
    end
  else Some (Ok payloads).

(** The [while (remaining.length > 0)] loop of classic mode. *)
Fixpoint classicWhile (fuel : nat) (inv : jsstring) (capacity : Z)
    (remaining : list UserId) (payloads : list GhostPayload)
    : option (Result (list GhostPayload)) :=
  if len remaining >? 0 then
    match fuel with
    | O => None
    | S fuel' =>
        let take := Z.min (len remaining) capacity in
        let part := slice remaining 0 (Some take) in
        match buildInvisibleText toNFC (Int (len part))
                (withChar template inv) with
        | Throw e => Some (Throw e)
        | Ok built =>
            if len (it_text built) >? maxTextLength then
              Some (Throw (ClassicTextExceeds (Int maxTextLength)))
            else
              match buildEntities (it_offsets built) part with
              | Throw e => Some (Throw e)
              | Ok entities =>
                  let payloads' :=
                    payloads ++ [{| chat_id := chatId; text := it_text built;
                                    entities := entities |}] in
                  let remaining' := slice remaining take None in
                  if isError onOverflow && (len remaining' >? 0) then
                    Some (Throw (ClassicLeftover (len remaining')))
                  else classicWhile fuel' inv capacity remaining' payloads'
              end
        end
    end
  else Some (Ok payloads).

(** The [for (const chunk of chunks)] loop of classic mode. *)
Fixpoint classicFor (fuel : nat) (inv : jsstring) (capacity : Z)
    (chunks : list (list UserId)) (payloads : list GhostPayload)
    : option (Result (list GhostPayload)) :=
  match chunks with
  | [] => Some (Ok payloads)
  | chunk :: rest =>
      if isError onOverflow && (len chunk >? capacity) then
        Some (Throw (ClassicOverflow (len chunk) (Int capacity)
                       (Int maxTextLength)))
      else
        match classicWhile fuel inv capacity (slice chunk 0 None) payloads with
        | Some (Ok payloads') => classicFor fuel inv capacity rest payloads'
        | stopped => stopped
        end
  end.

End Loops.


(** Build payloads for sendMessage (without sending) *)
Definition buildGhostPayloads (fuel : nat) (chatId : ChatId)
    (userIds : list UserId) (template : GhostTemplate) (opts : BuildOptions)
    : option (Result (list GhostPayload)) :=
  let maxPerMessage := Z.max 1 (maxPerMessage opts ?? 100) in
  let maxTextLength := maxTextLength opts ?? DEFAULT_MAX_TEXT in
  let onOverflow := onOverflow opts ?? OverflowSplit in
  if len userIds =? 0 then Some (Ok [])
  else
    match smartMode template with
    | Some msg =>
        let inv := char template ??
                   pickInvChar (charCandidates template ?? DEFAULT_INV_CANDIDATES)
                     [Some msg] in
        let fallbackPosition :=
          fallbackPosition template ??
          (if preferEndIfNoPunctuation template ?? true then PosEnd
           else PosStart) in
        let punctuationRegex := punctuationRegex template ?? DEFAULT_PUNCT_RE in
        let separateLine := truthy (separateLineForMentions template) in
        let trailingNewline := truthy (trailingNewline template) in
        smartLoop chatId userIds template maxPerMessage maxTextLength
          onOverflow fuel msg inv fallbackPosition punctuationRegex
          separateLine trailingNewline 0 []
    | None =>
        (* classic mode (before/after) *)
        match chunkUserIds fuel userIds maxPerMessage with
        | None => None
        | Some chunks =>
            let charList := charCandidates template ?? DEFAULT_INV_CANDIDATES in
            let inv := char template ??
                       pickInvChar charList [before template; after template] in
            let before := toNFC (before template ?? []) in
            let after := toNFC (after template ?? []) in
            match assertNoExistingInv before inv ;;;
                  assertNoExistingInv after inv with
            | Throw e => Some (Throw e)
            | Ok _ =>
                let baseLen := len before + len after in
                let capacity := Z.max 0 (maxTextLength - baseLen) in
                if capacity <=? 0 then
                  Some (Throw (ClassicBaseTooLong baseLen (Int maxTextLength)))
                else
                  classicFor chatId template maxTextLength onOverflow
                    fuel inv capacity chunks []
            end
        end
    end.

End WithNormaliser.

End Integral.

(** Options with integer limits, as [buildGhostPayloads] takes them. *)
Definition integral (o : Integral.BuildOptions) : BuildOptions :=
  {| maxPerMessage := option_map Int (Integral.maxPerMessage o);
     maxTextLength := option_map Int (Integral.maxTextLength o);
     onOverflow := Integral.onOverflow o |}.

(** * Vocabulary of the properties *)

(** The mentions of one payload: recipient [i] of the batch is tied to the
    marker at [base + i]. *)
Definition mentions (base : Z) (batch : list UserId) : list MessageEntity :=
  mapi_from (fun id i =>
    {| offset := base + Z.of_nat i; length_ := 1; user := id |}) 0%nat batch.

(** The recipients of a payload sequence, in payload order. *)
Definition recipients (ps : list GhostPayload) : list UserId :=
  flat_map (fun p => map user (entities p)) ps.

(** The marker the classic path works with. *)
Definition classicMarker (t : GhostTemplate) : jsstring :=
  char t ?? pickInvChar (charCandidates t ?? DEFAULT_INV_CANDIDATES)
              [before t; after t].

(** The limits after the defaults, and the count cap after its clamp. *)
Definition countLimit (opts : BuildOptions) : number :=
  num_max (Int 1) (maxPerMessage opts ?? Int 100).

Definition lengthLimit (opts : BuildOptions) : number :=
  maxTextLength opts ?? Int DEFAULT_MAX_TEXT.

(** The same for integer limits. *)
Definition countCap (opts : Integral.BuildOptions) : Z :=
  Z.max 1 (Integral.maxPerMessage opts ?? 100).

Definition lengthCap (opts : Integral.BuildOptions) : Z :=
  Integral.maxTextLength opts ?? DEFAULT_MAX_TEXT.

(** The marker, fallback and padding flags smart mode works with. *)
Definition smartMarker (t : GhostTemplate) (msg : jsstring) : jsstring :=
  char t ?? pickInvChar (charCandidates t ?? DEFAULT_INV_CANDIDATES) [Some msg].

Definition smartFallback (t : GhostTemplate) : Position :=
  fallbackPosition t ??
  (if preferEndIfNoPunctuation t ?? true then PosEnd else PosStart).

Section PayloadShapes.

Variable toNFC : jsstring -> jsstring.
Variables (chatId : ChatId) (template : GhostTemplate) (maxPer maxText : Z).

Definition smartAnchor (msg : jsstring) (fb : Position) (re : RegExp) : Z :=
  findAnchorIndex msg
    {| ao_replaceTargets := replaceTargets template;
       ao_replacePosition := Some (replacePosition template ?? RPend);
       ao_punctuationRegex := Some re;
       ao_fallbackPosition := fb |}.

(** What smart mode emits for one batch. *)
Definition SmartPayload (msg inv : jsstring) (anchorAt : Z)
    (separateLine trailingNewline : bool) (p : GhostPayload) : Prop :=
  exists batch,
    let built := buildSmartBaseText toNFC msg inv (len batch) anchorAt
                   separateLine trailingNewline in
    batch <> [] /\ len batch <= maxPer /\ chat_id p = chatId /\
    text p = sb_text built /\ len (text p) <= maxText /\
    entities p = mentions (sb_insertAt built) batch.

(** What classic mode emits for one batch. *)
Definition ClassicPayload (inv : jsstring) (capacity : Z) (p : GhostPayload)
    : Prop :=
  exists part,
    let pre := toNFC (before template ?? []) in
    let suf := toNFC (after template ?? []) in
    part <> [] /\ len part <= capacity /\ chat_id p = chatId /\
    includes pre inv = false /\ includes suf inv = false /\
    text p = pre ++ str_repeat inv (length part) ++ suf /\
    len (text p) <= maxText /\
    entities p = mentions (len pre) part.

(** The room classic mode has for markers. *)
Definition classicCapacity (t : GhostTemplate) (opts : Integral.BuildOptions)
    : Z :=
  Z.max 0 (lengthCap opts
           - (len (toNFC (before t ?? [])) + len (toNFC (after t ?? [])))).

(** The layout of a payload of smart mode, whatever the limits: the text
    and the mentions of some batch. *)
Definition SmartLayout (msg inv : jsstring) (anchorAt : Z)
    (separateLine trailingNewline : bool) (p : GhostPayload) : Prop :=
  exists batch,
    let built := buildSmartBaseText toNFC msg inv (len batch) anchorAt
                   separateLine trailingNewline in
    chat_id p = chatId /\ text p = sb_text built /\
    entities p = mentions (sb_insertAt built) batch.

(** The layout of a payload of classic mode, whatever the limits. *)
Definition ClassicLayout (inv : jsstring) (p : GhostPayload) : Prop :=
  exists part,
    let pre := toNFC (before template ?? []) in
    let suf := toNFC (after template ?? []) in
    chat_id p = chatId /\
    includes pre inv = false /\ includes suf inv = false /\
    text p = pre ++ str_repeat inv (length part) ++ suf /\
    entities p = mentions (len pre) part.

End PayloadShapes.

Definition templateAnchor (t : GhostTemplate) (msg : jsstring) : Z :=
  smartAnchor t msg (smartFallback t) (punctuationRegex t ?? DEFAULT_PUNCT_RE).

(** ** Sample inputs *)

Definition defaultOptions : BuildOptions :=
  {| maxPerMessage := None; maxTextLength := None; onOverflow := None |}.

Definition classicTemplate (b a : jsstring) : GhostTemplate :=
  {| before := Some b; after := Some a; char := None; message := None;
     charCandidates := None; replaceTargets := None; replacePosition := None;
     fallbackPosition := None; punctuationRegex := None;
     preferEndIfNoPunctuation := None; separateLineForMentions := None;
     trailingNewline := None |}.

Definition smartTemplate (m : jsstring) (c : option jsstring) : GhostTemplate :=
  {| before := None; after := None; char := c; message := Some m;
     charCandidates := None; replaceTargets := None; replacePosition := None;
     fallbackPosition := None; punctuationRegex := None;
     preferEndIfNoPunctuation := None; separateLineForMentions := None;
     trailingNewline := None |}.

Definition withMaxPerMessage (opts : BuildOptions) (m : number)
    : BuildOptions :=
  {| maxPerMessage := Some m; maxTextLength := maxTextLength opts;
     onOverflow := onOverflow opts |}.

(** [{ maxPerMessage: m, maxTextLength: n }] with integers. *)
Definition integerLimits (m n : option Z) : Integral.BuildOptions :=
  {| Integral.maxPerMessage := m; Integral.maxTextLength := n;
     Integral.onOverflow := None |}.

Definition withoutMessage (t : GhostTemplate) : GhostTemplate :=
  {| before := before t; after := after t; char := char t;
     message := None; charCandidates := charCandidates t;
     replaceTargets := replaceTargets t;
     replacePosition := replacePosition t;
     fallbackPosition := fallbackPosition t;
     punctuationRegex := punctuationRegex t;
     preferEndIfNoPunctuation := preferEndIfNoPunctuation t;
     separateLineForMentions := separateLineForMentions t;
     trailingNewline := trailingNewline t |}.

(** [{ before: "A", message: "hi" }] *)
Definition mixedTemplate : GhostTemplate :=
  {| before := Some [65%N]; after := None; char := None;
     message := Some [104; 105]%N;
     charCandidates := None; replaceTargets := None; replacePosition := None;
     fallbackPosition := None; punctuationRegex := None;
     preferEndIfNoPunctuation := None; separateLineForMentions := None;
     trailingNewline := None |}.

(** [{ before: "é" }]: a prefix that is not in normal form. *)
Definition decomposedTemplate : GhostTemplate :=
  {| before := Some [101; 769]%N; after := None; char := None; message := None;
     charCandidates := None; replaceTargets := None; replacePosition := None;
     fallbackPosition := None; punctuationRegex := None;
     preferEndIfNoPunctuation := None; separateLineForMentions := None;
     trailingNewline := None |}.

(** [findAnchorIndex("a.b", { replaceTargets: ["!"], replacePosition: "end",
    punctuationRegex: /[.!?…]/, fallbackPosition: "start" })] *)
Definition dottedMessage : jsstring := [97; 46; 98]%N.

Definition bangOpts : AnchorOpts :=
  {| ao_replaceTargets := Some [[33%N]];
     ao_replacePosition := Some RPend;
     ao_punctuationRegex := Some DEFAULT_PUNCT_RE;
     ao_fallbackPosition := PosStart |}.

(** ** The statements of the specification that the code does not meet *)

(** The specification's reading: a template with [before] and [message]
    both set makes the call fail. *)
Definition MixedTemplateRejected (toNFC : jsstring -> jsstring)
    (chatId : ChatId) (userIds : list UserId) (t : GhostTemplate)
    (opts : BuildOptions) : Prop :=
  userIds <> [] -> before t <> None -> message t <> None ->
  exists e, forall fuel, (length userIds <= fuel)%nat ->
    buildGhostPayloads toNFC fuel chatId userIds t opts = Some (Throw e).

(** [i] is the largest index of [src] whose code unit satisfies [p]. *)
Definition lastIndexIn (p : code_unit -> bool) (src : jsstring) (i : nat)
    : Prop :=
  (exists c, nth_error src i = Some c /\ p c = true) /\
  forall j c, (i < j)%nat -> nth_error src j = Some c -> p c = false.

(** No code unit of [src] satisfies [p]. *)
Definition noneIn (p : code_unit -> bool) (src : jsstring) : Prop :=
  forall c, In c src -> p c = false.

Definition isNumber (rp : option ReplacePosition) : bool :=
  match rp with
  | Some (RPnumber _) => true
  | _ => false
  end.

(** [i] for the placement ["start"], [i + 1] otherwise. *)
Definition placeAt (rp : option ReplacePosition) (i : Z) : Z :=
  if isStart rp then i else i + 1.

Definition fallbackIndex (src : jsstring) (fb : Position) : Z :=
  match fb with
  | PosStart => 0
  | PosEnd => len src
  end.

(** The specification's reading of the resolver when [replacePosition] is
    not a number and [replaceTargets] is not empty. *)
Definition AnchorByTargetsOnly (src : jsstring) (opts : AnchorOpts) : Prop :=
  forall targets,
    isNumber (ao_replacePosition opts) = false ->
    ao_replaceTargets opts = Some targets -> targets <> [] ->
    (forall i, lastIndexIn (setHas targets) src i ->
       findAnchorIndex src opts
       = placeAt (ao_replacePosition opts) (Z.of_nat i)) /\
    (noneIn (setHas targets) src ->
       findAnchorIndex src opts = fallbackIndex src (ao_fallbackPosition opts)).

(** The specification's reading: the text and the offsets are laid out on
    the prefix and suffix as the caller wrote them. *)
Definition OffsetsOnRawPrefix (toNFC : jsstring -> jsstring) (n : Z)
    (t : GhostTemplate) : Prop :=
  1 <= n ->
  forall r, buildInvisibleText toNFC (Int n) t = Ok r ->
  it_text r = (before t ?? []) ++ str_repeat (it_invChar r) (Z.to_nat n)
              ++ (after t ?? []) /\
  forall i, (i < Z.to_nat n)%nat ->
    nth i (it_offsets r) 0 = len (before t ?? []) + Z.of_nat i.

Definition MentionsInText (p : GhostPayload) : Prop :=
  forall e, In e (entities p) -> offset e + length_ e <= len (text p).

(** ** More sample inputs *)

(** [{ before: b, char: c }] *)
Definition forcedCharTemplate (b c : jsstring) : GhostTemplate :=
  {| before := Some b; after := None; char := Some c; message := None;
     charCandidates := None; replaceTargets := None; replacePosition := None;
     fallbackPosition := None; punctuationRegex := None;
     preferEndIfNoPunctuation := None; separateLineForMentions := None;
     trailingNewline := None |}.

Definition withOnOverflow (opts : BuildOptions) (o : Overflow) : BuildOptions :=
  {| maxPerMessage := maxPerMessage opts; maxTextLength := maxTextLength opts;
     onOverflow := Some o |}.

(** [Math.ceil(n / m)] for [n >= 0] and [m >= 1]. *)
Definition ceilDiv (n m : Z) : Z := (n + m - 1) / m.

(** The marker [buildGhostPayloads] works with in the mode the template
    selects. *)
Definition markerOf (t : GhostTemplate) : jsstring :=
  match smartMode t with
  | Some msg => smartMarker t msg
  | None => classicMarker t
  end.

(** The line breaks smart mode puts before and after the markers. *)
Definition lineBreak (flag : option bool) : jsstring :=
  if truthy flag then [10%N] else [].

(** The two errors that only a defect of the library itself could raise. *)
Definition isInternalError (e : Error) : bool :=
  match e with
  | OffsetsLengthMismatch _ _ | ClassicLeftover _ => true
  | _ => false
  end.

(** The errors of the last length check on an assembled text. *)
Definition isLengthCheck (e : Error) : bool :=
  match e with
  | SmartTextExceeds _ | ClassicTextExceeds _ => true
  | _ => false
  end.

(** The length of the smart-mode text without markers. *)
Definition smartBaseLen (toNFC : jsstring -> jsstring) (t : GhostTemplate)
    (msg : jsstring) : Z :=
  len (toNFC msg) + len (lineBreak (separateLineForMentions t))
  + len (lineBreak (trailingNewline t)).

(** The error of [assertNoExistingInv] for a marker. *)
Definition markerError (inv : jsstring) : Error :=
  match inv with
  | [] => TypeError
  | _ :: _ => TemplateContainsInv inv
  end.

(** The policy after the default. *)
Definition overflowPolicy (opts : Integral.BuildOptions) : Overflow :=
  Integral.onOverflow opts ?? OverflowSplit.

(** An array has fewer than 2^32 elements. *)
Definition isArray {A} (l : list A) : Prop := len l < 4294967296.

(** Why [buildGhostPayloads] throws [e] on integer limits, for each
    mode. *)
Definition SmartFailure (toNFC : jsstring -> jsstring) (userIds : list UserId)
    (t : GhostTemplate) (opts : Integral.BuildOptions) (msg : jsstring)
    (e : Error) : Prop :=
  let base := smartBaseLen toNFC t msg in
  (e = BaseMessageTooLong (len msg) /\ lengthCap opts <= base) \/
  (exists desired,
     e = TextOverflow (Int desired) (Int (lengthCap opts - base))
           (Int (lengthCap opts)) /\
     overflowPolicy opts = OverflowError /\
     0 < lengthCap opts - base < desired /\
     desired <= countCap opts /\ desired <= len userIds) \/
  (e = SmartTextExceeds (Int (lengthCap opts)) /\ base < lengthCap opts /\
   1 < len (smartMarker t msg)).

Definition ClassicFailure (toNFC : jsstring -> jsstring)
    (userIds : list UserId) (t : GhostTemplate) (opts : Integral.BuildOptions)
    (e : Error) : Prop :=
  let inv := classicMarker t in
  let pre := toNFC (before t ?? []) in
  let suf := toNFC (after t ?? []) in
  let collides := includes pre inv || includes suf inv in
  (collides = true /\ e = markerError inv) \/
  (collides = false /\
   ((e = ClassicBaseTooLong (len pre + len suf) (Int (lengthCap opts)) /\
     lengthCap opts <= len pre + len suf) \/
    (exists need,
       e = ClassicOverflow need (Int (classicCapacity toNFC t opts))
             (Int (lengthCap opts)) /\
       overflowPolicy opts = OverflowError /\
       0 < classicCapacity toNFC t opts < need /\
       need <= countCap opts /\ need <= len userIds) \/
    (e = ClassicTextExceeds (Int (lengthCap opts)) /\
     len pre + len suf < lengthCap opts /\ 1 < len inv) \/
    (e = RangeError /\ ~ isArray userIds))).

(** ** Renaming recipients *)

Definition renameEntity (f : UserId -> UserId) (e : MessageEntity)
    : MessageEntity :=
  {| offset := offset e; length_ := length_ e; user := f (user e) |}.

Definition renamePayload (f : UserId -> UserId) (p : GhostPayload)
    : GhostPayload :=
  {| chat_id := chat_id p; text := text p;
     entities := map (renameEntity f) (entities p) |}.

Definition renameResult (f : UserId -> UserId)
    (r : Result (list GhostPayload)) : Result (list GhostPayload) :=
  match r with
  | Ok ps => Ok (map (renamePayload f) ps)
  | Throw e => Throw e
  end.

(** ** Sending through the Bot API *)

Inductive Method := sendMessage | editMessageText.

Section Transport.

Variable toNFC : jsstring -> jsstring.

(** The world outside the library: its state, the reasons [fetch] or
    [res.json()] reject with (a body that is not JSON, or JSON that is not
    an object), the [result] of a reply and what is read from its
    [message_id], which the code only copies. *)
Variables (World Failure ApiResult MessageId : Type).
Variable message_id : ApiResult -> MessageId.

(** The [body] of a request before [JSON.stringify]; [None] is
    [undefined]. *)
Inductive ApiBody :=
| PayloadBody (p : option GhostPayload)
| EditBody (chat : ChatId) (message : MessageId) (text : jsstring)
    (entities : list MessageEntity).

(** A POST to [https://api.telegram.org/bot${token}/${method}]. *)
Record Request := {
  rq_token : jsstring;
  rq_method : Method;
  rq_body : ApiBody
}.

(** The JSON of a reply, with the [statusText] of the response; a reply
    may come without a [result] ([None] is [undefined] or [null]). *)
Record Reply := {
  json_ok : bool;
  json_description : option jsstring;
  res_statusText : jsstring;
  json_result : option ApiResult
}.

(** [fetch] followed by [res.json()]: it changes the world and rejects or
    answers; [None] is a promise that never settles. *)
Definition Fetch : Type :=
  World -> Request -> option (World * (Failure + Reply)).

(** [globalThis.fetch] *)
Variable globalFetch : option Fetch.

Inductive ApiError :=
| NoFetchImplementation
| FetchRejected (reason : Failure)
| TelegramApiError (description : jsstring).

(** [json.result as T]: the result as the reply has it. *)
Definition callBotApi (w : World) (token : jsstring) (method : Method)
    (body : ApiBody) (fetchImpl : option Fetch)
    : option (World * (ApiError + option ApiResult)) :=
  match match fetchImpl with
        | Some f => Some f
        | None => globalFetch
        end with
  | None => Some (w, inl NoFetchImplementation)
  | Some f =>
      match f w {| rq_token := token; rq_method := method; rq_body := body |} with
      | None => None
      | Some (w', inl reason) => Some (w', inl (FetchRejected reason))
      | Some (w', inr json) =>
          if negb (json_ok json) then
            Some (w', inl (TelegramApiError
                             (json_description json ?? res_statusText json)))
          else Some (w', inr (json_result json))
      end
  end.

Record SendOptions := {
  so_token : jsstring;
  so_maxPerMessage : option number;
  so_delayBetween : option number;
  so_fetchImpl : option Fetch;
  so_maxTextLength : option number;
  so_onOverflow : option Overflow
}.

(** What an [async] function of the library rejects with, and what the
    [catch] of [sendGhostMentions] catches. *)
Inductive SendError :=
| BuildError (e : Error)
| PayloadTextExceeds (maxTextLength : number) (chat : ChatId)
| NoUserIdsProvided
| UndefinedPayload            (* [batched.text] of [undefined] *)
| UndefinedResult             (* [result.message_id] of [undefined] *)
| ApiFailed (e : ApiError).

Record SendResult := {
  ok : bool;
  messageIds : list MessageId;
  errors : option (list (Z * SendError))
}.

(** The safety check of [sendGhostMentions]. *)
Fixpoint checkPayloads (maxTextLength : number) (payloads : list GhostPayload)
    : SendError + unit :=
  match payloads with
  | [] => inr tt
  | p :: rest =>
      if num_gt (Int (len (text p))) maxTextLength then
        inl (PayloadTextExceeds maxTextLength (chat_id p))
      else checkPayloads maxTextLength rest
  end.

(** The sending loop of [sendGhostMentions], from payload [i] on; the
    delay between two requests changes no value. *)
Fixpoint sendLoop (w : World) (token : jsstring) (fetchImpl : option Fetch)
    (i : Z) (payloads : list GhostPayload) (ids : list MessageId)
    (errs : list (Z * SendError))
    : option (World * (list MessageId * list (Z * SendError))) :=
  match payloads with
  | [] => Some (w, (ids, errs))
  | p :: rest =>
      match callBotApi w token sendMessage (PayloadBody (Some p)) fetchImpl with
      | None => None
      | Some (w', inr (Some result)) =>
          sendLoop w' token fetchImpl (i + 1) rest
            (ids ++ [message_id result]) errs
      | Some (w', inr None) =>
          sendLoop w' token fetchImpl (i + 1) rest ids
            (errs ++ [(i, UndefinedResult)])
      | Some (w', inl err) =>
          sendLoop w' token fetchImpl (i + 1) rest ids
            (errs ++ [(i, ApiFailed err)])
      end
  end.

Definition sendGhostMentions (fuel : nat) (w : World) (chatId : ChatId)
    (userIds : list UserId) (template : GhostTemplate) (options : SendOptions)
    : option (World * (SendError + SendResult)) :=
  let maxPerMessage := so_maxPerMessage options ?? Int 5 in
  let maxTextLength := so_maxTextLength options ?? Int DEFAULT_MAX_TEXT in
  let onOverflow := so_onOverflow options ?? OverflowSplit in
  match buildGhostPayloads toNFC fuel chatId userIds template
          {| maxPerMessage := Some maxPerMessage;
             maxTextLength := Some maxTextLength;
             onOverflow := Some onOverflow |} with
  | None => None
  | Some (Throw e) => Some (w, inl (BuildError e))
  | Some (Ok payloads) =>
      match checkPayloads maxTextLength payloads with
      | inl e => Some (w, inl e)
      | inr _ =>
          match sendLoop w (so_token options) (so_fetchImpl options) 0
                  payloads [] [] with
          | None => None
          | Some (w', (ids, errs)) =>
              Some (w', inr {| ok := len errs =? 0;
                               messageIds := ids;
                               errors := if negb (len errs =? 0) then Some errs
                                         else None |})
          end
      end
  end.

Record EditCascadeOptions := {
  eo_token : jsstring;
  eo_delayMs : option number;
  eo_fetchImpl : option Fetch
}.

(** [buildGhostPayloads(chatId, [user], template, { maxPerMessage: 1 })[0]] *)
Definition singlePayload (fuel : nat) (chatId : ChatId) (u : UserId)
    (template : GhostTemplate) : option (Result (option GhostPayload)) :=
  match buildGhostPayloads toNFC fuel chatId [u] template
          {| maxPerMessage := Some (Int 1); maxTextLength := None;
             onOverflow := None |} with
  | None => None
  | Some (Throw e) => Some (Throw e)
  | Some (Ok ps) => Some (Ok (nth_error ps 0))
  end.

(** The editing loop of [editCascade] over [userIds[1]], [userIds[2]], ... *)
Fixpoint editLoop (fuel : nat) (w : World) (chatId : ChatId)
    (rest : list UserId) (template : GhostTemplate) (token : jsstring)
    (fetchImpl : option Fetch) (messageId : MessageId)
    : option (World * (SendError + unit)) :=
  match rest with
  | [] => Some (w, inr tt)
  | u :: rest' =>
      match singlePayload fuel chatId u template with
      | None => None
      | Some (Throw e) => Some (w, inl (BuildError e))
      | Some (Ok None) => Some (w, inl UndefinedPayload)
      | Some (Ok (Some batched)) =>
          match callBotApi w token editMessageText
                  (EditBody chatId messageId (text batched) (entities batched))
                  fetchImpl with
          | None => None
          | Some (w', inl err) => Some (w', inl (ApiFailed err))
          | Some (w', inr _) =>
              editLoop fuel w' chatId rest' template token fetchImpl messageId
          end
      end
  end.

Definition editCascade (fuel : nat) (w : World) (chatId : ChatId)
    (userIds : list UserId) (template : GhostTemplate)
    (options : EditCascadeOptions)
    : option (World * (SendError + MessageId)) :=
  match userIds with
  | [] => Some (w, inl NoUserIdsProvided)
  | u0 :: rest =>
      match singlePayload fuel chatId u0 template with
      | None => None
      | Some (Throw e) => Some (w, inl (BuildError e))
      | Some (Ok first) =>
          match callBotApi w (eo_token options) sendMessage (PayloadBody first)
                  (eo_fetchImpl options) with
          | None => None
          | Some (w1, inl err) => Some (w1, inl (ApiFailed err))
          | Some (w1, inr None) => Some (w1, inl UndefinedResult)
          | Some (w1, inr (Some initial)) =>
              let messageId := message_id initial in
              match editLoop fuel w1 chatId rest template (eo_token options)
                      (eo_fetchImpl options) messageId with
              | None => None
              | Some (w', inl e) => Some (w', inl e)
              | Some (w', inr _) => Some (w', inr messageId)
              end
          end
      end
  end.

(** The world after a run of requests, each answered by [fetch]. *)
Definition worldAfter (fetch : Fetch) (w : World) (requests : list Request)
    : World :=
  fold_left (fun w' rq => match fetch w' rq with
                          | Some (w'', _) => w''
                          | None => w'
                          end) requests w.

(** [fetch] settles on every request. *)
Definition Settles (fetch : Fetch) : Prop :=
  forall w rq, fetch w rq <> None.

(** The [sendMessage] requests for a list of payloads. *)
Definition sendRequests (token : jsstring) (payloads : list GhostPayload)
    : list Request :=
  map (fun p => {| rq_token := token; rq_method := sendMessage;
                   rq_body := PayloadBody (Some p) |}) payloads.

(** The options [sendGhostMentions] builds with. *)
Definition sendBuildOptions (options : SendOptions) : BuildOptions :=
  {| maxPerMessage := Some (so_maxPerMessage options ?? Int 5);
     maxTextLength := Some (so_maxTextLength options ?? Int DEFAULT_MAX_TEXT);
     onOverflow := Some (so_onOverflow options ?? OverflowSplit) |}.

(** The fetch function a call ends up with. *)
Definition effectiveFetch (fetchImpl : option Fetch) : option Fetch :=
  match fetchImpl with
  | Some f => Some f
  | None => globalFetch
  end.

End Transport.

Arguments PayloadBody {MessageId} p.
Arguments NoFetchImplementation {Failure}.
Arguments TelegramApiError {Failure} description.
Arguments BuildError {Failure} e.
Arguments PayloadTextExceeds {Failure} maxTextLength chat.
Arguments NoUserIdsProvided {Failure}.
Arguments UndefinedPayload {Failure}.
Arguments UndefinedResult {Failure}.
Arguments checkPayloads {Failure} maxTextLength payloads.
Arguments sendRequests {MessageId} token payloads.

(** The [editMessageText] request of [editCascade] for one later user: the
    text and the mention of the first payload, the mention given to that
    user. *)
Definition editRequest {MessageId : Type} (token : jsstring) (chatId : ChatId)
    (messageId : MessageId) (first : GhostPayload) (u : UserId)
    : Request MessageId :=
  {| rq_token := token; rq_method := editMessageText;
     rq_body := EditBody chatId messageId (text first)
                  (map (renameEntity (fun _ => u)) (entities first)) |}.

(** A world that counts the requests it has seen and answers each with an
    [ok] reply whose message id is that count. *)
Definition countingFetch : Fetch nat unit Z Z :=
  fun w _ =>
    Some (S w, inr {| json_ok := true; json_description := None;
                      res_statusText := []; json_result := Some (Z.of_nat w) |}).

Definition countingSendOptions : SendOptions nat unit Z Z :=
  {| so_token := [84%N]; so_maxPerMessage := Some (Int 2);
     so_delayBetween := None; so_fetchImpl := Some countingFetch;
     so_maxTextLength := None; so_onOverflow := None |}.

Definition countingEditOptions : EditCascadeOptions nat unit Z Z :=
  {| eo_token := [84%N]; eo_delayMs := None;
     eo_fetchImpl := Some countingFetch |}.

(** A world that counts the requests and answers each with an [ok] reply
    that has no [result]. *)
Definition bareFetch : Fetch nat unit Z Z :=
  fun w _ =>
    Some (S w, inr {| json_ok := true; json_description := None;
                      res_statusText := []; json_result := None |}).

Definition bareEditOptions : EditCascadeOptions nat unit Z Z :=
  {| eo_token := [84%N]; eo_delayMs := None; eo_fetchImpl := Some bareFetch |}.


(** [{ message: m, replaceTargets: targets }] *)
Definition targetTemplate (m : jsstring) (targets : list jsstring)
    : GhostTemplate :=
  {| before := None; after := None; char := None; message := Some m;
     charCandidates := None; replaceTargets := Some targets;
     replacePosition := None; fallbackPosition := None;
     punctuationRegex := None; preferEndIfNoPunctuation := None;
     separateLineForMentions := None; trailingNewline := None |}.

(** [{ message: m, replacePosition: q }] *)
Definition positionTemplate (m : jsstring) (q : Q) : GhostTemplate :=
  {| before := None; after := None; char := None; message := Some m;
     charCandidates := None; replaceTargets := None;
     replacePosition := Some (RPnumber q); fallbackPosition := None;
     punctuationRegex := None; preferEndIfNoPunctuation := None;
     separateLineForMentions := None; trailingNewline := None |}.


(** [{ message: "a.b", replaceTargets: ["!"], fallbackPosition: "start" }] *)
Definition bangTemplate : GhostTemplate :=
  {| before := None; after := None; char := None;
     message := Some [97; 46; 98]%N;
     charCandidates := None; replaceTargets := Some [[33%N]];
     replacePosition := None; fallbackPosition := Some PosStart;
     punctuationRegex := None; preferEndIfNoPunctuation := None;
     separateLineForMentions := None; trailingNewline := None |}.

(** * Properties *)

(** ** Lengths, slices and repeated strings *)

Lemma len_nonneg {A} (l : list A) : 0 <= len l.
Proof. unfold len. lia. Qed.

Lemma len_app {A} (l1 l2 : list A) : len (l1 ++ l2) = len l1 + len l2.
Proof. unfold len. rewrite length_app. lia. Qed.

Lemma len_nil_iff {A} (l : list A) : len l = 0 <-> l = [].
Proof.
  unfold len. destruct l; simpl; split; intro H;
    try reflexivity; try discriminate; lia.
Qed.

Lemma len_str_repeat (s : jsstring) (n : nat) :
  len (str_repeat s n) = Z.of_nat n * len s.
Proof.
  induction n as [|n IH]; simpl str_repeat.
  - reflexivity.
  - rewrite len_app, IH. lia.
Qed.

(** For indices that are not negative [slice] is [firstn] after [skipn]. *)
Lemma slice_window {A} (l : list A) (a b : Z) :
  0 <= a -> 0 <= b ->
  slice l a (Some b) = firstn (Z.to_nat (b - a)) (skipn (Z.to_nat a) l).
Proof.
  intros Ha Hb. unfold slice, relIndex, len.
  destruct (Z.ltb_spec a 0) as [?|_]; [lia|].
  destruct (Z.ltb_spec b 0) as [?|_]; [lia|].
  destruct (Z_le_gt_dec (Z.of_nat (length l)) a) as [Hge|Hlt].
  - rewrite !skipn_all2 by lia. now rewrite !firstn_nil.
  - replace (Z.to_nat (Z.min a (Z.of_nat (length l)))) with (Z.to_nat a) by lia.
    destruct (Z_le_gt_dec b (Z.of_nat (length l))) as [Hb'|Hb'].
    + f_equal. lia.
    + rewrite !firstn_all2; try reflexivity; rewrite length_skipn; lia.
Qed.

Lemma slice_prefix {A} (l : list A) (n : Z) :
  0 <= n -> slice l 0 (Some n) = firstn (Z.to_nat n) l.
Proof.
  intro Hn. rewrite slice_window by lia. simpl skipn. f_equal. lia.
Qed.

Lemma slice_suffix {A} (l : list A) (n : Z) :
  0 <= n -> slice l n None = skipn (Z.to_nat n) l.
Proof.
  intro Hn. unfold slice, relIndex, len.
  destruct (Z.ltb_spec n 0) as [?|_]; [lia|].
  destruct (Z_le_gt_dec (Z.of_nat (length l)) n) as [Hge|Hlt].
  - rewrite !skipn_all2 by lia. now rewrite firstn_nil.
  - replace (Z.to_nat (Z.min n (Z.of_nat (length l)))) with (Z.to_nat n) by lia.
    apply firstn_all2. rewrite length_skipn. lia.
Qed.

Lemma slice_copy {A} (l : list A) : slice l 0 None = l.
Proof. now rewrite slice_suffix by lia. Qed.

Lemma slice_split {A} (l : list A) (n : Z) :
  0 <= n -> slice l 0 (Some n) ++ slice l n None = l.
Proof.
  intro Hn. rewrite slice_prefix, slice_suffix by assumption.
  apply firstn_skipn.
Qed.

Lemma len_firstn {A} (l : list A) (n : Z) :
  0 <= n -> len (firstn (Z.to_nat n) l) = Z.min n (len l).
Proof. intro Hn. unfold len. rewrite length_firstn. lia. Qed.

Lemma len_skipn {A} (l : list A) (n : Z) :
  0 <= n -> len (skipn (Z.to_nat n) l) = Z.max 0 (len l - n).
Proof. intro Hn. unfold len. rewrite length_skipn. lia. Qed.

Lemma skipn_skipn_Z {A} (l : list A) (a b : Z) :
  0 <= a -> 0 <= b ->
  skipn (Z.to_nat b) (skipn (Z.to_nat a) l) = skipn (Z.to_nat (a + b)) l.
Proof.
  intros Ha Hb. rewrite skipn_skipn. f_equal. lia.
Qed.

Lemma length_arrayFrom (count base : Z) :
  length (arrayFrom count base) = Z.to_nat count.
Proof. unfold arrayFrom. now rewrite length_map, length_seq. Qed.

Lemma nth_arrayFrom (count base : Z) (i : nat) :
  (i < Z.to_nat count)%nat ->
  nth i (arrayFrom count base) 0 = base + Z.of_nat i.
Proof.
  intro Hi. unfold arrayFrom.
  rewrite nth_indep with (d' := base + Z.of_nat 0)
    by (now rewrite length_map, length_seq).
  change (base + Z.of_nat 0) with ((fun k => base + Z.of_nat k) 0%nat).
  rewrite map_nth, seq_nth by assumption. reflexivity.
Qed.

(** ** Numbers that are integers *)

Lemma num_compare_Int (a b : Z) : num_compare (Int a) (Int b) = Some (a ?= b).
Proof.
  unfold Int, num_compare, Qcompare. simpl. now rewrite !Z.mul_1_r.
Qed.

Lemma num_lt_Int (a b : Z) : num_lt (Int a) (Int b) = (a <? b).
Proof.
  unfold num_lt, Z.ltb. rewrite num_compare_Int. now destruct (a ?= b).
Qed.

Lemma num_le_Int (a b : Z) : num_le (Int a) (Int b) = (a <=? b).
Proof.
  unfold num_le, Z.leb. rewrite num_compare_Int. now destruct (a ?= b).
Qed.

Lemma num_gt_Int (a b : Z) : num_gt (Int a) (Int b) = (a >? b).
Proof.
  unfold num_gt, Z.gtb. rewrite num_compare_Int. now destruct (a ?= b).
Qed.

Lemma num_eq_Int (a b : Z) : num_eq (Int a) (Int b) = (a =? b).
Proof.
  unfold num_eq. rewrite num_compare_Int.
  destruct (Z.compare_spec a b), (Z.eqb_spec a b); try reflexivity; lia.
Qed.

Lemma num_max_Int (a b : Z) : num_max (Int a) (Int b) = Int (Z.max a b).
Proof.
  unfold num_max, Z.max. rewrite num_compare_Int. now destruct (a ?= b).
Qed.

Lemma num_min_Int (a b : Z) : num_min (Int a) (Int b) = Int (Z.min a b).
Proof.
  unfold num_min, Z.min. rewrite num_compare_Int. now destruct (a ?= b).
Qed.

Lemma num_add_Int (a b : Z) : num_add (Int a) (Int b) = Int (a + b).
Proof.
  unfold Int, num_add, inject_Z, Qplus. simpl. now rewrite !Z.mul_1_r.
Qed.

Lemma num_sub_Int (a b : Z) : num_sub (Int a) (Int b) = Int (a - b).
Proof.
  unfold num_sub, Int, num_neg, num_add, inject_Z, Qplus, Qopp. simpl.
  now rewrite !Z.mul_1_r.
Qed.

Lemma trunc_inject_Z (a : Z) : trunc (inject_Z a) = a.
Proof. unfold trunc. simpl. apply Z.quot_1_r. Qed.

Lemma relIndex_num_Int (n a : Z) : relIndex_num n (Int a) = relIndex n a.
Proof. unfold relIndex_num, Int. now rewrite trunc_inject_Z. Qed.

Lemma slice_num_Int {A} (l : list A) (a b : Z) :
  slice_num l (Int a) (Some (Int b)) = slice l a (Some b).
Proof. unfold slice_num, slice. now rewrite !relIndex_num_Int. Qed.

Lemma slice_num_Int_open {A} (l : list A) (a : Z) :
  slice_num l (Int a) None = slice l a None.
Proof. unfold slice_num, slice. now rewrite !relIndex_num_Int. Qed.

Lemma capCountByLength_Int (baseLen desired maxText : Z) :
  capCountByLength (Int baseLen) (Int desired) (Int maxText)
  = Int (Integral.capCountByLength baseLen desired maxText).
Proof.
  unfold capCountByLength, Integral.capCountByLength.
  now rewrite num_sub_Int, !num_max_Int, num_min_Int, num_max_Int.
Qed.

Lemma orElse_Int (x : option Z) (d : Z) :
  option_map Int x ?? Int d = Int (x ?? d).
Proof. now destruct x. Qed.

Create Rewrite HintDb integral.

#[local] Hint Rewrite num_lt_Int num_le_Int num_gt_Int num_eq_Int num_max_Int
  num_min_Int num_add_Int num_sub_Int @slice_num_Int @slice_num_Int_open
  capCountByLength_Int orElse_Int : integral.

(** ** The loops on integer limits *)

Lemma chunkUserIds_loop_integral (userIds : list UserId) (m : Z) :
  forall fuel i out,
  chunkUserIds_loop fuel userIds (Int m) (Int i) out
  = Integral.chunkUserIds_loop fuel userIds m i out.
Proof.
  induction fuel as [|fuel IH]; intros i out;
    cbn [chunkUserIds_loop Integral.chunkUserIds_loop];
    autorewrite with integral; [reflexivity|].
  destruct (i <? len userIds); [|reflexivity]. apply IH.
Qed.

Lemma smartLoop_integral toNFC chatId userIds t (maxPer maxText : Z) overflow
    msg inv fb re sep trail :
  forall fuel cursor payloads,
  smartLoop toNFC chatId userIds t (Int maxPer) (Int maxText) overflow fuel
    msg inv fb re sep trail (Int cursor) payloads
  = Integral.smartLoop toNFC chatId userIds t maxPer maxText overflow fuel
      msg inv fb re sep trail cursor payloads.
Proof.
  induction fuel as [|fuel IH]; intros cursor payloads;
    cbn [smartLoop Integral.smartLoop]; autorewrite with integral;
    [reflexivity|].
  destruct (cursor <? len userIds); [|reflexivity].
  destruct (_ =? 0); [reflexivity|].
  destruct (isError overflow && _); [reflexivity|].
  destruct (_ >? maxText); [reflexivity|].
  destruct (buildEntities _ _); [|reflexivity]. apply IH.
Qed.

Lemma classicWhile_integral toNFC chatId t (maxText : Z) overflow inv
    (capacity : Z) :
  forall fuel remaining payloads,
  classicWhile toNFC chatId t (Int maxText) overflow fuel inv (Int capacity)
    remaining payloads
  = Integral.classicWhile toNFC chatId t maxText overflow fuel inv capacity
      remaining payloads.
Proof.
  induction fuel as [|fuel IH]; intros remaining payloads;
    cbn [classicWhile Integral.classicWhile]; [reflexivity|].
  destruct (len remaining >? 0); [|reflexivity].
  autorewrite with integral.
  destruct (buildInvisibleText _ _ _) as [built|]; [|reflexivity].
  autorewrite with integral.
  destruct (_ >? maxText); [reflexivity|].
  destruct (buildEntities _ _); [|reflexivity].
  destruct (isError overflow && _); [reflexivity|]. apply IH.
Qed.

Lemma classicFor_integral toNFC chatId t (maxText : Z) overflow inv
    (capacity : Z) fuel :
  forall chunks payloads,
  classicFor toNFC chatId t (Int maxText) overflow fuel inv (Int capacity)
    chunks payloads
  = Integral.classicFor toNFC chatId t maxText overflow fuel inv capacity
      chunks payloads.
Proof.
  induction chunks as [|chunk rest IH]; intro payloads;
    cbn [classicFor Integral.classicFor]; [reflexivity|].
  autorewrite with integral.
  destruct (isError overflow && _); [reflexivity|].
  rewrite classicWhile_integral.
  destruct (Integral.classicWhile _ _ _ _ _ _ _ _ _ _) as [[mid|]|];
    [apply IH|reflexivity|reflexivity].
Qed.

(** On integer limits [buildGhostPayloads] computes in [Z]. *)
Lemma buildGhostPayloads_integral toNFC fuel chatId userIds t
    (o : Integral.BuildOptions) :
  buildGhostPayloads toNFC fuel chatId userIds t (integral o)
  = Integral.buildGhostPayloads toNFC fuel chatId userIds t o.
Proof.
  unfold buildGhostPayloads, Integral.buildGhostPayloads, integral.
  cbn [maxPerMessage maxTextLength onOverflow].
  autorewrite with integral.
  destruct (len userIds =? 0); [reflexivity|].
  destruct (smartMode t) as [msg|].
  - apply smartLoop_integral.
  - unfold chunkUserIds, Integral.chunkUserIds.
    rewrite chunkUserIds_loop_integral.
    destruct (Integral.chunkUserIds_loop _ _ _ _ _); [|reflexivity].
    destruct (assertNoExistingInv _ _ ;;; assertNoExistingInv _ _);
      [|reflexivity].
    destruct (_ <=? 0); [reflexivity|]. apply classicFor_integral.
Qed.

(** ** Entities *)

Lemma mapi_from_ext {A B} (f g : A -> nat -> B) (l : list A) (i : nat) :
  (forall x k, (i <= k < i + length l)%nat -> f x k = g x k) ->
  mapi_from f i l = mapi_from g i l.
Proof.
  revert i. induction l as [|x l IH]; intros i H; simpl.
  - reflexivity.
  - f_equal.
    + apply H. simpl. lia.
    + apply IH. intros y k Hk. apply H. simpl. lia.
Qed.

Lemma nth_error_mapi_from {A B} (f : A -> nat -> B) (l : list A) (i k : nat) :
  nth_error (mapi_from f i l) k =
  option_map (fun x => f x (i + k)%nat) (nth_error l k).
Proof.
  revert i k. induction l as [|x l IH]; intros i k; simpl.
  - now destruct k.
  - destruct k as [|k]; simpl.
    + now rewrite Nat.add_0_r.
    + rewrite IH. now rewrite Nat.add_succ_comm.
Qed.

Lemma length_mapi_from {A B} (f : A -> nat -> B) (l : list A) (i : nat) :
  length (mapi_from f i l) = length l.
Proof.
  revert i. induction l as [|x l IH]; intro i; simpl; [|rewrite IH]; reflexivity.
Qed.

Lemma map_mapi_from {A B C} (h : B -> C) (f : A -> nat -> B) (l : list A) (i : nat) :
  map h (mapi_from f i l) = mapi_from (fun x k => h (f x k)) i l.
Proof.
  revert i. induction l as [|x l IH]; intro i; simpl; [|rewrite IH]; reflexivity.
Qed.

Lemma mapi_from_const {A} (l : list A) (i : nat) :
  mapi_from (fun x _ => x) i l = l.
Proof.
  revert i. induction l as [|x l IH]; intro i; simpl; [|rewrite IH]; reflexivity.
Qed.

Lemma buildEntities_arrayFrom (base : Z) (batch : list UserId) :
  buildEntities (arrayFrom (len batch) base) batch = Ok (mentions base batch).
Proof.
  unfold buildEntities.
  assert (Hlen : len (arrayFrom (len batch) base) = len batch).
  { unfold len. rewrite length_arrayFrom. lia. }
  rewrite Hlen, Z.eqb_refl. simpl negb. cbv iota. f_equal.
  unfold mentions. apply mapi_from_ext. intros x k Hk.
  rewrite nth_arrayFrom; [reflexivity|]. unfold len. lia.
Qed.

Lemma user_mentions (base : Z) (batch : list UserId) :
  map user (mentions base batch) = batch.
Proof.
  unfold mentions. rewrite map_mapi_from. simpl. apply mapi_from_const.
Qed.

Lemma length_mentions (base : Z) (batch : list UserId) :
  length (mentions base batch) = length batch.
Proof. apply length_mapi_from. Qed.

Lemma nth_error_mentions (base : Z) (batch : list UserId) (i : nat) :
  nth_error (mentions base batch) i =
  option_map (fun id => {| offset := base + Z.of_nat i; length_ := 1;
                           user := id |}) (nth_error batch i).
Proof. unfold mentions. now rewrite nth_error_mapi_from. Qed.

Lemma In_mentions (base : Z) (batch : list UserId) (e : MessageEntity) :
  In e (mentions base batch) ->
  exists i, (i < length batch)%nat /\ nth_error batch i = Some (user e) /\
            offset e = base + Z.of_nat i /\ length_ e = 1.
Proof.
  intro Hin. apply In_nth_error in Hin. destruct Hin as [i Hi].
  rewrite nth_error_mentions in Hi.
  destruct (nth_error batch i) as [id|] eqn:Hid; [|discriminate].
  injection Hi as <-. exists i. simpl. repeat split; try assumption.
  apply nth_error_Some. congruence.
Qed.

Lemma recipients_app (ps qs : list GhostPayload) :
  recipients (ps ++ qs) = recipients ps ++ recipients qs.
Proof. unfold recipients. apply flat_map_app. Qed.

(** ** Chunking by the count cap *)

Lemma chunkUserIds_loop_eq (fuel : nat) (userIds : list UserId) (m i : Z)
    (out : list (list UserId)) :
  Integral.chunkUserIds_loop fuel userIds m i out =
  if i <? len userIds then
    match fuel with
    | O => None
    | S fuel' =>
        Integral.chunkUserIds_loop fuel' userIds m (i + m)
          (out ++ [slice userIds i (Some (i + m))])
    end
  else Some out.
Proof. destruct fuel; reflexivity. Qed.

Lemma chunkUserIds_loop_spec (userIds : list UserId) (m : Z) :
  1 <= m ->
  forall fuel i out r, 0 <= i ->
  Integral.chunkUserIds_loop fuel userIds m i out = Some r ->
  exists new, r = out ++ new /\
              concat new = skipn (Z.to_nat i) userIds /\
              Forall (fun c => c <> [] /\ len c <= m) new.
Proof.
  intros Hm fuel. induction fuel as [|fuel IH]; intros i out r Hi;
    rewrite chunkUserIds_loop_eq; destruct (Z.ltb_spec i (len userIds)) as [Hlt|Hge];
    intro H; try discriminate.
  - injection H as <-. exists []. rewrite app_nil_r. repeat split; [|constructor].
    simpl. symmetry. apply skipn_all2. unfold len in Hge. lia.
  - apply IH in H; [|lia]. destruct H as (new & -> & Hcat & Hall).
    exists (slice userIds i (Some (i + m)) :: new).
    rewrite <- app_assoc. split; [reflexivity|].
    rewrite slice_window by lia. replace (i + m - i) with m by lia.
    assert (Hl : len (firstn (Z.to_nat m) (skipn (Z.to_nat i) userIds))
                 = Z.min m (len userIds - i)).
    { rewrite len_firstn, len_skipn by lia. lia. }
    split.
    + simpl. rewrite Hcat. rewrite <- skipn_skipn_Z by lia. apply firstn_skipn.
    + constructor; [|assumption]. split; [|lia].
      intro E. rewrite E in Hl. unfold len at 1 in Hl. simpl in Hl. lia.
  - injection H as <-. exists []. rewrite app_nil_r. repeat split; [|constructor].
    simpl. symmetry. apply skipn_all2. unfold len in Hge. lia.
Qed.

Lemma chunkUserIds_loop_total (userIds : list UserId) (m : Z) :
  1 <= m ->
  forall n i out, 0 <= i -> len userIds - i <= Z.of_nat n ->
  exists r, forall fuel, (n <= fuel)%nat ->
            Integral.chunkUserIds_loop fuel userIds m i out = Some r.
Proof.
  intros Hm n. induction n as [|n IH]; intros i out Hi Hn.
  - exists out. intros fuel _. rewrite chunkUserIds_loop_eq.
    destruct (Z.ltb_spec i (len userIds)); [lia|reflexivity].
  - destruct (Z.ltb_spec i (len userIds)) as [Hlt|Hge].
    + destruct (IH (i + m) (out ++ [slice userIds i (Some (i + m))]))
        as [r Hr]; [lia|lia|].
      exists r. intros fuel Hf. rewrite chunkUserIds_loop_eq.
      destruct (Z.ltb_spec i (len userIds)); [|lia].
      destruct fuel as [|fuel]; [lia|]. apply Hr. lia.
    + exists out. intros fuel _. rewrite chunkUserIds_loop_eq.
      destruct (Z.ltb_spec i (len userIds)); [lia|reflexivity].
Qed.

Lemma length_concat_member {A} (ls : list (list A)) (l : list A) :
  In l ls -> (length l <= length (concat ls))%nat.
Proof.
  induction ls as [|x ls IH]; intros Hin; [contradiction|].
  simpl. rewrite length_app. destruct Hin as [->|Hin]; [lia|].
  specialize (IH Hin). lia.
Qed.

(** ** The two modes of [buildGhostPayloads] *)

Section BuilderFacts.

Variable toNFC : jsstring -> jsstring.
Variables (chatId : ChatId) (userIds : list UserId) (template : GhostTemplate).
Variables (maxPer maxText : Z) (overflow : Overflow).

Lemma assertNoExistingInv_Ok (s inv : jsstring) (u : unit) :
  assertNoExistingInv s inv = Ok u -> includes s inv = false.
Proof.
  unfold assertNoExistingInv. destruct (includes s inv); [|reflexivity].
  destruct inv; discriminate.
Qed.

Lemma includes_nil (s : jsstring) : includes s [] = true.
Proof. destruct s; reflexivity. Qed.

Lemma buildInvisibleText_inv (count : Z) (t : GhostTemplate) (r : InvisibleText) :
  buildInvisibleText toNFC (Int count) t = Ok r ->
  let inv := classicMarker t in
  let pre := toNFC (before t ?? []) in
  let suf := toNFC (after t ?? []) in
  includes pre inv = false /\ includes suf inv = false /\ it_invChar r = inv /\
  (0 < count -> it_text r = pre ++ str_repeat inv (Z.to_nat count) ++ suf /\
                it_offsets r = arrayFrom count (len pre)) /\
  (count <= 0 -> it_text r = pre ++ suf /\ it_offsets r = []).
Proof.
  unfold buildInvisibleText. fold (classicMarker t). cbv zeta. intro H.
  destruct (assertNoExistingInv (toNFC (before t ?? [])) (classicMarker t))
    as [u1|] eqn:H1; [|discriminate].
  destruct (assertNoExistingInv (toNFC (after t ?? [])) (classicMarker t))
    as [u2|] eqn:H2; [|discriminate].
  apply assertNoExistingInv_Ok in H1, H2. cbn [bind] in H.
  rewrite num_le_Int in H.
  destruct (Z.leb_spec count 0) as [Hc|Hc].
  { injection H as <-. simpl. repeat split; try assumption; intros; lia. }
  unfold repeat_num, arrayFrom_num, Int in H. rewrite trunc_inject_Z in H.
  destruct (Z.ltb_spec count 0); [lia|]. cbn [bind] in H.
  unfold toLength in H. rewrite trunc_inject_Z in H.
  destruct (Z.gtb_spec (Z.min (Z.max count 0) 9007199254740991) 4294967295)
    as [|Hbig]; [discriminate|].
  replace (Z.min (Z.max count 0) 9007199254740991) with count in H by lia.
  cbn [bind] in H. injection H as <-. simpl.
  repeat split; try assumption; intros; lia.
Qed.

Lemma classicMarker_withChar (t : GhostTemplate) (inv : jsstring) :
  classicMarker (withChar t inv) = inv.
Proof. reflexivity. Qed.

Local Abbreviation smartLoop' :=
  (Integral.smartLoop toNFC chatId userIds template maxPer maxText overflow).
Local Abbreviation classicWhile' :=
  (Integral.classicWhile toNFC chatId template maxText overflow).
Local Abbreviation classicFor' :=
  (Integral.classicFor toNFC chatId template maxText overflow).

Lemma smartLoop_eq fuel msg inv fb re sep trail cursor payloads :
  smartLoop' fuel msg inv fb re sep trail cursor payloads =
  if cursor <? len userIds then
    match fuel with
    | O => None
    | S fuel' =>
        let desired := Z.min maxPer (len userIds - cursor) in
        let anchorAt := smartAnchor template msg fb re in
        let baseLen :=
          sb_baseLen (buildSmartBaseText toNFC msg inv 0 anchorAt sep trail) in
        let allowed := Integral.capCountByLength baseLen desired maxText in
        if allowed =? 0 then Some (Throw (BaseMessageTooLong (len msg)))
        else if isError overflow && (allowed <? desired) then
          Some (Throw (TextOverflow (Int desired) (Int allowed) (Int maxText)))
        else
          let batch := slice userIds cursor (Some (cursor + allowed)) in
          let built := buildSmartBaseText toNFC msg inv (len batch) anchorAt
                         sep trail in
          if len (sb_text built) >? maxText then
            Some (Throw (SmartTextExceeds (Int maxText)))
          else
            match buildEntities (arrayFrom (len batch) (sb_insertAt built))
                    batch with
            | Throw e => Some (Throw e)
            | Ok entities =>
                smartLoop' fuel' msg inv fb re sep trail (cursor + allowed)
                  (payloads ++ [{| chat_id := chatId; text := sb_text built;
                                   entities := entities |}])
            end
    end
  else Some (Ok payloads).
Proof. destruct fuel; reflexivity. Qed.

(** One round of the smart loop that does not throw takes at least one
    recipient and at most what is left. *)
Lemma smart_take_bounds (baseLen cursor : Z) :
  let desired := Z.min maxPer (len userIds - cursor) in
  let allowed := Integral.capCountByLength baseLen desired maxText in
  (allowed =? 0) = false ->
  1 <= allowed /\ allowed <= maxPer /\ cursor + allowed <= len userIds.
Proof.
  intros desired allowed H. apply Z.eqb_neq in H.
  unfold allowed, Integral.capCountByLength, desired in *. lia.
Qed.

Lemma smart_batch (cursor allowed : Z) :
  0 <= cursor -> 1 <= allowed -> cursor + allowed <= len userIds ->
  let batch := slice userIds cursor (Some (cursor + allowed)) in
  len batch = allowed /\ batch <> [] /\
  batch ++ skipn (Z.to_nat (cursor + allowed)) userIds
  = skipn (Z.to_nat cursor) userIds.
Proof.
  intros Hc Ha Hle batch. unfold batch. rewrite slice_window by lia.
  replace (cursor + allowed - cursor) with allowed by lia.
  assert (Hl : len (firstn (Z.to_nat allowed) (skipn (Z.to_nat cursor) userIds))
               = allowed).
  { rewrite len_firstn, len_skipn by lia. lia. }
  repeat split.
  - exact Hl.
  - intro E. rewrite E in Hl. unfold len in Hl. simpl in Hl. lia.
  - rewrite <- skipn_skipn_Z by lia. apply firstn_skipn.
Qed.

Lemma smartLoop_spec msg inv fb re sep trail :
  forall fuel cursor payloads ps, 0 <= cursor ->
  smartLoop' fuel msg inv fb re sep trail cursor payloads = Some (Ok ps) ->
  exists new,
    ps = payloads ++ new /\
    recipients new = skipn (Z.to_nat cursor) userIds /\
    Forall (SmartPayload toNFC chatId maxPer maxText msg inv
              (smartAnchor template msg fb re) sep trail) new.
Proof.
  induction fuel as [|fuel IH]; intros cursor payloads ps Hc;
    rewrite smartLoop_eq;
    destruct (Z.ltb_spec cursor (len userIds)) as [Hlt|Hge];
    cbv zeta; intro H; try discriminate.
  - injection H as <-. exists []. rewrite app_nil_r.
    repeat split; [|constructor].
    simpl. symmetry. apply skipn_all2. unfold len in Hge. lia.
  - set (baseLen := sb_baseLen _) in H.
    set (allowed := Integral.capCountByLength _ _ _) in H.
    destruct (allowed =? 0) eqn:Hz; [discriminate|].
    destruct (smart_take_bounds baseLen cursor Hz) as (Ha1 & Ha2 & Ha3).
    fold allowed in Ha1, Ha2, Ha3.
    destruct (isError overflow && _); [discriminate|].
    destruct (smart_batch Hc Ha1 Ha3) as (Hbl & Hbne & Hbcat).
    set (batch := slice userIds cursor (Some (cursor + allowed))) in *.
    set (built := buildSmartBaseText _ _ _ _ _ _ _) in H.
    destruct (Z.gtb_spec (len (sb_text built)) maxText) as [|Hfit];
      [discriminate|].
    rewrite buildEntities_arrayFrom in H.
    apply IH in H; [|lia]. destruct H as (new & -> & Hrec & Hall).
    eexists (_ :: new). rewrite <- app_assoc. split; [reflexivity|].
    split.
    + unfold recipients in *. simpl. rewrite Hrec, user_mentions. exact Hbcat.
    + constructor; [|assumption]. exists batch. simpl.
      repeat split; try assumption; try reflexivity. lia.
  - injection H as <-. exists []. rewrite app_nil_r.
    repeat split; [|constructor].
    simpl. symmetry. apply skipn_all2. unfold len in Hge. lia.
Qed.

(** One round of the smart loop: it throws, or it hands over to the next
    round with the cursor moved by at least one recipient. *)
Lemma smartLoop_step msg inv fb re sep trail cursor payloads :
  cursor < len userIds ->
  (exists e, forall fuel,
     smartLoop' (S fuel) msg inv fb re sep trail cursor payloads
     = Some (Throw e)) \/
  (exists take p, 1 <= take /\ cursor + take <= len userIds /\
     forall fuel,
     smartLoop' (S fuel) msg inv fb re sep trail cursor payloads
     = smartLoop' fuel msg inv fb re sep trail (cursor + take)
         (payloads ++ [p])).
Proof.
  intro Hlt.
  set (baseLen := sb_baseLen (buildSmartBaseText toNFC msg inv 0
                    (smartAnchor template msg fb re) sep trail)).
  set (allowed := Integral.capCountByLength baseLen
                    (Z.min maxPer (len userIds - cursor)) maxText).
  assert (Hcont : (cursor <? len userIds) = true) by (apply Z.ltb_lt; exact Hlt).
  destruct (allowed =? 0) eqn:Hz.
  { left. eexists. intro fuel. rewrite smartLoop_eq, Hcont.
    cbv zeta. fold baseLen. fold allowed. rewrite Hz. reflexivity. }
  destruct (isError overflow &&
            (allowed <? Z.min maxPer (len userIds - cursor))) eqn:Hov.
  { left. eexists. intro fuel. rewrite smartLoop_eq, Hcont.
    cbv zeta. fold baseLen. fold allowed. rewrite Hz, Hov. reflexivity. }
  set (batch := slice userIds cursor (Some (cursor + allowed))).
  set (built := buildSmartBaseText toNFC msg inv (len batch)
                  (smartAnchor template msg fb re) sep trail).
  destruct (len (sb_text built) >? maxText) eqn:Hfit.
  { left. eexists. intro fuel. rewrite smartLoop_eq, Hcont.
    cbv zeta. fold baseLen. fold allowed. rewrite Hz, Hov.
    fold batch. fold built. rewrite Hfit. reflexivity. }
  right. destruct (smart_take_bounds baseLen cursor Hz) as (Ha1 & _ & Ha3).
  exists allowed. eexists. split; [exact Ha1|]. split; [exact Ha3|].
  intro fuel. rewrite smartLoop_eq, Hcont.
  cbv zeta. fold baseLen. fold allowed. rewrite Hz, Hov.
  fold batch. fold built. rewrite Hfit.
  rewrite buildEntities_arrayFrom. reflexivity.
Qed.

Lemma smartLoop_total msg inv fb re sep trail :
  forall n cursor payloads, 0 <= cursor ->
  len userIds - cursor <= Z.of_nat n ->
  exists r, forall fuel, (n <= fuel)%nat ->
            smartLoop' fuel msg inv fb re sep trail cursor payloads = Some r.
Proof.
  induction n as [|n IH]; intros cursor payloads Hc Hn.
  - exists (Ok payloads). intros fuel _. rewrite smartLoop_eq.
    destruct (Z.ltb_spec cursor (len userIds)); [lia|reflexivity].
  - destruct (Z.ltb_spec cursor (len userIds)) as [Hlt|Hge].
    2:{ exists (Ok payloads). intros fuel _. rewrite smartLoop_eq.
        destruct (Z.ltb_spec cursor (len userIds)); [lia|reflexivity]. }
    destruct (smartLoop_step msg inv fb re sep trail payloads Hlt)
      as [[e He]|(take & p & Ha & _ & Hs)].
    + exists (Throw e). intros [|fuel] Hf; [lia|]. apply He.
    + destruct (IH (cursor + take) (payloads ++ [p])) as [r Hr]; [lia|lia|].
      exists r. intros [|fuel] Hf; [lia|]. rewrite Hs. apply Hr. lia.
Qed.

Lemma classicWhile_eq fuel inv capacity remaining payloads :
  classicWhile' fuel inv capacity remaining payloads =
  if len remaining >? 0 then
    match fuel with
    | O => None
    | S fuel' =>
        let take := Z.min (len remaining) capacity in
        let part := slice remaining 0 (Some take) in
        match buildInvisibleText toNFC (Int (len part))
                (withChar template inv) with
        | Throw e => Some (Throw e)
        | Ok built =>
            if len (it_text built) >? maxText then
              Some (Throw (ClassicTextExceeds (Int maxText)))
            else
              match buildEntities (it_offsets built) part with
              | Throw e => Some (Throw e)
              | Ok entities =>
                  let payloads' :=
                    payloads ++ [{| chat_id := chatId; text := it_text built;
                                    entities := entities |}] in
                  let remaining' := slice remaining take None in
                  if isError overflow && (len remaining' >? 0) then
                    Some (Throw (ClassicLeftover (len remaining')))
                  else classicWhile' fuel' inv capacity remaining' payloads'
              end
        end
    end
  else Some (Ok payloads).
Proof. destruct fuel; reflexivity. Qed.

(** One round of the classic loop takes at least one recipient when the
    capacity is positive. *)
Lemma classic_part (capacity : Z) (remaining : list UserId) :
  1 <= capacity -> 0 < len remaining ->
  let take := Z.min (len remaining) capacity in
  let part := slice remaining 0 (Some take) in
  let remaining' := slice remaining take None in
  len part = take /\ 1 <= take /\ part <> [] /\
  part ++ remaining' = remaining /\ len remaining' = len remaining - take.
Proof.
  intros Hcap Hrem take part remaining'.
  assert (Ht : 1 <= take <= len remaining) by (unfold take; lia).
  assert (Hl : len part = take).
  { unfold part. rewrite slice_prefix, len_firstn by lia. lia. }
  repeat split; try lia.
  - intro E. rewrite E in Hl. unfold len at 1 in Hl. simpl in Hl. lia.
  - apply slice_split. lia.
  - unfold remaining'. rewrite slice_suffix, len_skipn by lia. lia.
Qed.

Lemma classicWhile_spec inv capacity :
  1 <= capacity ->
  forall fuel remaining payloads ps,
  classicWhile' fuel inv capacity remaining payloads = Some (Ok ps) ->
  exists new,
    ps = payloads ++ new /\
    recipients new = remaining /\
    Forall (fun p => ClassicPayload toNFC chatId template maxText inv
                       capacity p /\
                     len (entities p) <= len remaining) new.
Proof.
  intros Hcap. induction fuel as [|fuel IH]; intros remaining payloads ps;
    rewrite classicWhile_eq;
    destruct (Z.gtb_spec (len remaining) 0) as [Hpos|Hzero];
    cbv zeta; intro H; try discriminate.
  - injection H as <-. exists []. rewrite app_nil_r.
    repeat split; [|constructor].
    simpl. symmetry. apply len_nil_iff. pose proof (len_nonneg remaining). lia.
  - destruct (classic_part remaining Hcap) as (Hpl & Ht & Hpne & Hcat & Hrl);
      [lia|].
    set (take := Z.min (len remaining) capacity) in *.
    set (part := slice remaining 0 (Some take)) in *.
    set (remaining' := slice remaining take None) in *.
    destruct (buildInvisibleText toNFC (Int (len part)) (withChar template inv))
      as [built|] eqn:Hb; [|discriminate].
    apply buildInvisibleText_inv in Hb. cbv zeta in Hb.
    rewrite classicMarker_withChar in Hb. simpl before in Hb. simpl after in Hb.
    destruct Hb as (Hi1 & Hi2 & _ & Hshape & _).
    destruct Hshape as [Htext Hoff]; [lia|].
    destruct (Z.gtb_spec (len (it_text built)) maxText) as [|Hfit];
      [discriminate|].
    rewrite Hoff, buildEntities_arrayFrom in H.
    destruct (isError overflow && _); [discriminate|].
    apply IH in H. destruct H as (new & -> & Hrec & Hall).
    eexists (_ :: new). rewrite <- app_assoc. split; [reflexivity|].
    split.
    + unfold recipients in *. simpl. rewrite Hrec, user_mentions. exact Hcat.
    + constructor.
      * split.
        -- exists part. simpl. repeat split; try assumption; try lia.
           rewrite Htext. do 3 f_equal. unfold len. lia.
        -- simpl. unfold len at 1. rewrite length_mentions.
           fold (len part). lia.
      * eapply Forall_impl; [|exact Hall]. simpl. intros p [Hp Hle].
        split; [assumption|]. lia.
  - injection H as <-. exists []. rewrite app_nil_r.
    repeat split; [|constructor].
    simpl. symmetry. apply len_nil_iff. pose proof (len_nonneg remaining). lia.
Qed.

(** One round of the classic loop under a capacity of at least 1: it
    throws, or it hands over to the next round with a shorter rest. *)
Lemma classicWhile_step inv capacity remaining payloads :
  1 <= capacity -> 0 < len remaining ->
  (exists e, forall fuel,
     classicWhile' (S fuel) inv capacity remaining payloads
     = Some (Throw e)) \/
  (exists remaining' p, (length remaining' < length remaining)%nat /\
     forall fuel,
     classicWhile' (S fuel) inv capacity remaining payloads
     = classicWhile' fuel inv capacity remaining' (payloads ++ [p])).
Proof.
  intros Hcap Hpos.
  destruct (classic_part remaining Hcap Hpos) as (Hpl & Ht & Hpne & Hcat & Hrl).
  set (take := Z.min (len remaining) capacity) in *.
  set (part := slice remaining 0 (Some take)) in *.
  set (remaining' := slice remaining take None) in *.
  assert (Hcont : (len remaining >? 0) = true) by (apply Z.gtb_lt; exact Hpos).
  destruct (buildInvisibleText toNFC (Int (len part)) (withChar template inv))
    as [built|e] eqn:Hb.
  2:{ left. exists e. intro fuel. rewrite classicWhile_eq, Hcont.
      cbv zeta. fold take. fold part. rewrite Hb. reflexivity. }
  destruct (len (it_text built) >? maxText) eqn:Hfit.
  { left. eexists. intro fuel. rewrite classicWhile_eq, Hcont.
    cbv zeta. fold take. fold part. rewrite Hb, Hfit. reflexivity. }
  destruct (buildEntities (it_offsets built) part) as [ents|e] eqn:He.
  2:{ left. exists e. intro fuel. rewrite classicWhile_eq, Hcont.
      cbv zeta. fold take. fold part. rewrite Hb, Hfit, He. reflexivity. }
  destruct (isError overflow && (len remaining' >? 0)) eqn:Hov.
  { left. eexists. intro fuel. rewrite classicWhile_eq, Hcont.
    cbv zeta. fold take. fold part. rewrite Hb, Hfit, He.
    fold remaining'. rewrite Hov. reflexivity. }
  right. exists remaining'. eexists. split; [unfold len in Hrl; lia|].
  intro fuel. rewrite classicWhile_eq, Hcont.
  cbv zeta. fold take. fold part. rewrite Hb, Hfit, He.
  fold remaining'. rewrite Hov. reflexivity.
Qed.

Lemma classicWhile_total inv capacity :
  1 <= capacity ->
  forall n remaining payloads, (length remaining <= n)%nat ->
  exists r, forall fuel, (n <= fuel)%nat ->
            classicWhile' fuel inv capacity remaining payloads = Some r.
Proof.
  intros Hcap. induction n as [|n IH]; intros remaining payloads Hn.
  - exists (Ok payloads). intros fuel _. rewrite classicWhile_eq.
    destruct (Z.gtb_spec (len remaining) 0) as [Hpos|]; [|reflexivity].
    unfold len in Hpos. lia.
  - destruct (Z.gtb_spec (len remaining) 0) as [Hpos|Hzero].
    2:{ exists (Ok payloads). intros fuel _. rewrite classicWhile_eq.
        destruct (Z.gtb_spec (len remaining) 0); [lia|reflexivity]. }
    destruct (@classicWhile_step inv capacity remaining payloads Hcap)
      as [[e He]|(remaining' & p & Hshort & Hs)]; [lia| |].
    + exists (Throw e). intros [|fuel] Hf; [lia|]. apply He.
    + destruct (IH remaining' (payloads ++ [p])) as [r Hr]; [lia|].
      exists r. intros [|fuel] Hf; [lia|]. rewrite Hs. apply Hr. lia.
Qed.

Lemma classicFor_spec inv capacity :
  1 <= capacity ->
  forall fuel chunks payloads ps,
  Forall (fun c => len c <= maxPer) chunks ->
  classicFor' fuel inv capacity chunks payloads = Some (Ok ps) ->
  exists new,
    ps = payloads ++ new /\
    recipients new = concat chunks /\
    Forall (fun p => ClassicPayload toNFC chatId template maxText inv
                       capacity p /\
                     len (entities p) <= maxPer) new.
Proof.
  intros Hcap fuel chunks.
  induction chunks as [|chunk rest IH]; intros payloads ps Hch; simpl; intro H.
  - injection H as <-. exists []. rewrite app_nil_r.
    repeat split; constructor.
  - destruct (isError overflow && _); [discriminate|].
    rewrite slice_copy in H.
    destruct (classicWhile' fuel inv capacity chunk payloads)
      as [[mid|e]|] eqn:Hw; try discriminate.
    apply classicWhile_spec in Hw; [|assumption].
    destruct Hw as (new1 & -> & Hrec1 & Hall1).
    apply Forall_cons_iff in Hch. destruct Hch as [Hc Hrest].
    apply IH in H; [|assumption]. destruct H as (new2 & -> & Hrec2 & Hall2).
    exists (new1 ++ new2). rewrite app_assoc. split; [reflexivity|].
    split.
    + rewrite recipients_app, Hrec1, Hrec2. reflexivity.
    + apply Forall_app. split; [|assumption].
      eapply Forall_impl; [|exact Hall1]. simpl. intros p [Hp Hle].
      split; [assumption|lia].
Qed.

Lemma classicFor_total inv capacity :
  1 <= capacity ->
  forall n chunks payloads,
  Forall (fun c => (length c <= n)%nat) chunks ->
  exists r, forall fuel, (n <= fuel)%nat ->
            classicFor' fuel inv capacity chunks payloads = Some r.
Proof.
  intros Hcap n chunks.
  induction chunks as [|chunk rest IH]; intros payloads Hch.
  - exists (Ok payloads). reflexivity.
  - apply Forall_cons_iff in Hch. destruct Hch as [Hc Hrest].
    destruct (isError overflow && (len chunk >? capacity)) eqn:Hov.
    { eexists. intros fuel _. simpl. rewrite Hov. reflexivity. }
    destruct (classicWhile_total inv Hcap chunk payloads Hc) as [[mid|e] Hw].
    + destruct (IH mid Hrest) as [r Hr]. exists r. intros fuel Hf.
      simpl. rewrite Hov, slice_copy, (Hw fuel Hf). apply Hr, Hf.
    + exists (Throw e). intros fuel Hf.
      simpl. rewrite Hov, slice_copy, (Hw fuel Hf). reflexivity.
Qed.

End BuilderFacts.

(** ** [buildGhostPayloads] as a whole *)

Section Builder.

Variable toNFC : jsstring -> jsstring.

Lemma buildGhostPayloads_smart fuel chatId userIds t opts msg ps :
  smartMode t = Some msg ->
  Integral.buildGhostPayloads toNFC fuel chatId userIds t opts = Some (Ok ps) ->
  recipients ps = userIds /\
  Forall (SmartPayload toNFC chatId (countCap opts) (lengthCap opts) msg
            (smartMarker t msg) (templateAnchor t msg)
            (truthy (separateLineForMentions t)) (truthy (trailingNewline t)))
         ps.
Proof.
  intros Hmode. unfold Integral.buildGhostPayloads.
  destruct (Z.eqb_spec (len userIds) 0) as [Hz|Hnz].
  - intro H. injection H as <-. apply len_nil_iff in Hz. subst userIds.
    split; [reflexivity|constructor].
  - rewrite Hmode. intro H. apply smartLoop_spec in H; [|lia].
    destruct H as (new & -> & Hrec & Hall). simpl app. split; assumption.
Qed.

Lemma buildGhostPayloads_classic fuel chatId userIds t opts ps :
  smartMode t = None ->
  Integral.buildGhostPayloads toNFC fuel chatId userIds t opts = Some (Ok ps) ->
  recipients ps = userIds /\
  Forall (fun p =>
            ClassicPayload toNFC chatId t (lengthCap opts) (classicMarker t)
              (classicCapacity toNFC t opts) p /\
            len (entities p) <= countCap opts) ps.
Proof.
  intros Hmode. unfold Integral.buildGhostPayloads.
  destruct (Z.eqb_spec (len userIds) 0) as [Hz|Hnz].
  - intro H. injection H as <-. apply len_nil_iff in Hz. subst userIds.
    split; [reflexivity|constructor].
  - rewrite Hmode. fold (countCap opts) (lengthCap opts) (classicMarker t).
    unfold Integral.chunkUserIds.
    destruct (Integral.chunkUserIds_loop fuel userIds (countCap opts) 0 [])
      as [chunks|] eqn:Hch; [|discriminate].
    apply chunkUserIds_loop_spec in Hch; [|unfold countCap; lia|lia].
    destruct Hch as (new & -> & Hcat & Hall). simpl app. simpl skipn in Hcat.
    destruct (assertNoExistingInv _ _ ;;; assertNoExistingInv _ _);
      [|discriminate].
    fold (classicCapacity toNFC t opts).
    destruct (Z.leb_spec (classicCapacity toNFC t opts) 0) as [|Hcap]; [discriminate|].
    intro H. apply classicFor_spec with (maxPer := countCap opts) in H.
    + destruct H as (out & -> & Hrec & Hout). simpl app.
      split; [congruence|assumption].
    + lia.
    + eapply Forall_impl; [|exact Hall]. simpl. intros c [_ Hc]. exact Hc.
Qed.

(** Every call ends, with a result that no longer depends on the fuel once
    the fuel covers the recipients. *)
Lemma buildGhostPayloads_total chatId userIds t opts :
  exists r, forall fuel, (length userIds <= fuel)%nat ->
            Integral.buildGhostPayloads toNFC fuel chatId userIds t opts = Some r.
Proof.
  unfold Integral.buildGhostPayloads.
  destruct (Z.eqb_spec (len userIds) 0) as [Hz|Hnz].
  { exists (Ok []). reflexivity. }
  destruct (smartMode t) as [msg|].
  - apply smartLoop_total; unfold len; lia.
  - fold (countCap opts) (lengthCap opts) (classicMarker t).
    unfold Integral.chunkUserIds.
    assert (Hm : 1 <= countCap opts) by (unfold countCap; lia).
    destruct (@chunkUserIds_loop_total userIds (countCap opts) Hm
                (length userIds) 0 [])
      as [chunks Hch]; [lia|unfold len; lia|].
    pose proof (Hch _ (Nat.le_refl _)) as Hspec.
    apply chunkUserIds_loop_spec in Hspec; [|assumption|lia].
    destruct Hspec as (new & -> & Hcat & _). simpl app in *. simpl skipn in Hcat.
    destruct (assertNoExistingInv _ _ ;;; assertNoExistingInv _ _) as [u|e].
    2:{ exists (Throw e). intros fuel Hf. now rewrite (Hch fuel Hf). }
    fold (classicCapacity toNFC t opts).
    destruct (Z.leb_spec (classicCapacity toNFC t opts) 0) as [|Hcap].
    { eexists. intros fuel Hf. now rewrite (Hch fuel Hf). }
    destruct (@classicFor_total toNFC chatId t (lengthCap opts)
                (Integral.onOverflow opts ?? OverflowSplit) (classicMarker t)
                (classicCapacity toNFC t opts) ltac:(lia)
                (length userIds) new []) as [r Hr].
    { apply Forall_forall. intros c Hc. rewrite <- Hcat.
      now apply length_concat_member. }
    exists r. intros fuel Hf. rewrite (Hch fuel Hf). apply Hr, Hf.
Qed.

End Builder.

(** ** The loops on any limits *)

Lemma chunkUserIds_loop_unfold (fuel : nat) (userIds : list UserId)
    (m i : number) (out : list (list UserId)) :
  chunkUserIds_loop fuel userIds m i out =
  if num_lt i (Int (len userIds)) then
    match fuel with
    | O => None
    | S fuel' =>
        chunkUserIds_loop fuel' userIds m (num_add i m)
          (out ++ [slice_num userIds i (Some (num_add i m))])
    end
  else Some out.
Proof. destruct fuel; reflexivity. Qed.

Section AnyLimits.

Variable toNFC : jsstring -> jsstring.
Variables (chatId : ChatId) (userIds : list UserId) (template : GhostTemplate).
Variables (maxPer maxText : number) (overflow : Overflow).

Lemma smartLoop_unfold fuel msg inv fb re sep trail cursor payloads :
  smartLoop toNFC chatId userIds template maxPer maxText overflow fuel msg
    inv fb re sep trail cursor payloads =
  if num_lt cursor (Int (len userIds)) then
    match fuel with
    | O => None
    | S fuel' =>
        let desired := num_min maxPer (num_sub (Int (len userIds)) cursor) in
        let anchorAt := smartAnchor template msg fb re in
        let baseLen :=
          sb_baseLen (buildSmartBaseText toNFC msg inv 0 anchorAt sep trail) in
        let allowed := capCountByLength (Int baseLen) desired maxText in
        if num_eq allowed (Int 0) then
          Some (Throw (BaseMessageTooLong (len msg)))
        else if isError overflow && num_lt allowed desired then
          Some (Throw (TextOverflow desired allowed maxText))
        else
          let batch :=
            slice_num userIds cursor (Some (num_add cursor allowed)) in
          let built := buildSmartBaseText toNFC msg inv (len batch) anchorAt
                         sep trail in
          if num_gt (Int (len (sb_text built))) maxText then
            Some (Throw (SmartTextExceeds maxText))
          else
            match buildEntities (arrayFrom (len batch) (sb_insertAt built))
                    batch with
            | Throw e => Some (Throw e)
            | Ok entities =>
                smartLoop toNFC chatId userIds template maxPer maxText
                  overflow fuel' msg inv fb re sep trail
                  (num_add cursor allowed)
                  (payloads ++ [{| chat_id := chatId; text := sb_text built;
                                   entities := entities |}])
            end
    end
  else Some (Ok payloads).
Proof. destruct fuel; reflexivity. Qed.

Lemma classicWhile_unfold fuel inv capacity remaining payloads :
  classicWhile toNFC chatId template maxText overflow fuel inv capacity
    remaining payloads =
  if len remaining >? 0 then
    match fuel with
    | O => None
    | S fuel' =>
        let take := num_min (Int (len remaining)) capacity in
        let part := slice_num remaining (Int 0) (Some take) in
        match buildInvisibleText toNFC (Int (len part))
                (withChar template inv) with
        | Throw e => Some (Throw e)
        | Ok built =>
            if num_gt (Int (len (it_text built))) maxText then
              Some (Throw (ClassicTextExceeds maxText))
            else
              match buildEntities (it_offsets built) part with
              | Throw e => Some (Throw e)
              | Ok entities =>
                  let payloads' :=
                    payloads ++ [{| chat_id := chatId; text := it_text built;
                                    entities := entities |}] in
                  let remaining' := slice_num remaining take None in
                  if isError overflow && (len remaining' >? 0) then
                    Some (Throw (ClassicLeftover (len remaining')))
                  else
                    classicWhile toNFC chatId template maxText overflow fuel'
                      inv capacity remaining' payloads'
              end
        end
    end
  else Some (Ok payloads).
Proof. destruct fuel; reflexivity. Qed.

(** Every payload the smart loop adds has the smart layout and has passed
    the length check. *)
Lemma smartLoop_layout msg inv fb re sep trail :
  forall fuel cursor payloads ps,
  smartLoop toNFC chatId userIds template maxPer maxText overflow fuel msg
    inv fb re sep trail cursor payloads = Some (Ok ps) ->
  exists new,
    ps = payloads ++ new /\
    Forall (fun p =>
              SmartLayout toNFC chatId msg inv (smartAnchor template msg fb re)
                sep trail p /\
              num_gt (Int (len (text p))) maxText = false) new.
Proof.
  induction fuel as [|fuel IH]; intros cursor payloads ps;
    rewrite smartLoop_unfold; destruct (num_lt cursor _);
    cbv zeta; intro H; try discriminate;
    try (injection H as <-; exists []; rewrite app_nil_r; split;
         [reflexivity|constructor]).
  destruct (num_eq _ _); [discriminate|].
  destruct (isError overflow && _); [discriminate|].
  set (batch := slice_num userIds cursor _) in H.
  set (built := buildSmartBaseText _ _ _ _ _ _ _) in H.
  destruct (num_gt _ maxText) eqn:Hfit; [discriminate|].
  rewrite buildEntities_arrayFrom in H.
  apply IH in H. destruct H as (new & -> & Hall).
  eexists (_ :: new). rewrite <- app_assoc. split; [reflexivity|].
  constructor; [|assumption]. split; [|exact Hfit].
  exists batch. now repeat split.
Qed.

(** Every payload the classic loop adds has the classic layout and has
    passed the length check. *)
Lemma classicWhile_layout inv capacity :
  forall fuel remaining payloads ps,
  classicWhile toNFC chatId template maxText overflow fuel inv capacity
    remaining payloads = Some (Ok ps) ->
  exists new,
    ps = payloads ++ new /\
    Forall (fun p =>
              ClassicLayout toNFC chatId template inv p /\
              num_gt (Int (len (text p))) maxText = false) new.
Proof.
  induction fuel as [|fuel IH]; intros remaining payloads ps;
    rewrite classicWhile_unfold; destruct (len remaining >? 0);
    cbv zeta; intro H; try discriminate;
    try (injection H as <-; exists []; rewrite app_nil_r; split;
         [reflexivity|constructor]).
  set (part := slice_num remaining (Int 0) _) in H.
  destruct (buildInvisibleText toNFC (Int (len part)) (withChar template inv))
    as [built|] eqn:Hb; [|discriminate].
  apply buildInvisibleText_inv in Hb. cbv zeta in Hb.
  rewrite classicMarker_withChar in Hb. simpl before in Hb. simpl after in Hb.
  destruct Hb as (Hi1 & Hi2 & _ & Hpos & Hzero).
  destruct (num_gt _ maxText) eqn:Hfit; [discriminate|].
  assert (Hshape :
    it_text built = toNFC (before template ?? [])
                    ++ str_repeat inv (length part)
                    ++ toNFC (after template ?? []) /\
    it_offsets built = arrayFrom (len part) (len (toNFC (before template ?? [])))).
  { destruct part as [|u part'] eqn:Hpart.
    - destruct Hzero as [Ht Ho]; [unfold len; simpl; lia|]. now split.
    - destruct Hpos as [Ht Ho]; [unfold len; simpl length; lia|].
      split; [|exact Ho]. rewrite Ht. unfold len. now rewrite Nat2Z.id. }
  destruct Hshape as [Htext Hoff].
  rewrite Hoff, buildEntities_arrayFrom in H.
  destruct (isError overflow && _); [discriminate|].
  apply IH in H. destruct H as (new & -> & Hall).
  eexists (_ :: new). rewrite <- app_assoc. split; [reflexivity|].
  constructor; [|assumption]. split; [|exact Hfit].
  exists part. now repeat split.
Qed.

Lemma classicFor_layout inv capacity fuel :
  forall chunks payloads ps,
  classicFor toNFC chatId template maxText overflow fuel inv capacity chunks
    payloads = Some (Ok ps) ->
  exists new,
    ps = payloads ++ new /\
    Forall (fun p =>
              ClassicLayout toNFC chatId template inv p /\
              num_gt (Int (len (text p))) maxText = false) new.
Proof.
  induction chunks as [|chunk rest IH]; intros payloads ps;
    cbn [classicFor]; intro H.
  - injection H as <-. exists []. rewrite app_nil_r. split;
      [reflexivity|constructor].
  - destruct (isError overflow && _); [discriminate|].
    destruct (classicWhile _ _ _ _ _ _ _ _ _ payloads) as [[mid|]|] eqn:Hw;
      try discriminate.
    apply classicWhile_layout in Hw. destruct Hw as (new1 & -> & Hall1).
    apply IH in H. destruct H as (new2 & -> & Hall2).
    exists (new1 ++ new2). rewrite app_assoc. split; [reflexivity|].
    apply Forall_app. now split.
Qed.

End AnyLimits.

(** What [buildGhostPayloads] returns in smart mode, whatever the limits. *)
Lemma buildGhostPayloads_smart_layout toNFC fuel chatId userIds t opts msg ps :
  smartMode t = Some msg ->
  buildGhostPayloads toNFC fuel chatId userIds t opts = Some (Ok ps) ->
  Forall (fun p =>
            SmartLayout toNFC chatId msg (smartMarker t msg)
              (templateAnchor t msg) (truthy (separateLineForMentions t))
              (truthy (trailingNewline t)) p /\
            num_gt (Int (len (text p))) (lengthLimit opts) = false) ps.
Proof.
  intros Hmode. unfold buildGhostPayloads.
  destruct (len userIds =? 0).
  - intro H. injection H as <-. constructor.
  - rewrite Hmode. intro H. apply smartLoop_layout in H.
    destruct H as (new & -> & Hall). exact Hall.
Qed.

(** What [buildGhostPayloads] returns in classic mode, whatever the
    limits. *)
Lemma buildGhostPayloads_classic_layout toNFC fuel chatId userIds t opts ps :
  smartMode t = None ->
  buildGhostPayloads toNFC fuel chatId userIds t opts = Some (Ok ps) ->
  Forall (fun p =>
            ClassicLayout toNFC chatId t (classicMarker t) p /\
            num_gt (Int (len (text p))) (lengthLimit opts) = false) ps.
Proof.
  intros Hmode. unfold buildGhostPayloads.
  destruct (len userIds =? 0).
  - intro H. injection H as <-. constructor.
  - rewrite Hmode. fold (classicMarker t).
    destruct (chunkUserIds _ _ _) as [chunks|]; [|discriminate].
    destruct (assertNoExistingInv _ _ ;;; assertNoExistingInv _ _);
      [|discriminate].
    destruct (num_le _ _); [discriminate|].
    intro H. apply classicFor_layout in H.
    destruct H as (new & -> & Hall). exact Hall.
Qed.

(** ** Recipient coverage, limits, termination *)

(** C4 on the code: [buildGhostPayloads(1, [7, 8], template,
    { maxPerMessage: NaN })].  [Math.max(1, NaN)] is [NaN], so the clamp of
    the count cap lets it through.  In classic mode [chunkUserIds] cuts
    one empty chunk and the call returns no payload at all; in smart mode
    the guard [allowed === 0] does not see a [NaN], the batch is empty and
    the call returns one payload without a mention.  Either way the two
    recipients are lost, and no error is thrown. *)
Theorem nan_cap_loses_recipients :
  buildGhostPayloads nfc_sample 2 (ChatNumber 1) [7; 8]
    (classicTemplate [65%N] [66%N]) (withMaxPerMessage defaultOptions NaN)
  = Some (Ok [])
  /\ buildGhostPayloads nfc_sample 2 (ChatNumber 1) [7; 8]
       (smartTemplate [72; 105]%N None) (withMaxPerMessage defaultOptions NaN)
     = Some (Ok [{| chat_id := ChatNumber 1; text := [72; 105]%N;
                    entities := [] |}])
  /\ recipients [{| chat_id := ChatNumber 1; text := [72; 105]%N;
                    entities := [] |}] <> [7; 8]
  /\ countLimit (withMaxPerMessage defaultOptions NaN) = NaN.
Proof. repeat split. discriminate. Qed.

(** On integer limits: whenever [buildGhostPayloads] returns payloads,
    their recipients, read payload after payload, are exactly the input
    list. *)
Lemma integral_recipients toNFC fuel chatId userIds t opts ps :
  Integral.buildGhostPayloads toNFC fuel chatId userIds t opts = Some (Ok ps) ->
  recipients ps = userIds.
Proof.
  intro H. destruct (smartMode t) as [msg|] eqn:Hmode.
  - eapply buildGhostPayloads_smart in H; [|exact Hmode]. apply H.
  - eapply buildGhostPayloads_classic in H; [|exact Hmode]. apply H.
Qed.

(** C5 on the code: [buildGhostPayloads(1, [1, 2, 3, 4, 5], template,
    { maxPerMessage: 2.5 })].  The cap is at least 1.  The cursor moves by
    2.5 and [slice] truncates both ends of a batch, so the second payload
    carries the recipients 3, 4 and 5: three mentions under a cap of 2.5,
    in smart mode and, through [chunkUserIds], in classic mode. *)
Theorem fractional_cap_is_exceeded :
  let cap := Finite (5 # 2) in
  let opts := withMaxPerMessage defaultOptions cap in
  num_le (Int 1) cap = true /\
  buildGhostPayloads nfc_sample 2 (ChatNumber 1) [1; 2; 3; 4; 5]
    (smartTemplate [72; 105]%N None) opts
  = Some (Ok [{| chat_id := ChatNumber 1; text := [72; 105; 8203; 8203]%N;
                 entities := mentions 2 [1; 2] |};
              {| chat_id := ChatNumber 1;
                 text := [72; 105; 8203; 8203; 8203]%N;
                 entities := mentions 2 [3; 4; 5] |}]) /\
  buildGhostPayloads nfc_sample 2 (ChatNumber 1) [1; 2; 3; 4; 5]
    (classicTemplate [65%N] [66%N]) opts
  = Some (Ok [{| chat_id := ChatNumber 1; text := [65; 8203; 8203; 66]%N;
                 entities := mentions 1 [1; 2] |};
              {| chat_id := ChatNumber 1;
                 text := [65; 8203; 8203; 8203; 66]%N;
                 entities := mentions 1 [3; 4; 5] |}]) /\
  num_le (Int (len (mentions 1 [3; 4; 5]))) cap = false.
Proof. cbv zeta. repeat split. Qed.

(** C9 on the code: [buildGhostPayloads(1, [7], { before: "A", after: "B" },
    { maxTextLength: 2.5 })].  The room for markers is 0.5; the guard
    [capacity <= 0] lets it through; [take] is 0.5, the part
    [remaining.slice(0, 0.5)] is empty and [remaining.slice(0.5)] is the
    whole rest: every round of the classic loop pushes a payload without a
    mention and leaves the recipient where it was.  The call never
    returns, whatever the fuel. *)
Theorem fractional_room_never_ends :
  forall fuel,
    buildGhostPayloads nfc_sample fuel (ChatNumber 1) [7]
      (classicTemplate [65%N] [66%N])
      {| maxPerMessage := None; maxTextLength := Some (Finite (5 # 2));
         onOverflow := None |}
    = None.
Proof.
  assert (Hloop : forall fuel payloads,
    classicWhile nfc_sample (ChatNumber 1) (classicTemplate [65%N] [66%N])
      (Finite (5 # 2)) OverflowSplit fuel [8203%N] (Finite (1 # 2)) [7]
      payloads = None).
  { induction fuel as [|fuel IH]; intro payloads; [reflexivity|].
    rewrite classicWhile_unfold. cbn. apply IH. }
  intros [|fuel]; [reflexivity|].
  unfold buildGhostPayloads, chunkUserIds.
  rewrite chunkUserIds_loop_unfold. cbn - [classicWhile chunkUserIds_loop].
  rewrite chunkUserIds_loop_unfold. cbn - [classicWhile].
  now rewrite Hloop.
Qed.

(** X25. On limits that are integers or absent: whenever
    [buildGhostPayloads] returns payloads, their recipients, read payload
    after payload, are exactly the input list [userIds]: nothing lost,
    nothing duplicated, nothing reordered. *)
Theorem recipients_roundtrip toNFC fuel chatId userIds t opts ps :
  buildGhostPayloads toNFC fuel chatId userIds t (integral opts)
  = Some (Ok ps) ->
  recipients ps = userIds.
Proof. rewrite buildGhostPayloads_integral. apply integral_recipients. Qed.

Lemma recipients_roundtrip_witness :
  recipients
    [{| chat_id := ChatNumber 1; text := [65; 8203; 8203; 66]%N;
        entities := mentions 1 [7; 8] |};
     {| chat_id := ChatNumber 1; text := [65; 8203; 66]%N;
        entities := mentions 1 [9] |}] = [7; 8; 9].
Proof.
  apply (@recipients_roundtrip nfc_sample 3%nat (ChatNumber 1) [7; 8; 9]
           (classicTemplate [65%N] [66%N]) (integerLimits (Some 2) None)).
  vm_compute. reflexivity.
Defined.

(** X26. On limits that are integers or absent, with a count cap of at
    least 1: every payload [buildGhostPayloads] returns has a text of at
    most [maxTextLength] code units and at most [maxPerMessage]
    entities. *)
Theorem limits_respected toNFC fuel chatId userIds t opts ps :
  1 <= Integral.maxPerMessage opts ?? 100 ->
  buildGhostPayloads toNFC fuel chatId userIds t (integral opts)
  = Some (Ok ps) ->
  Forall (fun p =>
            len (text p) <= Integral.maxTextLength opts ?? DEFAULT_MAX_TEXT /\
            len (entities p) <= Integral.maxPerMessage opts ?? 100) ps.
Proof.
  rewrite buildGhostPayloads_integral. intros Hm H.
  assert (Hcap : countCap opts = Integral.maxPerMessage opts ?? 100)
    by (unfold countCap; lia).
  destruct (smartMode t) as [msg|] eqn:Hmode.
  - eapply buildGhostPayloads_smart in H; [|exact Hmode].
    destruct H as [_ H]. eapply Forall_impl; [|exact H]. simpl.
    intros p (batch & _ & Hle & _ & _ & Hfit & ->).
    split; [exact Hfit|]. unfold len at 1. rewrite length_mentions.
    fold (len batch). lia.
  - eapply buildGhostPayloads_classic in H; [|exact Hmode].
    destruct H as [_ H]. eapply Forall_impl; [|exact H]. simpl.
    intros p [(part & _ & _ & _ & _ & _ & _ & Hfit & _) Hle].
    split; [exact Hfit|lia].
Qed.

Lemma limits_respected_witness :
  Forall (fun p => len (text p) <= 3 /\ len (entities p) <= 2)
    [{| chat_id := ChatNumber 1; text := [65; 8203; 66]%N;
        entities := mentions 1 [7] |};
     {| chat_id := ChatNumber 1; text := [65; 8203; 66]%N;
        entities := mentions 1 [8] |};
     {| chat_id := ChatNumber 1; text := [65; 8203; 66]%N;
        entities := mentions 1 [9] |}].
Proof.
  apply (@limits_respected nfc_sample 3%nat (ChatNumber 1) [7; 8; 9]
           (classicTemplate [65%N] [66%N]) (integerLimits (Some 2) (Some 3))).
  - simpl. lia.
  - vm_compute. reflexivity.
Defined.

(** On integer limits every call ends. *)
Lemma integral_total toNFC chatId userIds t (opts : Integral.BuildOptions) :
  exists r, forall fuel, (length userIds <= fuel)%nat ->
            buildGhostPayloads toNFC fuel chatId userIds t (integral opts)
            = Some r.
Proof.
  destruct (buildGhostPayloads_total toNFC chatId userIds t opts) as [r Hr].
  exists r. intros fuel Hf. rewrite buildGhostPayloads_integral. now apply Hr.
Qed.

(** X27. On limits that are integers or absent [buildGhostPayloads] ends
    on every input: with fuel for one round per recipient it reaches a
    result (payloads or a thrown error), and more fuel does not change
    it.  On such limits a round of the smart loop throws or moves the
    cursor by at least one recipient, and a round of the classic loop,
    entered only with a capacity of at least 1, throws or shortens the
    rest of its chunk. *)
Theorem buildGhostPayloads_terminates :
  (forall toNFC chatId userIds t opts,
     exists r, forall fuel, (length userIds <= fuel)%nat ->
       buildGhostPayloads toNFC fuel chatId userIds t (integral opts) = Some r)
  /\ (forall toNFC chatId userIds t maxPer maxText overflow msg inv fb re
             sep trail cursor payloads,
        cursor < len userIds ->
        (exists e, forall fuel,
           smartLoop toNFC chatId userIds t (Int maxPer) (Int maxText)
             overflow (S fuel) msg inv fb re sep trail (Int cursor) payloads
           = Some (Throw e)) \/
        (exists take p, 1 <= take /\ cursor + take <= len userIds /\
           forall fuel,
           smartLoop toNFC chatId userIds t (Int maxPer) (Int maxText)
             overflow (S fuel) msg inv fb re sep trail (Int cursor) payloads
           = smartLoop toNFC chatId userIds t (Int maxPer) (Int maxText)
               overflow fuel msg inv fb re sep trail (Int (cursor + take))
               (payloads ++ [p])))
  /\ (forall toNFC chatId t maxText overflow inv capacity remaining payloads,
        1 <= capacity -> 0 < len remaining ->
        (exists e, forall fuel,
           classicWhile toNFC chatId t (Int maxText) overflow (S fuel) inv
             (Int capacity) remaining payloads = Some (Throw e)) \/
        (exists remaining' p, (length remaining' < length remaining)%nat /\
           forall fuel,
           classicWhile toNFC chatId t (Int maxText) overflow (S fuel) inv
             (Int capacity) remaining payloads
           = classicWhile toNFC chatId t (Int maxText) overflow fuel inv
               (Int capacity) remaining' (payloads ++ [p]))).
Proof.
  split; [|split].
  - intros. apply integral_total.
  - intros toNFC chatId userIds t maxPer maxText overflow msg inv fb re sep
      trail cursor payloads Hlt.
    destruct (@smartLoop_step toNFC chatId userIds t maxPer maxText overflow
                msg inv fb re sep trail cursor payloads Hlt)
      as [[e He]|(take & p & H1 & H2 & Hs)].
    + left. exists e. intro fuel. rewrite smartLoop_integral. apply He.
    + right. exists take, p. split; [exact H1|]. split; [exact H2|].
      intro fuel. rewrite !smartLoop_integral. apply Hs.
  - intros toNFC chatId t maxText overflow inv capacity remaining payloads
      Hcap Hpos.
    destruct (@classicWhile_step toNFC chatId t maxText overflow inv capacity
                remaining payloads Hcap Hpos)
      as [[e He]|(remaining' & p & Hshort & Hs)].
    + left. exists e. intro fuel. rewrite classicWhile_integral. apply He.
    + right. exists remaining', p. split; [exact Hshort|].
      intro fuel. rewrite !classicWhile_integral. apply Hs.
Qed.

Lemma buildGhostPayloads_terminates_witness :
  exists r, forall fuel, (2 <= fuel)%nat ->
    buildGhostPayloads nfc_sample fuel (ChatNumber 1) [7; 8]
      (smartTemplate [72; 105; 33]%N None)
      (integral (integerLimits (Some 1) None))
    = Some r.
Proof.
  exact (proj1 buildGhostPayloads_terminates nfc_sample (ChatNumber 1) [7; 8]
           (smartTemplate [72; 105; 33]%N None)
           (integerLimits (Some 1) None)).
Defined.

(** C10. A count cap below 1 is raised to 1: with [maxPerMessage < 1],
    finite or [-Infinity], the call is the call with [maxPerMessage = 1],
    fuel for fuel, whatever the other options.  When [maxTextLength] is an
    integer or absent, the call therefore ends, it returns a payload for
    every recipient when it returns payloads (none is empty, so a
    non-empty list never gives an empty result), and it throws only where
    the cap 1 throws. *)
Theorem nonpositive_cap_is_one toNFC chatId userIds t opts m :
  num_lt m (Int 1) = true ->
  (forall fuel,
     buildGhostPayloads toNFC fuel chatId userIds t (withMaxPerMessage opts m)
     = buildGhostPayloads toNFC fuel chatId userIds t
         (withMaxPerMessage opts (Int 1)))
  /\ (forall maxText, maxTextLength opts = option_map Int maxText ->
      (exists r, forall fuel, (length userIds <= fuel)%nat ->
         buildGhostPayloads toNFC fuel chatId userIds t
           (withMaxPerMessage opts m) = Some r)
      /\ (forall fuel ps,
            buildGhostPayloads toNFC fuel chatId userIds t
              (withMaxPerMessage opts m) = Some (Ok ps) ->
            recipients ps = userIds /\
            Forall (fun p => length (entities p) = 1%nat) ps /\
            length ps = length userIds)).
Proof.
  intro Hm.
  assert (Hmax : num_max (Int 1) m = Int 1).
  { unfold num_lt in Hm. unfold num_max.
    destruct m as [| | |q]; try discriminate; [reflexivity|].
    cbn [num_compare Int] in *.
    rewrite <- Qcompare_antisym.
    destruct (q ?= inject_Z 1)%Q; try discriminate. reflexivity. }
  assert (Heq : forall fuel,
     buildGhostPayloads toNFC fuel chatId userIds t (withMaxPerMessage opts m)
     = buildGhostPayloads toNFC fuel chatId userIds t
         (withMaxPerMessage opts (Int 1))).
  { intro fuel. unfold buildGhostPayloads, withMaxPerMessage.
    cbn [maxPerMessage maxTextLength onOverflow orElse].
    rewrite Hmax. now rewrite num_max_Int. }
  split; [exact Heq|]. intros maxText HmaxText.
  set (o := {| Integral.maxPerMessage := Some 1;
               Integral.maxTextLength := maxText;
               Integral.onOverflow := onOverflow opts |}).
  assert (Ho : withMaxPerMessage opts (Int 1) = integral o).
  { unfold withMaxPerMessage, integral, o. simpl. now rewrite HmaxText. }
  split.
  { destruct (integral_total toNFC chatId userIds t o) as [r Hr].
    exists r. intros fuel Hf. rewrite Heq, Ho. now apply Hr. }
  intros fuel ps H. rewrite Heq, Ho, buildGhostPayloads_integral in H.
  assert (Hone : Forall (fun p => length (entities p) = 1%nat) ps).
  { destruct (smartMode t) as [msg|] eqn:Hmode.
    - eapply buildGhostPayloads_smart in H; [|exact Hmode].
      destruct H as [_ H]. eapply Forall_impl; [|exact H]. simpl.
      intros p (batch & Hne & Hle & _ & _ & _ & ->).
      rewrite length_mentions. unfold countCap, len in Hle. simpl in Hle.
      destruct batch; [congruence|]. simpl in *. lia.
    - eapply buildGhostPayloads_classic in H; [|exact Hmode].
      destruct H as [_ H]. eapply Forall_impl; [|exact H]. simpl.
      intros p [(part & Hne & _ & _ & _ & _ & _ & _ & ->) Hle].
      unfold len in Hle. rewrite length_mentions in *.
      unfold countCap in Hle. simpl in Hle.
      destruct part; [congruence|]. simpl in *. lia. }
  assert (Hrec : recipients ps = userIds) by now apply integral_recipients in H.
  repeat split; try assumption.
  rewrite <- Hrec. clear -Hone. induction Hone as [|p ps Hp _ IH]; simpl.
  - reflexivity.
  - rewrite length_app, length_map, Hp, <- IH. reflexivity.
Qed.

Lemma nonpositive_cap_is_one_witness :
  buildGhostPayloads nfc_sample 2 (ChatNumber 1) [7; 8]
    (classicTemplate [65%N] [66%N]) (withMaxPerMessage defaultOptions (Int (-3)))
  = buildGhostPayloads nfc_sample 2 (ChatNumber 1) [7; 8]
      (classicTemplate [65%N] [66%N]) (withMaxPerMessage defaultOptions (Int 1)).
Proof.
  apply (@nonpositive_cap_is_one nfc_sample (ChatNumber 1) [7; 8]
           (classicTemplate [65%N] [66%N]) defaultOptions (Int (-3))).
  reflexivity.
Defined.

(** ** Mixed templates *)

Lemma mixed_template_accepted :
  buildGhostPayloads nfc_sample 1 (ChatNumber 1) [7] mixedTemplate defaultOptions
  = Some (Ok [{| chat_id := ChatNumber 1; text := [65; 8203]%N;
                 entities := [{| offset := 1; length_ := 1; user := 7 |}] |}])
  /\ ~ MixedTemplateRejected nfc_sample (ChatNumber 1) [7] mixedTemplate
         defaultOptions.
Proof.
  split; [reflexivity|]. intro H.
  destruct H as [e He]; try discriminate.
  specialize (He 1%nat (Nat.le_refl _)). discriminate.
Qed.

Lemma buildInvisibleText_withoutMessage toNFC count t inv :
  buildInvisibleText toNFC count (withChar (withoutMessage t) inv)
  = buildInvisibleText toNFC count (withChar t inv).
Proof. reflexivity. Qed.

Lemma classicWhile_withoutMessage toNFC chatId t maxText overflow inv capacity :
  forall fuel remaining payloads,
  classicWhile toNFC chatId (withoutMessage t) maxText overflow fuel inv
    capacity remaining payloads
  = classicWhile toNFC chatId t maxText overflow fuel inv capacity remaining
      payloads.
Proof.
  induction fuel as [|fuel IH]; intros remaining payloads;
    rewrite !classicWhile_unfold; [reflexivity|].
  destruct (len remaining >? 0); [|reflexivity]. cbv zeta.
  rewrite buildInvisibleText_withoutMessage.
  destruct (buildInvisibleText _ _ _) as [built|]; [|reflexivity].
  destruct (num_gt _ maxText); [reflexivity|].
  destruct (buildEntities _ _); [|reflexivity].
  destruct (isError overflow && _); [reflexivity|]. apply IH.
Qed.

Lemma classicFor_withoutMessage toNFC chatId t maxText overflow inv capacity fuel :
  forall chunks payloads,
  classicFor toNFC chatId (withoutMessage t) maxText overflow fuel inv
    capacity chunks payloads
  = classicFor toNFC chatId t maxText overflow fuel inv capacity chunks
      payloads.
Proof.
  induction chunks as [|chunk rest IH]; intro payloads;
    cbn [classicFor]; [reflexivity|].
  destruct (isError overflow && _); [reflexivity|].
  rewrite classicWhile_withoutMessage.
  destruct (classicWhile _ _ _ _ _ _ _ _ _ _) as [[mid|]|];
    [apply IH|reflexivity|reflexivity].
Qed.

(** C1, as the code has it.  A template that sets [before] or [after]
    together with [message] is not rejected: the call takes classic mode
    and never reads [message], so it returns what it returns for the same
    template without [message]. *)
Theorem mixed_template_is_classic toNFC fuel chatId userIds t opts :
  before t <> None \/ after t <> None ->
  smartMode t = None /\
  buildGhostPayloads toNFC fuel chatId userIds t opts
  = buildGhostPayloads toNFC fuel chatId userIds (withoutMessage t) opts.
Proof.
  intro Hfixed.
  assert (Hmode : smartMode t = None).
  { unfold smartMode. destruct (message t) as [[|c m]|]; try reflexivity.
    destruct (before t); [reflexivity|]. destruct (after t); [reflexivity|].
    destruct Hfixed; congruence. }
  assert (Hmode' : smartMode (withoutMessage t) = None) by reflexivity.
  split; [exact Hmode|].
  unfold buildGhostPayloads. rewrite Hmode, Hmode'.
  destruct (len userIds =? 0); [reflexivity|].
  destruct (chunkUserIds _ _ _) as [chunks|]; [|reflexivity].
  simpl before. simpl after. simpl char. simpl charCandidates.
  destruct (assertNoExistingInv _ _ ;;; assertNoExistingInv _ _);
    [|reflexivity].
  destruct (num_le _ _); [reflexivity|].
  symmetry. apply classicFor_withoutMessage.
Qed.

Lemma mixed_template_is_classic_witness :
  buildGhostPayloads nfc_sample 1 (ChatNumber 1) [7] mixedTemplate defaultOptions
  = buildGhostPayloads nfc_sample 1 (ChatNumber 1) [7]
      (withoutMessage mixedTemplate) defaultOptions.
Proof.
  apply (@mixed_template_is_classic nfc_sample 1%nat (ChatNumber 1) [7]
           mixedTemplate defaultOptions).
  left. discriminate.
Defined.

(** ** The anchor resolver *)

(** C3 on the code: [findAnchorIndex("a.b", { replaceTargets: ["!"],
    replacePosition: "end", punctuationRegex: /[.!?…]/,
    fallbackPosition: "start" })], which is what [buildGhostPayloads]
    calls for the template [{ message: "a.b", replaceTargets: ["!"],
    fallbackPosition: "start" }].  No character of the message is a
    target, so the specification, like the comments of
    [fallbackPosition] and [punctuationRegex] in [GhostTemplate], asks
    for the fallback, index 0.  The code runs the punctuation scan first
    and answers 2, after the full stop: the marker lands inside the
    message. *)
Theorem anchor_falls_to_punctuation :
  findAnchorIndex dottedMessage bangOpts = 2 /\
  ~ AnchorByTargetsOnly dottedMessage bangOpts /\
  buildGhostPayloads nfc_sample 1 (ChatNumber 1) [7] bangTemplate
    defaultOptions
  = Some (Ok [{| chat_id := ChatNumber 1; text := [97; 46; 8203; 98]%N;
                 entities := [{| offset := 2; length_ := 1; user := 7 |}] |}]).
Proof.
  split; [reflexivity|]. split; [|reflexivity]. intro H.
  destruct (H [[33%N]] eq_refl eq_refl) as [_ Hnone]; [discriminate|].
  assert (Hno : noneIn (setHas [[33%N]]) dottedMessage).
  { intros c Hc. simpl in Hc.
    destruct Hc as [<-|[<-|[<-|[]]]]; reflexivity. }
  specialize (Hnone Hno). discriminate.
Qed.

Lemma scanBack_found (p : code_unit -> bool) (src : jsstring) (i : nat) :
  forall n, (i < n)%nat ->
  p (nth i src 0%N) = true ->
  (forall j, (i < j < n)%nat -> p (nth j src 0%N) = false) ->
  scanBack p src n = Some (Z.of_nat i).
Proof.
  induction n as [|n IH]; intros Hi Hp Hafter; [lia|]. simpl.
  destruct (Nat.eq_dec i n) as [->|Hne].
  - now rewrite Hp.
  - rewrite (Hafter n) by lia. apply IH; [lia|assumption|].
    intros j Hj. apply Hafter. lia.
Qed.

Lemma scanBack_none (p : code_unit -> bool) (src : jsstring) :
  forall n, (forall j, (j < n)%nat -> p (nth j src 0%N) = false) ->
  scanBack p src n = None.
Proof.
  induction n as [|n IH]; intro H; simpl; [reflexivity|].
  rewrite (H n) by lia. apply IH. intros j Hj. apply H. lia.
Qed.

Lemma scanBack_lastIndexIn (p : code_unit -> bool) (src : jsstring) (i : nat) :
  lastIndexIn p src i -> scanBack p src (length src) = Some (Z.of_nat i).
Proof.
  intros [(c & Hc & Hp) Hlast].
  assert (Hi : (i < length src)%nat) by (apply nth_error_Some; congruence).
  apply scanBack_found; [exact Hi| |].
  - now rewrite (nth_error_nth _ _ _ Hc).
  - intros j Hj. apply (Hlast j); [lia|]. apply nth_error_nth'. lia.
Qed.

Lemma scanBack_noneIn (p : code_unit -> bool) (src : jsstring) :
  noneIn p src -> scanBack p src (length src) = None.
Proof.
  intro H. apply scanBack_none. intros j Hj. apply H. now apply nth_In.
Qed.

(** The resolver with [replacePosition] not a number and [replaceTargets]
    not empty, as it is written: the largest index [i] whose code unit is
    a target gives [i + 1] ([i] for the placement ["start"]); without a
    target in the message the punctuation pattern is scanned the same
    way; without a match of either the answer is the fallback. *)
Lemma findAnchorIndex_by_targets (src : jsstring) (opts : AnchorOpts)
    (targets : list jsstring) :
  isNumber (ao_replacePosition opts) = false ->
  ao_replaceTargets opts = Some targets -> targets <> [] ->
  (forall i, lastIndexIn (setHas targets) src i ->
     findAnchorIndex src opts = placeAt (ao_replacePosition opts) (Z.of_nat i))
  /\ (noneIn (setHas targets) src ->
      forall re i, ao_punctuationRegex opts = Some re ->
      lastIndexIn (test re) src i ->
      findAnchorIndex src opts = placeAt (ao_replacePosition opts) (Z.of_nat i))
  /\ (noneIn (setHas targets) src ->
      (forall re, ao_punctuationRegex opts = Some re -> noneIn (test re) src) ->
      findAnchorIndex src opts = fallbackIndex src (ao_fallbackPosition opts)).
Proof.
  intros Hnum Ht Hne.
  assert (Hdef : findAnchorIndex src opts =
    match scanBack (setHas targets) src (length src) with
    | Some i => placeAt (ao_replacePosition opts) i
    | None =>
        match match ao_punctuationRegex opts with
              | Some r => scanBack (test r) src (length src)
              | None => None
              end with
        | Some i => placeAt (ao_replacePosition opts) i
        | None => fallbackIndex src (ao_fallbackPosition opts)
        end
    end).
  { unfold findAnchorIndex. rewrite Ht.
    destruct targets as [|t0 ts]; [congruence|].
    destruct (ao_replacePosition opts) as [[| |q|]|]; try discriminate;
      reflexivity. }
  rewrite Hdef. repeat split.
  - intros i Hi. now rewrite (scanBack_lastIndexIn Hi).
  - intros Hnone re i Hre Hi.
    rewrite (scanBack_noneIn Hnone), Hre. now rewrite (scanBack_lastIndexIn Hi).
  - intros Hnone Hre. rewrite (scanBack_noneIn Hnone).
    destruct (ao_punctuationRegex opts) as [re|]; [|reflexivity].
    now rewrite (scanBack_noneIn (Hre re eq_refl)).
Qed.

Lemma findAnchorIndex_by_targets_witness :
  findAnchorIndex [72; 105; 33; 63]%N
    {| ao_replaceTargets := Some [[33%N]]; ao_replacePosition := Some RPstart;
       ao_punctuationRegex := Some DEFAULT_PUNCT_RE;
       ao_fallbackPosition := PosEnd |} = 2.
Proof.
  refine (proj1 (@findAnchorIndex_by_targets [72; 105; 33; 63]%N
            {| ao_replaceTargets := Some [[33%N]];
               ao_replacePosition := Some RPstart;
               ao_punctuationRegex := Some DEFAULT_PUNCT_RE;
               ao_fallbackPosition := PosEnd |}
            [[33%N]] eq_refl eq_refl _) 2%nat _).
  - discriminate.
  - split.
    + exists 33%N. split; reflexivity.
    + intros j c Hj Hc. destruct j as [|[|[|[|j]]]]; try lia.
      * simpl in Hc. injection Hc as <-. reflexivity.
      * simpl in Hc. destruct j; discriminate.
Defined.

(** ** Fixed-affix texts and offsets *)

Lemma offsets_follow_normalised_prefix :
  buildInvisibleText nfc_sample (Int 1) decomposedTemplate
  = Ok {| it_text := [233; 8203]%N; it_offsets := [1];
          it_invChar := [8203%N] |}
  /\ ~ OffsetsOnRawPrefix nfc_sample 1 decomposedTemplate.
Proof.
  split; [reflexivity|]. intro H.
  destruct (H ltac:(lia) _ eq_refl) as [Htext _]. discriminate.
Qed.

Lemma buildEntities_Ok (offsets : list Z) (userIds : list UserId)
    (es : list MessageEntity) :
  buildEntities offsets userIds = Ok es ->
  length offsets = length userIds /\
  forall i e, nth_error es i = Some e ->
    (i < length userIds)%nat /\ offset e = nth i offsets 0 /\
    length_ e = 1 /\ nth_error userIds i = Some (user e).
Proof.
  unfold buildEntities.
  destruct (Z.eqb_spec (len offsets) (len userIds)) as [Hl|]; [|discriminate].
  simpl. intro H. injection H as <-. split; [unfold len in Hl; lia|].
  intros i e. rewrite nth_error_mapi_from.
  destruct (nth_error userIds i) as [id|] eqn:Hid; [|discriminate].
  simpl. intro H. injection H as <-. simpl. repeat split.
  apply nth_error_Some. congruence.
Qed.

(** C6, as the code has it.  Let [P] and [S] be the prefix and suffix after
    NFC normalisation.  For a count [n >= 1], whenever [buildInvisibleText]
    returns, its text is [P], the marker [n] times, then [S]; it has [n]
    offsets, offset [i] being [P.length + i]; and every entity built from
    them has that offset and length 1.  The payloads [buildGhostPayloads]
    returns in classic mode have the same layout.  For a prefix "A" and
    suffix "B" that normalisation leaves alone, 3 recipients give a text
    of length 5 and the offsets 1, 2, 3. *)
Theorem fixed_affix_offsets :
  (forall toNFC n t r,
     1 <= n ->
     buildInvisibleText toNFC (Int n) t = Ok r ->
     let pre := toNFC (before t ?? []) in
     let suf := toNFC (after t ?? []) in
     it_text r = pre ++ str_repeat (it_invChar r) (Z.to_nat n) ++ suf /\
     length (it_offsets r) = Z.to_nat n /\
     (forall i, (i < Z.to_nat n)%nat ->
        nth i (it_offsets r) 0 = len pre + Z.of_nat i) /\
     (forall ids es, buildEntities (it_offsets r) ids = Ok es ->
        forall i e, nth_error es i = Some e ->
          offset e = len pre + Z.of_nat i /\ length_ e = 1))
  /\ (forall toNFC fuel chatId userIds t opts ps,
        smartMode t = None ->
        buildGhostPayloads toNFC fuel chatId userIds t opts = Some (Ok ps) ->
        let pre := toNFC (before t ?? []) in
        let suf := toNFC (after t ?? []) in
        Forall (fun p =>
          text p = pre ++ str_repeat (classicMarker t) (length (entities p))
                       ++ suf /\
          forall i e, nth_error (entities p) i = Some e ->
            offset e = len pre + Z.of_nat i /\ length_ e = 1) ps)
  /\ (forall toNFC, toNFC [65%N] = [65%N] -> toNFC [66%N] = [66%N] ->
        exists r, buildInvisibleText toNFC (Int 3)
                    (classicTemplate [65%N] [66%N])
                  = Ok r /\
                  len (it_text r) = 5 /\ it_offsets r = [1; 2; 3]).
Proof.
  split; [|split].
  - intros toNFC n t r Hn H pre suf.
    apply buildInvisibleText_inv in H. cbv zeta in H.
    destruct H as (_ & _ & Hinv & Hshape & _).
    destruct Hshape as [Htext Hoff]; [lia|]. fold pre suf in Htext, Hoff.
    rewrite Hinv, Hoff. split; [exact Htext|].
    split; [apply length_arrayFrom|].
    split; [intros i Hi; now apply nth_arrayFrom|].
    intros ids es Hes i e He. apply buildEntities_Ok in Hes.
    destruct Hes as [Hlen Hes].
    destruct (Hes _ _ He) as (Hi & -> & Hone & _). split; [|exact Hone].
    apply nth_arrayFrom. rewrite length_arrayFrom in Hlen. lia.
  - intros toNFC fuel chatId userIds t opts ps Hmode H pre suf.
    eapply buildGhostPayloads_classic_layout in H; [|exact Hmode].
    eapply Forall_impl; [|exact H]. simpl.
    intros p [(part & _ & _ & _ & Htext & Hents) _].
    rewrite Hents, length_mentions. split; [exact Htext|].
    intros i e He. rewrite nth_error_mentions in He.
    destruct (nth_error part i); [|discriminate].
    injection He as <-. split; reflexivity.
  - intros toNFC HA HB. unfold buildInvisibleText. simpl.
    rewrite HA, HB. eexists. split; [reflexivity|]. split; reflexivity.
Qed.

Lemma fixed_affix_offsets_witness :
  it_text {| it_text := [233; 8203; 8203]%N; it_offsets := [1; 2];
             it_invChar := [8203%N] |}
  = nfc_sample [101; 769]%N ++ str_repeat [8203%N] 2 ++ nfc_sample [].
Proof.
  refine (proj1 (proj1 fixed_affix_offsets nfc_sample 2 decomposedTemplate
                   _ _ _)).
  - lia.
  - reflexivity.
Defined.

(** ** Marker selection and marker collisions *)

(** When every one-code-unit candidate occurs in a text to avoid, the loop
    of [pickInvChar] returns nothing and the answer is [candidates[0]],
    whatever its length. *)
Lemma pickInvChar_exhausted (candidates : list jsstring)
    (avoidIn : list (option jsstring)) :
  (forall c, In c candidates -> len c = 1 -> someIncludes avoidIn c = true) ->
  pickInvChar candidates avoidIn = nth_error candidates 0 ?? [8203%N].
Proof.
  intro Hall. unfold pickInvChar.
  replace (pickInvChar_loop candidates avoidIn) with (@None jsstring);
    [reflexivity|].
  symmetry. induction candidates as [|c rest IH]; simpl; [reflexivity|].
  destruct (Z.eqb_spec (len c) 1) as [Hone|Hmany]; simpl.
  - rewrite (Hall c) by (simpl; auto). simpl.
    apply IH. intros d Hd. apply Hall. now right.
  - apply IH. intros d Hd. apply Hall. now right.
Qed.

(** C7 on the code: [pickInvChar(["ab", "c"], "c")].  The only
    one-code-unit candidate, "c", occurs in the text to avoid; the call
    returns "ab", two code units long, not "c".  The first revision of the
    function returns "ab" as well. *)
Theorem pickInvChar_returns_first_candidate :
  let candidates := [[97; 98]; [99]]%N in
  let avoidIn := [Some [99%N]] in
  (forall c, In c candidates -> len c = 1 -> someIncludes avoidIn c = true) /\
  find (fun c => len c =? 1) candidates = Some [99%N] /\
  pickInvChar candidates avoidIn = [97; 98]%N /\
  Legacy.pickInvChar candidates avoidIn = Some [97; 98]%N.
Proof.
  cbv zeta. repeat split.
  intros c [<-|[<-|[]]] Hc; [discriminate|reflexivity].
Qed.

(** Classic mode: a returned payload was built with a marker that occurs
    neither in the normalised prefix nor in the normalised suffix. *)
Lemma classic_marker_absent toNFC fuel chatId userIds t opts ps :
  smartMode t = None -> ps <> [] ->
  buildGhostPayloads toNFC fuel chatId userIds t opts = Some (Ok ps) ->
  includes (toNFC (before t ?? [])) (classicMarker t) = false /\
  includes (toNFC (after t ?? [])) (classicMarker t) = false.
Proof.
  intros Hmode Hne H.
  eapply buildGhostPayloads_classic_layout in H; [|exact Hmode].
  destruct ps as [|p ps]; [congruence|].
  apply Forall_inv in H.
  destruct H as [(part & _ & H1 & H2 & _) _]. now split.
Qed.

(** C2 on the code: smart mode with [{ message: "Hi\u200B", char: "\u200B" }]
    and one recipient.  The forced marker occurs in the message; the call
    returns a payload whose text holds the marker twice.  Without a forced
    marker, a message that holds all five default candidates gets the
    first of them as its marker. *)
Theorem smart_mode_keeps_colliding_marker :
  let msg := [72; 105; 8203]%N in
  let inv := [8203%N] in
  includes msg inv = true /\
  buildGhostPayloads nfc_sample 1 (ChatNumber 1) [7]
    (smartTemplate msg (Some inv)) defaultOptions
  = Some (Ok [{| chat_id := ChatNumber 1; text := [72; 105; 8203; 8203]%N;
                 entities := [{| offset := 3; length_ := 1; user := 7 |}] |}])
  /\ buildGhostPayloads nfc_sample 1 (ChatNumber 1) [7]
       (smartTemplate [8203; 8291; 8288; 8204; 8205]%N None) defaultOptions
     = Some (Ok [{| chat_id := ChatNumber 1;
                    text := [8203; 8291; 8288; 8204; 8205; 8203]%N;
                    entities := [{| offset := 5; length_ := 1; user := 7 |}] |}]).
Proof. cbv zeta. repeat split. Qed.

(** ** Offsets inside the text *)

Lemma len_str_repeat_ge (inv : jsstring) (n : nat) :
  inv <> [] -> Z.of_nat n <= len (str_repeat inv n).
Proof.
  intro Hne. rewrite len_str_repeat.
  assert (1 <= len inv).
  { destruct inv; [congruence|]. unfold len. simpl length. lia. }
  nia.
Qed.

(** Classic mode keeps every mention inside the text. *)
Lemma classic_mentions_in_text toNFC fuel chatId userIds t opts ps :
  smartMode t = None ->
  buildGhostPayloads toNFC fuel chatId userIds t opts = Some (Ok ps) ->
  Forall MentionsInText ps.
Proof.
  intros Hmode H.
  eapply buildGhostPayloads_classic_layout in H; [|exact Hmode].
  eapply Forall_impl; [|exact H]. simpl.
  intros p [(part & _ & Hfree & _ & Htext & Hents) _] e He.
  rewrite Hents in He. apply In_mentions in He.
  destruct He as (i & Hi & _ & -> & ->).
  rewrite Htext, !len_app.
  assert (Hinv : classicMarker t <> []).
  { intro E. rewrite E, includes_nil in Hfree. discriminate. }
  pose proof (len_str_repeat_ge (length part) Hinv).
  pose proof (len_nonneg (toNFC (after t ?? []))). lia.
Qed.

(** Smart mode keeps every mention inside the text when the marker is not
    the empty string. *)
Lemma smart_mentions_in_text toNFC fuel chatId userIds t opts msg ps :
  smartMode t = Some msg -> smartMarker t msg <> [] ->
  buildGhostPayloads toNFC fuel chatId userIds t opts = Some (Ok ps) ->
  Forall MentionsInText ps.
Proof.
  intros Hmode Hinv H.
  eapply buildGhostPayloads_smart_layout in H; [|exact Hmode].
  eapply Forall_impl; [|exact H]. simpl.
  intros p [(batch & _ & Htext & Hents) _] e He.
  rewrite Hents in He. apply In_mentions in He.
  destruct He as (i & Hi & _ & -> & ->).
  rewrite Htext. unfold buildSmartBaseText. simpl sb_text. simpl sb_insertAt.
  pose proof (len_str_repeat_ge (Z.to_nat (len batch)) Hinv) as Hrep.
  unfold len in *. rewrite !length_app.
  destruct (truthy (separateLineForMentions t)),
           (truthy (trailingNewline t)); simpl length; lia.
Qed.

(** C8 on the code: smart mode with [{ message: "a", char: "" }] and one
    recipient.  The call returns the text "a", one code unit long, with a
    mention at offset 1 of length 1, which ends after the text. *)
Theorem smart_mode_empty_marker_overruns :
  buildGhostPayloads nfc_sample 1 (ChatNumber 1) [7]
    (smartTemplate [97%N] (Some [])) defaultOptions
  = Some (Ok [{| chat_id := ChatNumber 1; text := [97%N];
                 entities := [{| offset := 1; length_ := 1; user := 7 |}] |}])
  /\ ~ MentionsInText
         {| chat_id := ChatNumber 1; text := [97%N];
            entities := [{| offset := 1; length_ := 1; user := 7 |}] |}.
Proof.
  split; [reflexivity|]. intro H.
  specialize (H _ (or_introl eq_refl)). simpl in H. unfold len in H.
  simpl in H. lia.
Qed.

(** * Further properties of the code *)

(** ** Marker selection *)

Lemma pickInvChar_loop_Some (candidates : list jsstring)
    (avoidIn : list (option jsstring)) (c : jsstring) :
  pickInvChar_loop candidates avoidIn = Some c ->
  len c = 1 /\ someIncludes avoidIn c = false /\
  exists skipped rest,
    candidates = skipped ++ c :: rest /\
    Forall (fun d => len d <> 1 \/ someIncludes avoidIn d = true) skipped.
Proof.
  induction candidates as [|d cs IH]; simpl; [discriminate|].
  destruct (Z.eqb_spec (len d) 1) as [Hone|Hmany]; simpl.
  - destruct (someIncludes avoidIn d) eqn:Hd; simpl.
    + intro H. destruct (IH H) as (Hl & Ha & skipped & rest & -> & Hsk).
      repeat split; try assumption.
      exists (d :: skipped), rest. split; [reflexivity|].
      constructor; [now right|assumption].
    + intro H. injection H as <-. repeat split; try assumption.
      exists [], cs. split; [reflexivity|constructor].
  - intro H. destruct (IH H) as (Hl & Ha & skipped & rest & -> & Hsk).
    repeat split; try assumption.
    exists (d :: skipped), rest. split; [reflexivity|].
    constructor; [now left|assumption].
Qed.

Lemma pickInvChar_loop_None (candidates : list jsstring)
    (avoidIn : list (option jsstring)) :
  pickInvChar_loop candidates avoidIn = None ->
  forall d, In d candidates -> len d = 1 -> someIncludes avoidIn d = true.
Proof.
  induction candidates as [|c cs IH]; simpl; [contradiction|].
  destruct (Z.eqb_spec (len c) 1) as [Hone|Hmany]; simpl.
  - destruct (someIncludes avoidIn c) eqn:Hc; simpl; [|discriminate].
    intros H d [<-|Hd] Hl; [assumption|now apply IH].
  - intros H d [<-|Hd] Hl; [contradiction|now apply IH].
Qed.

Lemma someIncludes_false (avoidIn : list (option jsstring)) (c s : jsstring) :
  someIncludes avoidIn c = false -> In (Some s) avoidIn -> includes s c = false.
Proof.
  unfold someIncludes. intros H Hin.
  destruct (includes s c) eqn:Hs; [|reflexivity].
  assert (existsb (fun s0 => match s0 with
                             | Some s' => includes s' c
                             | None => false
                             end) avoidIn = true).
  { apply existsb_exists. exists (Some s). now split. }
  congruence.
Qed.

(** X1. When some candidate of exactly one code unit occurs in none of the
    texts to avoid, [pickInvChar] returns the first such candidate: it is
    one code unit long, it occurs in no text to avoid, and every candidate
    before it is either not one code unit long or occurs in one of the
    texts. *)
Theorem pickInvChar_first_survivor (candidates : list jsstring)
    (avoidIn : list (option jsstring)) (d : jsstring) :
  In d candidates -> len d = 1 -> someIncludes avoidIn d = false ->
  let c := pickInvChar candidates avoidIn in
  len c = 1 /\
  (forall s, In (Some s) avoidIn -> includes s c = false) /\
  exists skipped rest,
    candidates = skipped ++ c :: rest /\
    Forall (fun d => len d <> 1 \/ someIncludes avoidIn d = true) skipped.
Proof.
  intros Hin Hl Hfree c. unfold c, pickInvChar.
  destruct (pickInvChar_loop candidates avoidIn) as [c'|] eqn:Hloop.
  - destruct (pickInvChar_loop_Some _ _ Hloop) as (Hl' & Hfree' & Hfirst).
    split; [exact Hl'|]. split; [|exact Hfirst].
    intros s Hs. now apply (someIncludes_false avoidIn).
  - pose proof (pickInvChar_loop_None _ _ Hloop d Hin Hl). congruence.
Qed.

Lemma pickInvChar_first_survivor_witness :
  len (pickInvChar [[97; 98]; [65]; [66]]%N [Some [65%N]; None]) = 1.
Proof.
  refine (proj1 (@pickInvChar_first_survivor [[97; 98]; [65]; [66]]%N
                   [Some [65%N]; None] [66%N] _ _ _)).
  - simpl. auto.
  - reflexivity.
  - reflexivity.
Defined.

(** X2. On a non-empty candidate list whose candidates are all one code
    unit long, the first revision of [pickInvChar] ([src/index.ts]) and the
    current one return the same marker. *)
Theorem pickInvChar_agrees_with_first_revision (candidates : list jsstring)
    (avoidIn : list (option jsstring)) :
  candidates <> [] -> Forall (fun c => len c = 1) candidates ->
  Legacy.pickInvChar candidates avoidIn = Some (pickInvChar candidates avoidIn).
Proof.
  intros Hne Hall. unfold Legacy.pickInvChar, pickInvChar.
  assert (Hloop : Legacy.pickInvChar_loop candidates avoidIn
                  = pickInvChar_loop candidates avoidIn).
  { clear Hne. induction Hall as [|c cs Hc _ IH]; simpl; [reflexivity|].
    rewrite Hc. simpl. rewrite IH. reflexivity. }
  rewrite Hloop. destruct (pickInvChar_loop candidates avoidIn); [reflexivity|].
  destruct candidates; [congruence|reflexivity].
Qed.

Lemma pickInvChar_agrees_with_first_revision_witness :
  Legacy.pickInvChar DEFAULT_INV_CANDIDATES [Some [72; 8203; 8291]%N]
  = Some (pickInvChar DEFAULT_INV_CANDIDATES [Some [72; 8203; 8291]%N]).
Proof.
  apply pickInvChar_agrees_with_first_revision.
  - discriminate.
  - repeat constructor.
Defined.

(** X3. [buildInvisibleText] throws the marker error exactly when the
    marker occurs in the normalised prefix or suffix, whatever the count,
    be it [NaN] or infinite: the two checks come before the count is
    read.  The error is a [TypeError] for an empty marker, which occurs in
    every string, and the template error otherwise.  The only other error
    is a [RangeError], and only for a count above 0.  Without a collision
    a count that is [NaN] or not above 0 gives the prefix and the suffix
    alone, with no offset. *)
Theorem buildInvisibleText_fails_on_collision toNFC (count : number)
    (t : GhostTemplate) :
  let inv := classicMarker t in
  let pre := toNFC (before t ?? []) in
  let suf := toNFC (after t ?? []) in
  (includes pre inv = true \/ includes suf inv = true <->
   buildInvisibleText toNFC count t = Throw (markerError inv)) /\
  (inv = [] -> buildInvisibleText toNFC count t = Throw TypeError) /\
  (forall e, buildInvisibleText toNFC count t = Throw e ->
     e = markerError inv \/
     (e = RangeError /\ num_gt count (Int 0) = true)) /\
  (includes pre inv = false -> includes suf inv = false ->
   num_le count (Int 0) = true \/ count = NaN ->
   buildInvisibleText toNFC count t
   = Ok {| it_text := pre ++ suf; it_offsets := []; it_invChar := inv |}).
Proof.
  intros inv pre suf.
  assert (Hval :
    ((includes pre inv = true \/ includes suf inv = true) /\
     buildInvisibleText toNFC count t = Throw (markerError inv)) \/
    (includes pre inv = false /\ includes suf inv = false /\ inv <> [] /\
     buildInvisibleText toNFC count t
     = if num_le count (Int 0) then
         Ok {| it_text := pre ++ suf; it_offsets := []; it_invChar := inv |}
       else
         run <- repeat_num inv count ;;
         offsets <- arrayFrom_num count (len pre) ;;
         Ok {| it_text := pre ++ run ++ suf; it_offsets := offsets;
               it_invChar := inv |})).
  { unfold buildInvisibleText. fold (classicMarker t). cbv zeta.
    fold inv pre suf. unfold assertNoExistingInv, markerError.
    destruct (includes pre inv) eqn:Hp.
    - left. split; [now left|]. destruct inv; reflexivity.
    - assert (Hne : inv <> []).
      { intro E. rewrite E, includes_nil in Hp. discriminate. }
      cbn [bind]. destruct (includes suf inv) eqn:Hs.
      + left. split; [now right|]. destruct inv; reflexivity.
      + right. repeat split; assumption. }
  assert (Hmark : markerError inv <> RangeError).
  { unfold markerError. destruct inv; discriminate. }
  split; [|split; [|split]].
  - split.
    + intros Hc. destruct Hval as [[_ Hv]|(Hp & Hs & _)]; [exact Hv|].
      destruct Hc; congruence.
    + intro Hthrow. destruct Hval as [[Hc _]|(_ & _ & Hne & Hv)]; [exact Hc|].
      exfalso. rewrite Hv in Hthrow.
      destruct (num_le count (Int 0)); [discriminate|].
      destruct (repeat_num inv count) as [run|e1] eqn:Hr; cbn [bind] in Hthrow.
      * destruct (arrayFrom_num count (len pre)) as [offs|e2] eqn:Ha;
          cbn [bind] in Hthrow; [discriminate|].
        unfold arrayFrom_num in Ha. destruct (_ >? _); [|discriminate].
        injection Ha as <-. injection Hthrow as Hthrow.
        congruence.
      * unfold repeat_num in Hr.
        assert (e1 = RangeError) as ->.
        { destruct count as [| | |q]; try discriminate; try congruence.
          destruct (trunc q <? 0); [congruence|discriminate]. }
        injection Hthrow as Hthrow.
        congruence.
  - intro E. destruct Hval as [[_ Hv]|(_ & _ & Hne & _)]; [|contradiction].
    rewrite Hv, E. reflexivity.
  - intros e He. destruct Hval as [[_ Hv]|(_ & _ & _ & Hv)].
    + left. congruence.
    + right. rewrite Hv in He.
      destruct (num_le count (Int 0)) eqn:Hle; [discriminate|].
      assert (Hrange : e = RangeError).
      { destruct (repeat_num inv count) as [run|e1] eqn:Hr; cbn [bind] in He.
        - destruct (arrayFrom_num count (len pre)) as [offs|e2] eqn:Ha;
            cbn [bind] in He; [discriminate|].
          unfold arrayFrom_num in Ha. destruct (_ >? _); [|discriminate].
          congruence.
        - unfold repeat_num in Hr.
          destruct count as [| | |q]; try discriminate; try congruence.
          destruct (trunc q <? 0); [congruence|discriminate]. }
      split; [exact Hrange|]. subst e.
      unfold num_le in Hle. unfold num_gt.
      destruct count as [| | |q]; cbn [num_compare Int] in *;
        try discriminate; try reflexivity.
      destruct (q ?= inject_Z 0)%Q; try discriminate. reflexivity.
  - intros Hp Hs Hc. destruct Hval as [[[H|H] _]|(_ & _ & _ & Hv)];
      [congruence|congruence|].
    rewrite Hv. destruct Hc as [->| ->]; reflexivity.
Qed.

Lemma buildInvisibleText_fails_on_collision_witness :
  buildInvisibleText nfc_sample PosInfinity (forcedCharTemplate [65%N] [])
  = Throw TypeError /\
  buildInvisibleText nfc_sample NaN (classicTemplate [65%N] [66%N])
  = Ok {| it_text := [65; 66]%N; it_offsets := [];
          it_invChar := [8203%N] |}.
Proof.
  split.
  - apply (proj1 (proj2 (buildInvisibleText_fails_on_collision nfc_sample
                           PosInfinity (forcedCharTemplate [65%N] [])))).
    reflexivity.
  - apply (proj2 (proj2 (proj2 (buildInvisibleText_fails_on_collision
                                  nfc_sample NaN
                                  (classicTemplate [65%N] [66%N]))))).
    + reflexivity.
    + reflexivity.
    + right. reflexivity.
Defined.

(** ** Entities *)

Lemma offsets_mapi_from {A} (pre offsets : list Z) (ids : list A) :
  length offsets = length ids ->
  mapi_from (fun (_ : A) i => nth i (pre ++ offsets) 0) (length pre) ids
  = offsets.
Proof.
  revert pre ids. induction offsets as [|o offsets IH]; intros pre ids Hlen;
    destruct ids as [|id ids]; try discriminate; simpl; [reflexivity|].
  f_equal.
  - rewrite app_nth2 by lia. now rewrite Nat.sub_diag.
  - specialize (IH (pre ++ [o]) ids). rewrite <- app_assoc in IH. simpl in IH.
    rewrite length_app in IH. simpl in IH. rewrite Nat.add_1_r in IH.
    apply IH. simpl in Hlen. lia.
Qed.

(** X4. [buildEntities] throws exactly when the two arrays differ in
    length.  Otherwise it returns one entity per recipient, in order:
    entity [i] has the offset [offsets[i]], the length 1 and the user
    [userIds[i]]. *)
Theorem buildEntities_zips (offsets : list Z) (userIds : list UserId) :
  (length offsets <> length userIds ->
   buildEntities offsets userIds
   = Throw (OffsetsLengthMismatch (len offsets) (len userIds))) /\
  (length offsets = length userIds ->
   exists es, buildEntities offsets userIds = Ok es /\
              map offset es = offsets /\ map user es = userIds /\
              Forall (fun e => length_ e = 1) es).
Proof.
  unfold buildEntities. split; intro Hlen.
  - destruct (Z.eqb_spec (len offsets) (len userIds)) as [E|_];
      [unfold len in E; lia|reflexivity].
  - destruct (Z.eqb_spec (len offsets) (len userIds)) as [_|N];
      [|unfold len in N; lia].
    simpl. eexists. split; [reflexivity|]. repeat split.
    + rewrite map_mapi_from. simpl. apply (@offsets_mapi_from _ [] offsets userIds Hlen).
    + rewrite map_mapi_from. simpl. apply mapi_from_const.
    + apply Forall_forall. intros e He. apply In_nth_error in He.
      destruct He as [i Hi]. rewrite nth_error_mapi_from in Hi.
      destruct (nth_error userIds i); [|discriminate].
      injection Hi as <-. reflexivity.
Qed.

Lemma buildEntities_zips_witness :
  buildEntities [4; 5] [7]
  = Throw (OffsetsLengthMismatch (len [4; 5]) (len [7])).
Proof.
  apply (proj1 (buildEntities_zips [4; 5] [7])). simpl. lia.
Defined.

(** ** The anchor resolver *)

Lemma scanBack_range (p : code_unit -> bool) (src : jsstring) :
  forall n i, scanBack p src n = Some i -> 0 <= i < Z.of_nat n.
Proof.
  induction n as [|n IH]; intros i; simpl; [discriminate|].
  destruct (p (nth n src 0%N)).
  - intro H. injection H as <-. lia.
  - intro H. apply IH in H. lia.
Qed.

(** X5. Whatever the message and the rules, [findAnchorIndex] returns an
    index of the message or its length: [0 <= index <= src.length]. *)
Theorem findAnchorIndex_in_message (src : jsstring) (opts : AnchorOpts) :
  0 <= findAnchorIndex src opts <= len src.
Proof.
  pose proof (len_nonneg src) as Hsrc.
  assert (Hplace : forall p i,
            scanBack p src (length src) = Some i ->
            0 <= (if isStart (ao_replacePosition opts) then i else i + 1)
              <= len src).
  { intros p i H. apply scanBack_range in H. fold (len src) in H.
    destruct (isStart _); lia. }
  unfold findAnchorIndex.
  assert (Hrest :
    0 <= match
           match ao_replaceTargets opts with
           | Some ((_ :: _) as targets) =>
               scanBack (setHas targets) src (length src)
           | _ => None
           end
         with
         | Some i => if isStart (ao_replacePosition opts) then i else i + 1
         | None =>
             match
               match ao_punctuationRegex opts with
               | Some r => scanBack (test r) src (length src)
               | None => None
               end
             with
             | Some i => if isStart (ao_replacePosition opts) then i else i + 1
             | None => match ao_fallbackPosition opts with
                       | PosStart => 0
                       | PosEnd => len src
                       end
             end
         end <= len src).
  { destruct (ao_replaceTargets opts) as [[|t0 ts]|];
      try (destruct (scanBack (setHas (t0 :: ts)) src (length src)) eqn:Ht;
           [now apply (Hplace _ _ Ht)|]);
      (destruct (ao_punctuationRegex opts) as [r|];
       [destruct (scanBack (test r) src (length src)) eqn:Hr;
        [now apply (Hplace _ _ Hr)|]|]);
      destruct (ao_fallbackPosition opts); lia. }
  destruct (ao_replacePosition opts) as [[| |q|]|]; try exact Hrest.
  unfold clamp. lia.
Qed.

(** X6. A finite numeric [replacePosition] decides alone, whatever the
    targets and the pattern: for an integer [k] inside the message the
    anchor is [k + 1], for a negative one it is 0 and for one at or past
    the end it is the length of the message; a fraction is truncated
    towards zero first. *)
Theorem findAnchorIndex_numeric (src : jsstring) (opts : AnchorOpts) (q : Q) :
  ao_replacePosition opts = Some (RPnumber q) ->
  let k := trunc q in
  (0 <= k < len src -> findAnchorIndex src opts = k + 1) /\
  (k < 0 -> findAnchorIndex src opts = 0) /\
  (len src <= k -> findAnchorIndex src opts = len src).
Proof.
  intros Hq k. unfold findAnchorIndex. rewrite Hq. fold k. unfold clamp.
  pose proof (len_nonneg src). repeat split; intros; lia.
Qed.

Lemma findAnchorIndex_numeric_witness :
  findAnchorIndex [72; 105; 33]%N
    {| ao_replaceTargets := Some [[33%N]];
       ao_replacePosition := Some (RPnumber (3 # 2));
       ao_punctuationRegex := Some DEFAULT_PUNCT_RE;
       ao_fallbackPosition := PosEnd |} = 2.
Proof.
  refine (proj1 (@findAnchorIndex_numeric [72; 105; 33]%N
                   {| ao_replaceTargets := Some [[33%N]];
                      ao_replacePosition := Some (RPnumber (3 # 2));
                      ao_punctuationRegex := Some DEFAULT_PUNCT_RE;
                      ao_fallbackPosition := PosEnd |}
                   (3 # 2) eq_refl) _).
  vm_compute. split; [discriminate|reflexivity].
Defined.

(** ** Chunking by the count cap *)

Lemma chunkUserIds_loop_chunks (userIds : list UserId) (m : Z) :
  1 <= m ->
  forall fuel i out r, 0 <= i ->
  Integral.chunkUserIds_loop fuel userIds m i out = Some r ->
  exists new,
    r = out ++ new /\
    len new = ceilDiv (Z.max 0 (len userIds - i)) m /\
    forall k c, nth_error new k = Some c ->
      c = slice userIds (i + Z.of_nat k * m) (Some (i + (Z.of_nat k + 1) * m)).
Proof.
  intros Hm fuel. induction fuel as [|fuel IH]; intros i out r Hi;
    rewrite chunkUserIds_loop_eq;
    destruct (Z.ltb_spec i (len userIds)) as [Hlt|Hge];
    intro H; try discriminate.
  - injection H as <-. exists []. rewrite app_nil_r. split; [reflexivity|].
    split.
    + unfold ceilDiv. replace (Z.max 0 (len userIds - i)) with 0 by lia.
      symmetry. apply Z.div_small. lia.
    + intros [|k] c Hc; discriminate.
  - apply IH in H; [|lia]. destruct H as (new & -> & Hcount & Hnth).
    exists (slice userIds i (Some (i + m)) :: new).
    rewrite <- app_assoc. split; [reflexivity|]. split.
    + unfold len in Hcount |- *. simpl length. rewrite Nat2Z.inj_succ, Hcount.
      fold (len userIds). unfold ceilDiv.
      replace (Z.max 0 (len userIds - i)) with (len userIds - i) by lia.
      destruct (Z_le_gt_dec (len userIds) (i + m)) as [Hlast|Hmore].
      * replace (Z.max 0 (len userIds - (i + m))) with 0 by lia.
        rewrite (Z.div_small (0 + m - 1) m) by lia.
        apply (Z.div_unique _ _ _ (len userIds - i - 1)); lia.
      * replace (Z.max 0 (len userIds - (i + m)))
          with (len userIds - (i + m)) by lia.
        replace (len userIds - i + m - 1)
          with (len userIds - (i + m) + m - 1 + 1 * m) by lia.
        rewrite Z.div_add by lia. lia.
    + intros [|k] c Hc; simpl in Hc.
      * injection Hc as <-. f_equal; [lia|f_equal; lia].
      * apply Hnth in Hc. subst c. f_equal; [lia|f_equal; lia].
  - injection H as <-. exists []. rewrite app_nil_r. split; [reflexivity|].
    split.
    + unfold ceilDiv. replace (Z.max 0 (len userIds - i)) with 0 by lia.
      symmetry. apply Z.div_small. lia.
    + intros [|k] c Hc; discriminate.
Qed.

(** X7. For an integer cap [m >= 1] and fuel for one round per recipient,
    [chunkUserIds] returns [ceil (n / m)] chunks for [n] recipients; chunk
    [k] is [userIds.slice(k * m, (k + 1) * m)], and the chunks concatenate
    to [userIds]. *)
Theorem chunkUserIds_slices (fuel : nat) (userIds : list UserId) (m : Z) :
  1 <= m -> (length userIds <= fuel)%nat ->
  exists chunks,
    chunkUserIds fuel userIds (Int m) = Some chunks /\
    len chunks = ceilDiv (len userIds) m /\
    concat chunks = userIds /\
    forall k c, nth_error chunks k = Some c ->
      c = slice userIds (Z.of_nat k * m) (Some ((Z.of_nat k + 1) * m)).
Proof.
  intros Hm Hfuel. unfold chunkUserIds. rewrite chunkUserIds_loop_integral.
  destruct (@chunkUserIds_loop_total userIds m Hm (length userIds) 0 [])
    as [chunks Hch]; [lia|unfold len; lia|].
  specialize (Hch fuel Hfuel). exists chunks. split; [exact Hch|].
  pose proof Hch as Hch'.
  apply chunkUserIds_loop_spec in Hch; [|assumption|lia].
  apply chunkUserIds_loop_chunks in Hch'; [|assumption|lia].
  destruct Hch as (new & -> & Hcat & _).
  destruct Hch' as (new' & E & Hcount & Hnth). simpl app in *. subst new'.
  pose proof (len_nonneg userIds).
  replace (Z.max 0 (len userIds - 0)) with (len userIds) in Hcount by lia.
  repeat split; assumption.
Qed.

Lemma chunkUserIds_slices_witness :
  exists chunks,
    chunkUserIds 5 [1; 2; 3; 4; 5] (Int 2) = Some chunks /\
    len chunks = ceilDiv (len [1; 2; 3; 4; 5]) 2 /\
    concat chunks = [1; 2; 3; 4; 5] /\
    forall k c, nth_error chunks k = Some c ->
      c = slice [1; 2; 3; 4; 5] (Z.of_nat k * 2) (Some ((Z.of_nat k + 1) * 2)).
Proof.
  apply (@chunkUserIds_slices 5%nat [1; 2; 3; 4; 5] 2).
  - lia.
  - simpl. lia.
Defined.

(** A number at or below 0 is [-Infinity] or a finite value at or below
    0, and stays so when another one is added. *)
Lemma num_le_zero (x : number) :
  num_le x (Int 0) = true <->
  x = NegInfinity \/ exists p, x = Finite p /\ (p <= 0)%Q.
Proof.
  unfold num_le. destruct x as [| | |p]; cbn [num_compare Int].
  - split; [discriminate|]. intros [H|(p & H & _)]; discriminate.
  - split; [now left|reflexivity].
  - split; [discriminate|]. intros [H|(p & H & _)]; discriminate.
  - split.
    + intro H. right. exists p. split; [reflexivity|].
      apply Qle_alt. change (inject_Z 0) with 0%Q in H.
      destruct (p ?= 0)%Q; discriminate.
    + intros [H|(p' & H & Hle)]; [discriminate|]. injection H as <-.
      apply Qle_alt in Hle. change (inject_Z 0) with 0%Q.
      destruct (p ?= 0)%Q eqn:E; [reflexivity|reflexivity|].
      exfalso. apply Hle. exact E.
Qed.

Lemma num_add_le_zero (x y : number) :
  num_le x (Int 0) = true -> num_le y (Int 0) = true ->
  num_le (num_add x y) (Int 0) = true.
Proof.
  rewrite !num_le_zero.
  intros [->|(p & -> & Hp)] [->|(q & -> & Hq)]; cbn [num_add];
    try (now left).
  right. exists (p + q)%Q. split; [reflexivity|].
  setoid_replace 0%Q with (0 + 0)%Q by reflexivity.
  now apply Qplus_le_compat.
Qed.

Lemma num_lt_of_le_zero (x : number) (n : Z) :
  num_le x (Int 0) = true -> 0 < n -> num_lt x (Int n) = true.
Proof.
  rewrite num_le_zero. unfold num_lt.
  intros [->|(p & -> & Hp)] Hn; [reflexivity|].
  assert (Hlt : (p < inject_Z n)%Q).
  { apply Qle_lt_trans with 0%Q; [exact Hp|].
    change 0%Q with (inject_Z 0). now rewrite <- Zlt_Qlt. }
  assert (Hc : (p ?= inject_Z n)%Q = Lt) by now apply Qlt_alt.
  change (num_compare (Finite p) (Int n)) with (Some (p ?= inject_Z n)%Q).
  now rewrite Hc.
Qed.

(** X8. [chunkUserIds] has no guard of its own: for a cap at or below 0,
    an integer, a fraction or [-Infinity], and a list that is not empty
    its loop never ends, whatever the fuel. *)
Theorem chunkUserIds_nonpositive_cap_diverges (userIds : list UserId)
    (m : number) :
  num_le m (Int 0) = true -> userIds <> [] ->
  forall fuel, chunkUserIds fuel userIds m = None.
Proof.
  intros Hm Hne fuel. unfold chunkUserIds.
  assert (Hpos : 0 < len userIds).
  { destruct userIds; [congruence|]. unfold len. simpl length. lia. }
  assert (Hloop : forall fuel i out, num_le i (Int 0) = true ->
            chunkUserIds_loop fuel userIds m i out = None).
  { clear fuel. induction fuel as [|fuel IH]; intros i out Hi;
      rewrite chunkUserIds_loop_unfold, (num_lt_of_le_zero _ Hi Hpos);
      [reflexivity|].
    apply IH. now apply num_add_le_zero. }
  apply Hloop. reflexivity.
Qed.

Lemma chunkUserIds_nonpositive_cap_diverges_witness :
  chunkUserIds 1000 [7] (Finite (-1 # 2)) = None.
Proof.
  apply (@chunkUserIds_nonpositive_cap_diverges [7] (Finite (-1 # 2))).
  - reflexivity.
  - discriminate.
Defined.

(** ** Splicing the markers into a message *)

Lemma relIndex_range (n k : Z) : 0 <= n -> 0 <= relIndex n k <= n.
Proof. unfold relIndex. destruct (Z.ltb_spec k 0); lia. Qed.

(** Cutting a string or an array in two at any index, negative or past the
    end, loses nothing. *)
Lemma slice_cut {A} (l : list A) (a : Z) :
  slice l 0 (Some a) ++ slice l a None = l.
Proof.
  unfold slice. pose proof (len_nonneg l) as Hl.
  pose proof (relIndex_range a Hl) as Hk.
  set (k := relIndex (len l) a) in *.
  change (relIndex (len l) 0) with (Z.min 0 (len l)).
  replace (Z.min 0 (len l)) with 0 by lia. simpl skipn.
  rewrite Z.sub_0_r.
  rewrite (firstn_all2 (n := Z.to_nat (len l - k))).
  - apply firstn_skipn.
  - rewrite length_skipn. unfold len. lia.
Qed.

Lemma slice_middle {A} (a x b : list A) :
  slice (a ++ x ++ b) (len a) (Some (len a + len x)) = x.
Proof.
  pose proof (len_nonneg a). pose proof (len_nonneg x).
  rewrite slice_window by lia.
  replace (len a + len x - len a) with (len x) by lia.
  unfold len. rewrite !Nat2Z.id.
  rewrite skipn_app, skipn_all, Nat.sub_diag. simpl.
  rewrite firstn_app, firstn_all, Nat.sub_diag. simpl. apply app_nil_r.
Qed.

(** X9. [buildSmartBaseText] for a count that is not negative.  The two
    parts it cuts the normalised message into give the message back,
    whatever the anchor; the text is the left part, the optional line
    break, the marker run, the optional line break and the right part;
    [baseLen] is the length of the normalised message plus the line
    breaks and does not depend on the count; the text is [baseLen] plus
    the run long; and the run sits at [insertAt]. *)
Theorem buildSmartBaseText_layout toNFC (message inv : jsstring)
    (count anchorAt : Z) (separateLine trailingNewline : bool) :
  0 <= count ->
  let built := buildSmartBaseText toNFC message inv count anchorAt
                 separateLine trailingNewline in
  let left := slice (toNFC message) 0 (Some anchorAt) in
  let right := slice (toNFC message) anchorAt None in
  let run := str_repeat inv (Z.to_nat count) in
  left ++ right = toNFC message /\
  sb_newlineOverhead built
  = (if separateLine then 1 else 0) + (if trailingNewline then 1 else 0) /\
  sb_baseLen built = len (toNFC message) + sb_newlineOverhead built /\
  sb_insertAt built = len left + (if separateLine then 1 else 0) /\
  len (sb_text built) = sb_baseLen built + count * len inv /\
  slice (sb_text built) (sb_insertAt built)
    (Some (sb_insertAt built + count * len inv)) = run.
Proof.
  intros Hcount built left right run.
  assert (Hcut : left ++ right = toNFC message) by apply slice_cut.
  assert (Hrun : len run = count * len inv).
  { unfold run. rewrite len_str_repeat, Z2Nat.id by lia. reflexivity. }
  split; [exact Hcut|].
  unfold built, buildSmartBaseText.
  cbn [sb_text sb_baseLen sb_insertAt sb_newlineOverhead].
  fold left right run. rewrite <- Hrun.
  split; [|split; [|split; [|split]]].
  5:{ rewrite <- len_app, app_assoc. apply slice_middle. }
  all: rewrite <- ?Hcut, ?len_app;
    destruct separateLine, trailingNewline;
    unfold len; simpl length; lia.
Qed.

Lemma buildSmartBaseText_layout_witness :
  slice (sb_text (buildSmartBaseText nfc_sample [72; 105; 33]%N [8203%N] 2 (-1)
                    true false))
    (sb_insertAt (buildSmartBaseText nfc_sample [72; 105; 33]%N [8203%N] 2 (-1)
                    true false))
    (Some (sb_insertAt (buildSmartBaseText nfc_sample [72; 105; 33]%N
                          [8203%N] 2 (-1) true false) + 2 * len [8203%N]))
  = str_repeat [8203%N] (Z.to_nat 2).
Proof.
  apply (@buildSmartBaseText_layout nfc_sample [72; 105; 33]%N [8203%N] 2 (-1)
           true false).
  lia.
Defined.

(** ** What every payload looks like *)

Lemma str_repeat_unit (c : code_unit) (n : nat) :
  str_repeat [c] n = repeat c n.
Proof. induction n as [|n IH]; simpl; [|rewrite IH]; reflexivity. Qed.

Lemma nth_error_run (a b : jsstring) (c : code_unit) (n i : nat) :
  (i < n)%nat ->
  nth_error (a ++ str_repeat [c] n ++ b) (length a + i) = Some c.
Proof.
  intro Hi. rewrite nth_error_app2 by lia.
  replace (length a + i - length a)%nat with i by lia.
  rewrite nth_error_app1 by (rewrite str_repeat_unit, repeat_length; lia).
  rewrite str_repeat_unit. now apply nth_error_repeat.
Qed.

(** X10. Smart mode: every payload [buildGhostPayloads] returns is the
    normalised message cut at the anchor, with the optional line break,
    one marker per recipient of the payload and the optional line break
    in between; mention [i] has the offset of the cut plus the line break
    plus [i], and length 1.  The anchor is the same for all payloads. *)
Theorem smart_mode_layout toNFC fuel chatId userIds t opts msg ps :
  smartMode t = Some msg ->
  buildGhostPayloads toNFC fuel chatId userIds t opts = Some (Ok ps) ->
  let anchor := templateAnchor t msg in
  let left := slice (toNFC msg) 0 (Some anchor) in
  let right := slice (toNFC msg) anchor None in
  let nlBefore := lineBreak (separateLineForMentions t) in
  let nlAfter := lineBreak (trailingNewline t) in
  left ++ right = toNFC msg /\
  Forall (fun p =>
    chat_id p = chatId /\
    text p = left ++ nlBefore
               ++ str_repeat (smartMarker t msg) (length (entities p))
               ++ nlAfter ++ right /\
    forall i e, nth_error (entities p) i = Some e ->
      offset e = len left + len nlBefore + Z.of_nat i /\ length_ e = 1) ps.
Proof.
  intros Hmode H anchor left right nlBefore nlAfter.
  split; [apply slice_cut|].
  eapply buildGhostPayloads_smart_layout in H; [|exact Hmode].
  eapply Forall_impl; [|exact H]. simpl.
  intros p [(batch & Hchat & Htext & Hents) _].
  split; [exact Hchat|]. rewrite Hents, length_mentions. split.
  - rewrite Htext. unfold buildSmartBaseText, len. simpl.
    rewrite Nat2Z.id. reflexivity.
  - intros i e He. rewrite nth_error_mentions in He.
    destruct (nth_error batch i); [|discriminate].
    injection He as <-. split; reflexivity.
Qed.

Lemma smart_mode_layout_witness :
  slice (nfc_sample [72; 105; 33; 63]%N) 0
    (Some (templateAnchor (smartTemplate [72; 105; 33; 63]%N None)
             [72; 105; 33; 63]%N))
  ++ slice (nfc_sample [72; 105; 33; 63]%N)
       (templateAnchor (smartTemplate [72; 105; 33; 63]%N None)
          [72; 105; 33; 63]%N) None
  = nfc_sample [72; 105; 33; 63]%N.
Proof.
  refine (proj1 (@smart_mode_layout nfc_sample 2%nat (ChatNumber 1) [7; 8]
                   (smartTemplate [72; 105; 33; 63]%N None) defaultOptions
                   [72; 105; 33; 63]%N _ eq_refl _)).
  vm_compute. reflexivity.
Defined.

(** X11. With a marker of one code unit, in either mode, the code unit of
    the text at the offset of every mention is the marker. *)
Theorem mentions_sit_on_markers toNFC fuel chatId userIds t opts ps c :
  markerOf t = [c] ->
  buildGhostPayloads toNFC fuel chatId userIds t opts = Some (Ok ps) ->
  Forall (fun p =>
    forall e, In e (entities p) ->
      0 <= offset e /\
      nth_error (text p) (Z.to_nat (offset e)) = Some c) ps.
Proof.
  unfold markerOf. intros Hmarker H.
  destruct (smartMode t) as [msg|] eqn:Hmode.
  - eapply buildGhostPayloads_smart_layout in H; [|exact Hmode].
    eapply Forall_impl; [|exact H]. simpl.
    intros p [(batch & _ & Htext & Hents) _] e He.
    rewrite Hents in He. apply In_mentions in He.
    destruct He as (i & Hi & _ & Hoff & _).
    rewrite Hoff, Htext, Hmarker. unfold buildSmartBaseText.
    cbn [sb_text sb_insertAt].
    set (left := slice (toNFC msg) 0 (Some (templateAnchor t msg))).
    set (nlBefore := if truthy (separateLineForMentions t) then _ else _).
    pose proof (len_nonneg left). pose proof (len_nonneg nlBefore).
    split; [lia|].
    replace (Z.to_nat (len left + len nlBefore + Z.of_nat i))
      with (length (left ++ nlBefore) + i)%nat
      by (rewrite length_app; unfold len; lia).
    rewrite (app_assoc left nlBefore). apply nth_error_run.
    unfold len. lia.
  - eapply buildGhostPayloads_classic_layout in H; [|exact Hmode].
    eapply Forall_impl; [|exact H]. simpl.
    intros p [(part & _ & _ & _ & Htext & Hents) _] e He.
    rewrite Hents in He. apply In_mentions in He.
    destruct He as (i & Hi & _ & Hoff & _).
    rewrite Hoff, Htext, Hmarker.
    pose proof (len_nonneg (toNFC (before t ?? []))). split; [lia|].
    replace (Z.to_nat (len (toNFC (before t ?? [])) + Z.of_nat i))
      with (length (toNFC (before t ?? [])) + i)%nat by (unfold len; lia).
    now apply nth_error_run.
Qed.

Lemma mentions_sit_on_markers_witness :
  Forall (fun p =>
    forall e, In e (entities p) ->
      0 <= offset e /\
      nth_error (text p) (Z.to_nat (offset e)) = Some 8203%N)
    [{| chat_id := ChatNumber 1; text := [72; 105; 33; 63; 8203; 8203]%N;
        entities := mentions 4 [7; 8] |}].
Proof.
  apply (@mentions_sit_on_markers nfc_sample 2%nat (ChatNumber 1) [7; 8]
           (smartTemplate [72; 105; 33; 63]%N None) defaultOptions).
  - reflexivity.
  - vm_compute. reflexivity.
Defined.

Lemma payload_entities toNFC fuel chatId userIds t opts ps :
  Integral.buildGhostPayloads toNFC fuel chatId userIds t opts = Some (Ok ps) ->
  recipients ps = userIds /\ Forall (fun p => entities p <> []) ps.
Proof.
  intro H. destruct (smartMode t) as [msg|] eqn:Hmode.
  - eapply buildGhostPayloads_smart in H; [|exact Hmode].
    destruct H as [Hrec H]. split; [exact Hrec|].
    eapply Forall_impl; [|exact H]. simpl.
    intros p (batch & Hne & _ & _ & _ & _ & ->) E.
    apply (f_equal (@length _)) in E. rewrite length_mentions in E.
    destruct batch; [congruence|discriminate].
  - eapply buildGhostPayloads_classic in H; [|exact Hmode].
    destruct H as [Hrec H]. split; [exact Hrec|].
    eapply Forall_impl; [|exact H]. simpl.
    intros p [(part & Hne & _ & _ & _ & _ & _ & _ & ->) _] E.
    apply (f_equal (@length _)) in E. rewrite length_mentions in E.
    destruct part; [congruence|discriminate].
Qed.

Lemma count_le_recipients (ps : list GhostPayload) :
  Forall (fun p => entities p <> []) ps ->
  (length ps <= length (recipients ps))%nat.
Proof.
  induction 1 as [|p ps Hp _ IH]; simpl; [lia|].
  rewrite length_app, length_map.
  destruct (entities p); [congruence|]. simpl. lia.
Qed.

Lemma single_recipient_payload toNFC fuel chatId u t opts ps :
  Integral.buildGhostPayloads toNFC fuel chatId [u] t opts = Some (Ok ps) ->
  exists p, ps = [p] /\ map user (entities p) = [u].
Proof.
  intro H. apply payload_entities in H. destruct H as [Hrec Hne].
  pose proof (count_le_recipients Hne) as Hlen.
  rewrite Hrec in Hlen. simpl in Hlen.
  destruct ps as [|p [|q ps]]; simpl in *; try lia; [discriminate|].
  exists p. split; [reflexivity|]. now rewrite app_nil_r in Hrec.
Qed.
(** X12. On limits that are integers or absent no payload is empty:
    every payload [buildGhostPayloads] returns carries at least one
    mention, so there are at most as many payloads as recipients, and a
    single recipient gets exactly one payload, with one mention. *)
Theorem payloads_are_not_empty toNFC fuel chatId userIds t opts ps :
  buildGhostPayloads toNFC fuel chatId userIds t (integral opts)
  = Some (Ok ps) ->
  Forall (fun p => entities p <> []) ps /\
  (length ps <= length userIds)%nat /\
  (forall u, userIds = [u] ->
     exists p, ps = [p] /\ map user (entities p) = [u]).
Proof.
  rewrite buildGhostPayloads_integral.
  intro H. pose proof (payload_entities _ _ _ _ _ _ H) as [Hrec Hne].
  split; [exact Hne|]. split.
  - rewrite <- Hrec. now apply count_le_recipients.
  - intros u Hu. rewrite Hu in H. now apply single_recipient_payload in H.
Qed.

Lemma payloads_are_not_empty_witness :
  Forall (fun p => entities p <> [])
    [{| chat_id := ChatNumber 1; text := [65; 8203; 66]%N;
        entities := mentions 1 [7] |}].
Proof.
  refine (proj1 (@payloads_are_not_empty nfc_sample 1%nat (ChatNumber 1) [7]
                   (classicTemplate [65%N] [66%N]) (integerLimits None None)
                   _ _)).
  vm_compute. reflexivity.
Defined.

(** ** Which errors the loops raise *)

Section ThrowFacts.

Variable toNFC : jsstring -> jsstring.
Variables (chatId : ChatId) (userIds : list UserId) (template : GhostTemplate).
Variables (maxPer maxText : Z) (overflow : Overflow).

Lemma len_sb_text (msg inv : jsstring) (count anchorAt : Z) (sep trail : bool) :
  len (sb_text (buildSmartBaseText toNFC msg inv count anchorAt sep trail))
  = sb_baseLen (buildSmartBaseText toNFC msg inv 0 anchorAt sep trail)
    + Z.of_nat (Z.to_nat count) * len inv.
Proof.
  unfold buildSmartBaseText. cbn [sb_text sb_baseLen].
  rewrite !len_app, len_str_repeat. lia.
Qed.

Lemma sb_baseLen_message (msg inv : jsstring) (count anchorAt : Z)
    (sep trail : bool) :
  sb_baseLen (buildSmartBaseText toNFC msg inv count anchorAt sep trail)
  = len (toNFC msg) + len (if sep then [10%N] else [])
    + len (if trail then [10%N] else []).
Proof.
  unfold buildSmartBaseText. cbn [sb_baseLen].
  pose proof (f_equal (@length _) (slice_cut (toNFC msg) anchorAt)) as Hc.
  rewrite length_app in Hc.
  destruct sep, trail; unfold len; simpl length; lia.
Qed.

(** What a throw of the smart loop tells, under a count cap of at least 1. *)
Lemma smartLoop_throw msg inv fb re sep trail :
  1 <= maxPer ->
  forall fuel cursor payloads e, 0 <= cursor ->
  Integral.smartLoop toNFC chatId userIds template maxPer maxText overflow fuel msg inv
    fb re sep trail cursor payloads = Some (Throw e) ->
  let baseLen :=
    sb_baseLen (buildSmartBaseText toNFC msg inv 0
                  (smartAnchor template msg fb re) sep trail) in
  (e = BaseMessageTooLong (len msg) /\ maxText <= baseLen) \/
  (exists desired allowed,
     e = TextOverflow (Int desired) (Int allowed) (Int maxText) /\
     isError overflow = true /\ allowed < desired) \/
  (e = SmartTextExceeds (Int maxText) /\ baseLen < maxText /\ 1 < len inv).
Proof.
  intros Hcap fuel. induction fuel as [|fuel IH]; intros cursor payloads e Hc;
    rewrite smartLoop_eq;
    destruct (Z.ltb_spec cursor (len userIds)) as [Hlt|Hge];
    cbv zeta; intro H; try discriminate.
  set (baseLen := sb_baseLen _) in *.
  set (allowed := Integral.capCountByLength _ _ _) in H.
  destruct (Z.eqb_spec allowed 0) as [Hz|Hnz].
  { injection H as <-. left. split; [reflexivity|].
    unfold allowed, Integral.capCountByLength in Hz. lia. }
  assert (Ha : 1 <= allowed /\ baseLen + allowed <= maxText
               /\ cursor + allowed <= len userIds).
  { unfold allowed, Integral.capCountByLength in *. lia. }
  destruct (isError overflow) eqn:Hov; cbn [andb] in H.
  - destruct (Z.ltb_spec allowed (Z.min maxPer (len userIds - cursor)))
      as [Hless|_].
    { injection H as <-. right. left. do 2 eexists. repeat split. exact Hless. }
    revert H. destruct (@smart_batch userIds cursor allowed Hc (proj1 Ha)
                (proj2 (proj2 Ha)))
      as (Hbl & _ & _).
    set (batch := slice userIds cursor (Some (cursor + allowed))) in *.
    rewrite len_sb_text, buildEntities_arrayFrom. fold baseLen. rewrite Hbl.
    destruct (Z.gtb_spec (baseLen + Z.of_nat (Z.to_nat allowed) * len inv)
                maxText) as [Hbig|_].
    { intro H. injection H as <-. right. right.
      split; [reflexivity|]. split; [lia|nia]. }
    intro H. apply IH in H; [|lia]. exact H.
  - revert H. destruct (@smart_batch userIds cursor allowed Hc (proj1 Ha)
                (proj2 (proj2 Ha)))
      as (Hbl & _ & _).
    set (batch := slice userIds cursor (Some (cursor + allowed))) in *.
    rewrite len_sb_text, buildEntities_arrayFrom. fold baseLen. rewrite Hbl.
    destruct (Z.gtb_spec (baseLen + Z.of_nat (Z.to_nat allowed) * len inv)
                maxText) as [Hbig|_].
    { intro H. injection H as <-. right. right.
      split; [reflexivity|]. split; [lia|nia]. }
    intro H. apply IH in H; [|lia]. exact H.
Qed.

Lemma buildInvisibleText_withChar_Ok (count : Z) (inv : jsstring) :
  includes (toNFC (before template ?? [])) inv = false ->
  includes (toNFC (after template ?? [])) inv = false ->
  0 < count < 4294967296 ->
  buildInvisibleText toNFC (Int count) (withChar template inv)
  = Ok {| it_text := toNFC (before template ?? [])
                       ++ str_repeat inv (Z.to_nat count)
                       ++ toNFC (after template ?? []);
          it_offsets := arrayFrom count (len (toNFC (before template ?? [])));
          it_invChar := inv |}.
Proof.
  intros Hp Hs Hcount. unfold buildInvisibleText, assertNoExistingInv.
  cbn [before after char withChar orElse]. rewrite Hp, Hs. cbn [bind].
  rewrite num_le_Int. destruct (Z.leb_spec count 0); [lia|].
  unfold repeat_num, arrayFrom_num, toLength, Int.
  rewrite trunc_inject_Z. destruct (Z.ltb_spec count 0); [lia|]. cbn [bind].
  replace (Z.min (Z.max count 0) 9007199254740991) with count by lia.
  destruct (Z.gtb_spec count 4294967295); [lia|reflexivity].
Qed.

(** A part of 2^32 recipients or more cannot get its array of offsets. *)
Lemma buildInvisibleText_withChar_big (count : Z) (inv : jsstring) :
  includes (toNFC (before template ?? [])) inv = false ->
  includes (toNFC (after template ?? [])) inv = false ->
  4294967296 <= count ->
  buildInvisibleText toNFC (Int count) (withChar template inv)
  = Throw RangeError.
Proof.
  intros Hp Hs Hcount. unfold buildInvisibleText, assertNoExistingInv.
  cbn [before after char withChar orElse]. rewrite Hp, Hs. cbn [bind].
  rewrite num_le_Int. destruct (Z.leb_spec count 0); [lia|].
  unfold repeat_num, arrayFrom_num, toLength, Int.
  rewrite trunc_inject_Z. destruct (Z.ltb_spec count 0); [lia|]. cbn [bind].
  destruct (Z.gtb_spec (Z.min (Z.max count 0) 9007199254740991) 4294967295);
    [reflexivity|lia].
Qed.

(** What a throw of the classic loop tells, once the marker has passed the
    collision check, when the capacity is the room left by the prefix and
    suffix and, under the policy ["error"], the chunk fits the capacity. *)
Lemma classicWhile_throw inv capacity :
  includes (toNFC (before template ?? [])) inv = false ->
  includes (toNFC (after template ?? [])) inv = false ->
  1 <= capacity ->
  len (toNFC (before template ?? [])) + capacity
  + len (toNFC (after template ?? [])) <= maxText ->
  forall fuel remaining payloads e,
  (isError overflow = true -> len remaining <= capacity) ->
  Integral.classicWhile toNFC chatId template maxText overflow fuel inv
    capacity remaining payloads = Some (Throw e) ->
  (e = ClassicTextExceeds (Int maxText) /\ 1 < len inv) \/
  (e = RangeError /\ 4294967296 <= len remaining).
Proof.
  intros Hp Hs Hcap Hroom fuel.
  induction fuel as [|fuel IH]; intros remaining payloads e Hfit;
    rewrite classicWhile_eq;
    destruct (Z.gtb_spec (len remaining) 0) as [Hpos|Hzero];
    cbv zeta; intro H; try discriminate.
  destruct (classic_part remaining Hcap Hpos) as (Hpl & Ht & Hpne & Hcat & Hrl).
  set (take := Z.min (len remaining) capacity) in *.
  set (part := slice remaining 0 (Some take)) in *.
  set (remaining' := slice remaining take None) in *.
  destruct (Z_lt_ge_dec (len part) 4294967296) as [Hsmall|Hbigpart].
  2:{ rewrite buildInvisibleText_withChar_big in H by (assumption || lia).
      injection H as <-. right. split; [reflexivity|lia]. }
  rewrite buildInvisibleText_withChar_Ok in H by (assumption || lia).
  cbn [it_text it_offsets] in H. revert H.
  rewrite !len_app, len_str_repeat, buildEntities_arrayFrom.
  replace (Z.of_nat (Z.to_nat (len part))) with take by lia.
  match goal with
  | |- context [?x >? maxText] =>
      destruct (Z.gtb_spec x maxText) as [Hbig|_]
  end.
  { intro H. injection H as <-. left. split; [reflexivity|]. nia. }
  destruct (isError overflow) eqn:Hov; simpl.
  - specialize (Hfit eq_refl).
    destruct (Z.gtb_spec (len remaining') 0) as [Hleft|_]; [lia|].
    intro H. apply IH in H; [|intros _; lia].
    destruct H as [H|[-> Hlen]]; [now left|right]. split; [reflexivity|lia].
  - intro H. apply IH in H; [|discriminate].
    destruct H as [H|[-> Hlen]]; [now left|right]. split; [reflexivity|lia].
Qed.

Lemma classicFor_throw inv capacity :
  includes (toNFC (before template ?? [])) inv = false ->
  includes (toNFC (after template ?? [])) inv = false ->
  1 <= capacity ->
  len (toNFC (before template ?? [])) + capacity
  + len (toNFC (after template ?? [])) <= maxText ->
  forall fuel chunks payloads e,
  Integral.classicFor toNFC chatId template maxText overflow fuel inv capacity
    chunks payloads = Some (Throw e) ->
  (exists need, e = ClassicOverflow need (Int capacity) (Int maxText) /\
                isError overflow = true /\ capacity < need) \/
  (e = ClassicTextExceeds (Int maxText) /\ 1 < len inv) \/
  (e = RangeError /\
   exists chunk, In chunk chunks /\ 4294967296 <= len chunk).
Proof.
  intros Hp Hs Hcap Hroom fuel chunks.
  induction chunks as [|chunk rest IH]; intros payloads e; simpl;
    [discriminate|].
  assert (Hrest : forall payloads',
    Integral.classicFor toNFC chatId template maxText overflow fuel inv
      capacity rest payloads' = Some (Throw e) ->
    (exists need, e = ClassicOverflow need (Int capacity) (Int maxText) /\
                  isError overflow = true /\ capacity < need) \/
    (e = ClassicTextExceeds (Int maxText) /\ 1 < len inv) \/
    (e = RangeError /\
     exists c, (chunk = c \/ In c rest) /\ 4294967296 <= len c)).
  { intros payloads' H. apply IH in H.
    destruct H as [H|[H|(-> & c & Hin & Hlen)]]; [now left|now right; left|].
    right. right. split; [reflexivity|]. exists c. split; [now right|exact Hlen]. }
  assert (Hwhile : forall e',
    Integral.classicWhile toNFC chatId template maxText overflow fuel inv
      capacity chunk payloads = Some (Throw e') ->
    (isError overflow = true -> len chunk <= capacity) ->
    (e' = ClassicTextExceeds (Int maxText) /\ 1 < len inv) \/
    (e' = RangeError /\
     exists c, (chunk = c \/ In c rest) /\ 4294967296 <= len c)).
  { intros e' Hw Hfit. eapply classicWhile_throw in Hw; try eassumption.
    destruct Hw as [Hw|[-> Hlen]]; [now left|right].
    split; [reflexivity|]. exists chunk. split; [now left|exact Hlen]. }
  destruct (isError overflow) eqn:Hov; simpl.
  - destruct (Z.gtb_spec (len chunk) capacity) as [Hbig|Hfit].
    { intro H. injection H as <-. left. eexists. repeat split. lia. }
    rewrite slice_copy.
    destruct (Integral.classicWhile _ _ _ _ _ _ _ _ _ _) as [[mid|e']|] eqn:Hw;
      try discriminate.
    + apply Hrest.
    + intro H. injection H as <-. right.
      apply Hwhile; [reflexivity|]. intros _. lia.
  - rewrite slice_copy.
    destruct (Integral.classicWhile _ _ _ _ _ _ _ _ _ _) as [[mid|e']|] eqn:Hw;
      try discriminate.
    + apply Hrest.
    + intro H. injection H as <-. right.
      apply Hwhile; [reflexivity|]. discriminate.
Qed.

End ThrowFacts.
(** ** Why a call fails *)

Lemma smartLoop_overflow_args toNFC chatId userIds t maxPer maxText overflow
    msg inv fb re sep trail :
  1 <= maxPer ->
  forall fuel cursor payloads desired allowed, 0 <= cursor ->
  Integral.smartLoop toNFC chatId userIds t maxPer maxText overflow fuel msg inv
    fb re sep trail cursor payloads
  = Some (Throw (TextOverflow (Int desired) (Int allowed) (Int maxText))) ->
  let baseLen :=
    sb_baseLen (buildSmartBaseText toNFC msg inv 0
                  (smartAnchor t msg fb re) sep trail) in
  allowed = maxText - baseLen /\ 0 < allowed < desired /\
  desired <= maxPer /\ desired <= len userIds.
Proof.
  intros Hcap fuel. induction fuel as [|fuel IH];
    intros cursor payloads desired allowed Hc;
    rewrite smartLoop_eq;
    destruct (Z.ltb_spec cursor (len userIds)) as [Hlt|Hge];
    cbv zeta; intro H; try discriminate.
  set (baseLen := sb_baseLen _) in *.
  set (a := Integral.capCountByLength _ _ _) in H.
  destruct (Z.eqb_spec a 0) as [Hz|Hnz]; [discriminate|].
  assert (Ha : 1 <= a /\ cursor + a <= len userIds)
    by (unfold a, Integral.capCountByLength in *; lia).
  destruct (isError overflow && (a <? Z.min maxPer (len userIds - cursor)))
    eqn:Hov.
  { unfold Int, inject_Z in H. injection H as <- <-.
    apply andb_prop in Hov. destruct Hov as [_ Hless].
    apply Z.ltb_lt in Hless. unfold a, Integral.capCountByLength in *. lia. }
  destruct (len (sb_text _) >? maxText); [discriminate|].
  rewrite buildEntities_arrayFrom in H. apply IH in H; [exact H|lia].
Qed.

Lemma classicFor_overflow_args toNFC chatId t maxText overflow inv capacity fuel :
  forall chunks payloads need cap maxText',
  Integral.classicFor toNFC chatId t maxText overflow fuel inv capacity chunks payloads
  = Some (Throw (ClassicOverflow need cap maxText')) ->
  1 <= capacity ->
  includes (toNFC (before t ?? [])) inv = false ->
  includes (toNFC (after t ?? [])) inv = false ->
  len (toNFC (before t ?? [])) + capacity + len (toNFC (after t ?? []))
  <= maxText ->
  exists chunk, In chunk chunks /\ need = len chunk.
Proof.
  induction chunks as [|chunk rest IH];
    intros payloads need cap maxText' H Hcap Hp Hs Hroom; simpl in H;
    [discriminate|].
  destruct (isError overflow && (len chunk >? capacity)) eqn:Hov.
  { injection H as <- _ _. exists chunk. split; [now left|reflexivity]. }
  rewrite slice_copy in H.
  destruct (Integral.classicWhile _ _ _ _ _ _ _ _ _ _) as [[mid|e']|] eqn:Hw;
    try discriminate.
  - destruct (IH _ _ _ _ H Hcap Hp Hs Hroom) as (c & Hin & Hneed).
    exists c. split; [now right|assumption].
  - injection H as ->.
    eapply classicWhile_throw in Hw; try eassumption.
    + destruct Hw as [[Hw _]|[Hw _]]; discriminate.
    + intro Herr. rewrite Herr in Hov. simpl in Hov.
      destruct (Z.gtb_spec (len chunk) capacity); [discriminate|lia].
Qed.

(** Every throw of [buildGhostPayloads] has one of the listed causes. *)
Lemma buildGhostPayloads_throw toNFC fuel chatId userIds t opts e :
  Integral.buildGhostPayloads toNFC fuel chatId userIds t opts = Some (Throw e) ->
  match smartMode t with
  | Some msg => SmartFailure toNFC userIds t opts msg e
  | None => ClassicFailure toNFC userIds t opts e
  end.
Proof.
  unfold Integral.buildGhostPayloads.
  destruct (Z.eqb_spec (len userIds) 0) as [Hz|Hnz]; [discriminate|].
  assert (Hm : 1 <= countCap opts) by (unfold countCap; lia).
  destruct (smartMode t) as [msg|] eqn:Hmode.
  - fold (countCap opts) (lengthCap opts) (overflowPolicy opts)
         (smartMarker t msg) (smartFallback t).
    intro H. unfold SmartFailure, smartBaseLen, lineBreak.
    rewrite <- (sb_baseLen_message toNFC msg (smartMarker t msg) 0
                  (templateAnchor t msg)).
    pose proof H as H'. apply smartLoop_throw in H; [|assumption|lia].
    cbv zeta in H. fold (templateAnchor t msg) in H.
    destruct H as [[-> Hbase]|[(d & a & -> & Hpol & Hlt)|(-> & Hbase & Hinv)]].
    + left. now split.
    + right. left. apply smartLoop_overflow_args in H'; [|assumption|lia].
      cbv zeta in H'. fold (templateAnchor t msg) in H'.
      destruct H' as (-> & Hpos & Hd1 & Hd2). exists d.
      repeat split; try lia.
      unfold overflowPolicy in *. destruct (Integral.onOverflow opts ?? OverflowSplit);
        [discriminate|reflexivity].
    + right. right. now repeat split.
  - fold (countCap opts) (lengthCap opts) (overflowPolicy opts)
         (classicMarker t).
    unfold Integral.chunkUserIds.
    destruct (Integral.chunkUserIds_loop fuel userIds (countCap opts) 0 [])
      as [chunks|] eqn:Hch; [|discriminate].
    apply chunkUserIds_loop_spec in Hch; [|assumption|lia].
    destruct Hch as (new & -> & Hcat & Hall). simpl app. simpl skipn in Hcat.
    unfold ClassicFailure. cbv zeta. unfold assertNoExistingInv, markerError.
    set (inv := classicMarker t). set (pre := toNFC (before t ?? [])).
    set (suf := toNFC (after t ?? [])).
    destruct (includes pre inv) eqn:Hp.
    { simpl. intro H. left. split; [reflexivity|].
      destruct inv; simpl in H; congruence. }
    simpl. destruct (includes suf inv) eqn:Hs.
    { simpl. intro H. left. split; [reflexivity|].
      destruct inv; simpl in H; congruence. }
    simpl.
    assert (Hcapdef : classicCapacity toNFC t opts
                      = Z.max 0 (lengthCap opts - (len pre + len suf)))
      by reflexivity.
    rewrite <- Hcapdef.
    destruct (Z.leb_spec (classicCapacity toNFC t opts) 0) as [Hfull|Hroom].
    { intro H. injection H as <-. right. split; [reflexivity|]. left.
      split; [reflexivity|lia]. }
    intro H. right. split; [reflexivity|]. right.
    assert (Hfits : len (toNFC (before t ?? []))
                    + classicCapacity toNFC t opts
                    + len (toNFC (after t ?? [])) <= lengthCap opts)
      by (fold pre suf; lia).
    pose proof H as H'.
    apply classicFor_throw in H; try assumption; try lia.
    destruct H as [(need & -> & Hpol & Hlt)|[[-> Hinv]|(-> & c & Hin & Hbig)]].
    + left. apply classicFor_overflow_args in H'; try assumption; try lia.
      destruct H' as (chunk & Hin & ->). exists (len chunk).
      rewrite Forall_forall in Hall. destruct (Hall _ Hin) as [_ Hle].
      pose proof (length_concat_member _ _ Hin) as Hlen.
      rewrite Hcat in Hlen. fold pre suf.
      repeat split; try lia; [|unfold len; lia].
      unfold overflowPolicy in *. destruct (Integral.onOverflow opts ?? OverflowSplit);
        [discriminate|reflexivity].
    + right. left. split; [reflexivity|]. split; [lia|exact Hinv].
    + right. right. split; [reflexivity|]. unfold isArray.
      pose proof (length_concat_member _ _ Hin) as Hlen.
      rewrite Hcat in Hlen. unfold len in *. lia.
Qed.

(** X13. On limits that are integers or absent [buildGhostPayloads] never
    throws the length-mismatch error of [buildEntities] nor the "overflow
    while splitting" error of classic mode; and with a marker of one code
    unit the last length check on the assembled text never fires in
    either mode. *)
Theorem no_internal_errors toNFC fuel chatId userIds t opts e :
  buildGhostPayloads toNFC fuel chatId userIds t (integral opts)
  = Some (Throw e) ->
  isInternalError e = false /\
  (len (markerOf t) = 1 -> isLengthCheck e = false).
Proof.
  rewrite buildGhostPayloads_integral.
  intro H. apply buildGhostPayloads_throw in H. unfold markerOf.
  destruct (smartMode t) as [msg|].
  - destruct H as [[-> _]|[(d & -> & _)|(-> & _ & Hinv)]];
      (split; [reflexivity|]); intro Hone; try reflexivity. lia.
  - destruct H as [[_ ->]|[_ [[-> _]|[(need & -> & _)|[(-> & _ & Hinv)|
                                                        [-> _]]]]]];
      (split; [try reflexivity|]); try (intro Hone; try reflexivity; lia).
    + unfold markerError. destruct (classicMarker t); reflexivity.
    + unfold markerError. destruct (classicMarker t); reflexivity.
Qed.

Lemma no_internal_errors_witness :
  isInternalError (ClassicBaseTooLong 2 (Int 2)) = false /\
  (len (markerOf (classicTemplate [65%N] [66%N])) = 1 ->
   isLengthCheck (ClassicBaseTooLong 2 (Int 2)) = false).
Proof.
  apply (@no_internal_errors nfc_sample 1%nat (ChatNumber 1) [7]
           (classicTemplate [65%N] [66%N]) (integerLimits None (Some 2))).
  vm_compute. reflexivity.
Defined.

Lemma len_pos_of_ne {A} (l : list A) : l <> [] -> 0 < len l.
Proof. destruct l; [congruence|]. intros _. unfold len. simpl length. lia. Qed.

(** X14. Classic mode on limits that are integers or absent and a list
    that is not empty, with fuel for one round per recipient, in the order
    of the checks.  A marker that occurs in the normalised prefix or
    suffix is the marker error.  Otherwise a prefix and suffix that leave
    no room under [maxTextLength] are the "base too long" error.
    Otherwise, under the policy ["error"], a first chunk larger than the
    room is the overflow error, with the size of that chunk and the room.
    Otherwise, with a marker of one code unit, a list with fewer than
    2^32 recipients, as every array has, and the policy "split" or a room
    that holds a whole chunk, the call returns payloads. *)
Theorem classic_mode_outcome toNFC fuel chatId userIds t opts :
  smartMode t = None -> userIds <> [] -> (length userIds <= fuel)%nat ->
  let inv := classicMarker t in
  let pre := toNFC (before t ?? []) in
  let suf := toNFC (after t ?? []) in
  let room := lengthCap opts - (len pre + len suf) in
  let chunk := Z.min (countCap opts) (len userIds) in
  let result :=
    buildGhostPayloads toNFC fuel chatId userIds t (integral opts) in
  (includes pre inv = true \/ includes suf inv = true ->
   result = Some (Throw (markerError inv))) /\
  (includes pre inv = false -> includes suf inv = false ->
   (room <= 0 ->
    result = Some (Throw (ClassicBaseTooLong (len pre + len suf)
                            (Int (lengthCap opts))))) /\
   (0 < room < chunk -> overflowPolicy opts = OverflowError ->
    result = Some (Throw (ClassicOverflow chunk (Int room)
                            (Int (lengthCap opts))))) /\
   (0 < room -> len inv = 1 -> isArray userIds ->
    overflowPolicy opts = OverflowSplit \/ chunk <= room ->
    exists ps, result = Some (Ok ps))).
Proof.
  intros Hmode Hne Hfuel inv pre suf room chunk result.
  pose proof (len_pos_of_ne Hne) as Hpos.
  assert (Hm : 1 <= countCap opts) by (unfold countCap; lia).
  assert (Hres : result =
    match Integral.chunkUserIds fuel userIds (countCap opts) with
    | None => None
    | Some chunks =>
        match assertNoExistingInv pre inv ;;; assertNoExistingInv suf inv with
        | Throw e => Some (Throw e)
        | Ok _ =>
            if classicCapacity toNFC t opts <=? 0 then
              Some (Throw (ClassicBaseTooLong (len pre + len suf)
                             (Int (lengthCap opts))))
            else
              Integral.classicFor toNFC chatId t (lengthCap opts) (overflowPolicy opts)
                fuel inv (classicCapacity toNFC t opts) chunks []
        end
    end).
  { unfold result. rewrite buildGhostPayloads_integral.
    unfold Integral.buildGhostPayloads. rewrite Hmode.
    destruct (Z.eqb_spec (len userIds) 0); [lia|reflexivity]. }
  assert (Hcapdef : classicCapacity toNFC t opts = Z.max 0 room) by reflexivity.
  destruct (@chunkUserIds_loop_total userIds (countCap opts) Hm
              (length userIds) 0 []) as [chunks Hch]; [lia|unfold len; lia|].
  specialize (Hch fuel Hfuel). unfold Integral.chunkUserIds in Hres.
  rewrite Hch in Hres.
  split; [|intros Hp Hs; split; [|split]].
  - intro Hcol. rewrite Hres. unfold assertNoExistingInv, markerError.
    destruct (includes pre inv) eqn:Hp.
    + destruct inv; reflexivity.
    + destruct Hcol as [|Hs]; [discriminate|]. rewrite Hs.
      destruct inv; reflexivity.
  - intro Hroom. rewrite Hres. unfold assertNoExistingInv.
    rewrite Hp, Hs. simpl.
    destruct (Z.leb_spec (classicCapacity toNFC t opts) 0); [reflexivity|lia].
  - intros Hroom Hpol. rewrite Hres. unfold assertNoExistingInv.
    rewrite Hp, Hs. simpl.
    destruct (Z.leb_spec (classicCapacity toNFC t opts) 0); [lia|].
    destruct fuel as [|fuel']; [unfold len in Hpos; lia|].
    rewrite chunkUserIds_loop_eq in Hch.
    destruct (Z.ltb_spec 0 (len userIds)); [|lia].
    apply chunkUserIds_loop_spec in Hch; [|assumption|lia].
    destruct Hch as (new & -> & _). simpl app. simpl Integral.classicFor.
    rewrite slice_prefix, len_firstn by lia.
    fold chunk. rewrite Hpol. simpl.
    replace (classicCapacity toNFC t opts) with room by lia.
    destruct (Z.gtb_spec chunk room); [reflexivity|lia].
  - intros Hroom Hone Harray Hok.
    destruct (buildGhostPayloads_total toNFC chatId userIds t opts) as [r Hr].
    specialize (Hr fuel Hfuel).
    assert (Hresult : result = Some r)
      by (unfold result; now rewrite buildGhostPayloads_integral).
    rewrite Hresult.
    destruct r as [ps|e]; [now exists ps|exfalso].
    apply buildGhostPayloads_throw in Hr. rewrite Hmode in Hr.
    unfold ClassicFailure in Hr. cbv zeta in Hr.
    fold inv pre suf in Hr. rewrite Hp, Hs in Hr. simpl in Hr.
    destruct Hr as [[? _]|[_ [[_ ?]|[(need & _ & Hpol & Hneed & ? & ?)|
                                     [(_ & _ & ?)|[_ ?]]]]]];
      try discriminate; try lia; try contradiction.
    destruct Hok as [Hsplit|Hfits]; [congruence|lia].
Qed.

Lemma classic_mode_outcome_witness :
  buildGhostPayloads nfc_sample 3 (ChatNumber 1) [7; 8; 9]
    (classicTemplate [65%N] [66%N])
    (integral {| Integral.maxPerMessage := None;
                 Integral.maxTextLength := Some 4;
                 Integral.onOverflow := Some OverflowError |})
  = Some (Throw (ClassicOverflow 3 (Int 2) (Int 4))).
Proof.
  refine (proj1 (proj2 (proj2 (@classic_mode_outcome nfc_sample 3%nat
            (ChatNumber 1) [7; 8; 9] (classicTemplate [65%N] [66%N])
            {| Integral.maxPerMessage := None; Integral.maxTextLength := Some 4;
               Integral.onOverflow := Some OverflowError |} eq_refl _ _) eq_refl eq_refl))
            _ eq_refl).
  - discriminate.
  - simpl. lia.
  - vm_compute. split; reflexivity.
Defined.

(** X15. Smart mode on limits that are integers or absent and a list that
    is not empty, with fuel for one round per recipient.  A normalised
    message that, with its line breaks, leaves no room under
    [maxTextLength] is the "base message too long" error; it reports the
    length of the message as written.  Otherwise, under the policy
    ["error"], a first batch larger than the room is the text overflow
    error, with the size of that batch and the room.  Otherwise, with a
    marker of one code unit and the policy "split" or a room that holds a
    whole batch, the call returns payloads; the marker may occur in the
    message. *)
Theorem smart_mode_outcome toNFC fuel chatId userIds t opts msg :
  smartMode t = Some msg -> userIds <> [] -> (length userIds <= fuel)%nat ->
  let room := lengthCap opts - smartBaseLen toNFC t msg in
  let batch := Z.min (countCap opts) (len userIds) in
  let result :=
    buildGhostPayloads toNFC fuel chatId userIds t (integral opts) in
  (room <= 0 -> result = Some (Throw (BaseMessageTooLong (len msg)))) /\
  (0 < room < batch -> overflowPolicy opts = OverflowError ->
   result = Some (Throw (TextOverflow (Int batch) (Int room)
                           (Int (lengthCap opts))))) /\
  (0 < room -> len (smartMarker t msg) = 1 ->
   overflowPolicy opts = OverflowSplit \/ batch <= room ->
   exists ps, result = Some (Ok ps)).
Proof.
  intros Hmode Hne Hfuel room batch result.
  pose proof (len_pos_of_ne Hne) as Hpos.
  assert (Hbase : forall count,
            sb_baseLen (buildSmartBaseText toNFC msg (smartMarker t msg) count
                          (templateAnchor t msg)
                          (truthy (separateLineForMentions t))
                          (truthy (trailingNewline t)))
            = smartBaseLen toNFC t msg).
  { intro count. apply sb_baseLen_message. }
  assert (Hfirst : forall e,
    Integral.capCountByLength (smartBaseLen toNFC t msg) batch (lengthCap opts) = 0 \/
    (overflowPolicy opts = OverflowError /\
     Integral.capCountByLength (smartBaseLen toNFC t msg) batch (lengthCap opts) < batch)
    ->
    e = (if Integral.capCountByLength (smartBaseLen toNFC t msg) batch (lengthCap opts)
            =? 0
         then BaseMessageTooLong (len msg)
         else TextOverflow (Int batch)
                (Int (Integral.capCountByLength (smartBaseLen toNFC t msg)
                        batch (lengthCap opts))) (Int (lengthCap opts))) ->
    result = Some (Throw e)).
  { intros e Hcase ->. unfold result. rewrite buildGhostPayloads_integral.
    unfold Integral.buildGhostPayloads. rewrite Hmode.
    destruct (Z.eqb_spec (len userIds) 0); [lia|].
    destruct fuel as [|fuel']; [unfold len in Hpos; lia|].
    rewrite smartLoop_eq.
    destruct (Z.ltb_spec 0 (len userIds)); [|lia]. cbv zeta.
    fold (countCap opts) (lengthCap opts) (overflowPolicy opts)
         (smartMarker t msg) (smartFallback t) (templateAnchor t msg).
    rewrite Hbase. rewrite Z.sub_0_r. fold batch.
    destruct (Z.eqb_spec (Integral.capCountByLength (smartBaseLen toNFC t msg) batch
                            (lengthCap opts)) 0) as [|Hnz]; [reflexivity|].
    destruct Hcase as [|[Hpol Hless]]; [contradiction|].
    rewrite Hpol. simpl.
    destruct (Z.ltb_spec (Integral.capCountByLength (smartBaseLen toNFC t msg) batch
                            (lengthCap opts)) batch); [reflexivity|lia]. }
  assert (Hm : 1 <= countCap opts) by (unfold countCap; lia).
  split; [|split].
  - intro Hroom. apply Hfirst.
    + left. unfold Integral.capCountByLength. lia.
    + replace (Integral.capCountByLength _ _ _) with 0
        by (unfold Integral.capCountByLength; lia).
      reflexivity.
  - intros Hroom Hpol.
    assert (Hcap : Integral.capCountByLength (smartBaseLen toNFC t msg) batch
                     (lengthCap opts) = room)
      by (unfold Integral.capCountByLength; lia).
    apply Hfirst.
    + right. split; [assumption|lia].
    + rewrite Hcap. destruct (Z.eqb_spec room 0); [lia|reflexivity].
  - intros Hroom Hone Hok.
    destruct (buildGhostPayloads_total toNFC chatId userIds t opts) as [r Hr].
    specialize (Hr fuel Hfuel).
    assert (Hresult : result = Some r)
      by (unfold result; now rewrite buildGhostPayloads_integral).
    rewrite Hresult.
    destruct r as [ps|e]; [now exists ps|exfalso].
    apply buildGhostPayloads_throw in Hr. rewrite Hmode in Hr.
    unfold SmartFailure in Hr. cbv zeta in Hr.
    destruct Hr as [[_ ?]|[(d & _ & Hpol & ? & ? & ?)|(_ & _ & ?)]];
      try lia.
    destruct Hok as [Hsplit|Hfits]; [congruence|lia].
Qed.

Lemma smart_mode_outcome_witness :
  buildGhostPayloads nfc_sample 1 (ChatNumber 1) [7]
    (smartTemplate [72; 105]%N None) (integral (integerLimits None (Some 2)))
  = Some (Throw (BaseMessageTooLong (len [72; 105]%N))).
Proof.
  refine (proj1 (@smart_mode_outcome nfc_sample 1%nat (ChatNumber 1) [7]
                   (smartTemplate [72; 105]%N None)
                   (integerLimits None (Some 2)) [72; 105]%N eq_refl _ _) _).
  - discriminate.
  - simpl. lia.
  - vm_compute. discriminate.
Defined.

(** ** The overflow policy *)

Lemma smartLoop_error_is_split toNFC chatId userIds t maxPer maxText
    msg inv fb re sep trail :
  forall fuel cursor payloads ps,
  smartLoop toNFC chatId userIds t maxPer maxText OverflowError fuel msg inv
    fb re sep trail cursor payloads = Some (Ok ps) ->
  smartLoop toNFC chatId userIds t maxPer maxText OverflowSplit fuel msg inv
    fb re sep trail cursor payloads = Some (Ok ps).
Proof.
  induction fuel as [|fuel IH]; intros cursor payloads ps;
    rewrite !smartLoop_unfold; destruct (num_lt cursor _);
    cbv zeta; try (intro H; exact H).
  destruct (num_eq _ _); [intro H; exact H|].
  cbn [isError andb].
  destruct (num_lt _ _); [discriminate|].
  destruct (num_gt _ maxText); [intro H; exact H|].
  destruct (buildEntities _ _); [|intro H; exact H]. apply IH.
Qed.

Lemma classicWhile_error_is_split toNFC chatId t maxText inv capacity :
  forall fuel remaining payloads ps,
  classicWhile toNFC chatId t maxText OverflowError fuel inv capacity
    remaining payloads = Some (Ok ps) ->
  classicWhile toNFC chatId t maxText OverflowSplit fuel inv capacity
    remaining payloads = Some (Ok ps).
Proof.
  induction fuel as [|fuel IH]; intros remaining payloads ps;
    rewrite !classicWhile_unfold; destruct (len remaining >? 0);
    cbv zeta; try (intro H; exact H).
  destruct (buildInvisibleText _ _ _); [|intro H; exact H].
  destruct (num_gt _ maxText); [intro H; exact H|].
  destruct (buildEntities _ _); [|intro H; exact H].
  cbn [isError andb]. destruct (_ >? 0); [discriminate|]. apply IH.
Qed.

Lemma classicFor_error_is_split toNFC chatId t maxText inv capacity fuel :
  forall chunks payloads ps,
  classicFor toNFC chatId t maxText OverflowError fuel inv capacity chunks
    payloads = Some (Ok ps) ->
  classicFor toNFC chatId t maxText OverflowSplit fuel inv capacity chunks
    payloads = Some (Ok ps).
Proof.
  induction chunks as [|chunk rest IH]; intros payloads ps;
    cbn [classicFor isError andb]; [intro H; exact H|].
  destruct (num_gt _ capacity); [discriminate|].
  destruct (classicWhile toNFC chatId t maxText OverflowError fuel inv
              capacity (slice chunk 0 None) payloads) as [[mid|]|] eqn:Hw;
    try discriminate.
  apply classicWhile_error_is_split in Hw. rewrite Hw. apply IH.
Qed.

(** X16. The policy ["error"] only turns results into errors: whenever a
    call under ["error"] returns payloads, the same call under ["split"]
    returns the same payloads. *)
Theorem error_policy_refines_split toNFC fuel chatId userIds t opts ps :
  buildGhostPayloads toNFC fuel chatId userIds t
    (withOnOverflow opts OverflowError) = Some (Ok ps) ->
  buildGhostPayloads toNFC fuel chatId userIds t
    (withOnOverflow opts OverflowSplit) = Some (Ok ps).
Proof.
  unfold buildGhostPayloads, withOnOverflow.
  cbn [maxPerMessage maxTextLength onOverflow orElse].
  destruct (len userIds =? 0); [intro H; exact H|].
  destruct (smartMode t) as [msg|].
  - apply smartLoop_error_is_split.
  - destruct (chunkUserIds _ _ _); [|discriminate].
    destruct (assertNoExistingInv _ _ ;;; assertNoExistingInv _ _);
      [|discriminate].
    destruct (num_le _ _); [discriminate|]. apply classicFor_error_is_split.
Qed.

Lemma error_policy_refines_split_witness :
  buildGhostPayloads nfc_sample 3 (ChatNumber 1) [7; 8; 9]
    (classicTemplate [65%N] [66%N])
    (withOnOverflow (withMaxPerMessage defaultOptions (Int 2)) OverflowSplit)
  = Some (Ok [{| chat_id := ChatNumber 1; text := [65; 8203; 8203; 66]%N;
                 entities := mentions 1 [7; 8] |};
              {| chat_id := ChatNumber 1; text := [65; 8203; 66]%N;
                 entities := mentions 1 [9] |}]).
Proof.
  apply error_policy_refines_split. vm_compute. reflexivity.
Defined.

Lemma firstn_min_length {A} (l : list A) (m : Z) :
  0 <= m -> firstn (Z.to_nat (Z.min m (len l))) l = firstn (Z.to_nat m) l.
Proof.
  intro Hm. destruct (Z_le_gt_dec m (len l)) as [Hle|Hgt].
  - now replace (Z.min m (len l)) with m by lia.
  - replace (Z.min m (len l)) with (len l) by lia.
    rewrite !firstn_all2; try reflexivity; unfold len in *; lia.
Qed.

Lemma smartLoop_error_chunks toNFC chatId userIds t maxPer maxText
    msg inv fb re sep trail :
  1 <= maxPer ->
  forall fuel cursor payloads ps i out, 0 <= cursor ->
  i = cursor \/ (len userIds <= i /\ len userIds <= cursor) ->
  Integral.smartLoop toNFC chatId userIds t maxPer maxText OverflowError fuel msg inv
    fb re sep trail cursor payloads = Some (Ok ps) ->
  exists new,
    ps = payloads ++ new /\
    Integral.chunkUserIds_loop fuel userIds maxPer i out
    = Some (out ++ map (fun p => map user (entities p)) new).
Proof.
  intros Hcap fuel. induction fuel as [|fuel IH];
    intros cursor payloads ps i out Hc Hi;
    rewrite smartLoop_eq, chunkUserIds_loop_eq;
    destruct (Z.ltb_spec cursor (len userIds)) as [Hlt|Hge];
    cbv zeta; intro H; try discriminate.
  - injection H as <-. exists []. rewrite !app_nil_r. split; [reflexivity|].
    destruct (Z.ltb_spec i (len userIds)); [lia|reflexivity].
  - destruct Hi as [->|[_ ?]]; [|lia].
    destruct (Z.ltb_spec cursor (len userIds)); [|lia].
    set (baseLen := sb_baseLen _) in H.
    set (allowed := Integral.capCountByLength _ _ _) in H.
    destruct (Z.eqb_spec allowed 0); [discriminate|].
    cbn [isError andb] in H.
    destruct (Z.ltb_spec allowed (Z.min maxPer (len userIds - cursor)));
      [discriminate|].
    assert (Ha : allowed = Z.min maxPer (len userIds - cursor))
      by (unfold allowed, Integral.capCountByLength in *; lia).
    assert (Hsame : slice userIds cursor (Some (cursor + allowed))
                    = slice userIds cursor (Some (cursor + maxPer))).
    { rewrite !slice_window by lia.
      replace (cursor + allowed - cursor) with allowed by lia.
      replace (cursor + maxPer - cursor) with maxPer by lia.
      rewrite Ha.
      replace (len userIds - cursor)
        with (len (skipn (Z.to_nat cursor) userIds))
        by (rewrite len_skipn; lia).
      apply firstn_min_length. lia. }
    rewrite Hsame in H.
    destruct (_ >? maxText); [discriminate|].
    rewrite buildEntities_arrayFrom in H.
    apply (IH _ _ _ (cursor + maxPer)
             (out ++ [slice userIds cursor (Some (cursor + maxPer))])) in H;
      [|lia|lia].
    destruct H as (new & -> & Hch). eexists (_ :: new).
    rewrite <- app_assoc. split; [reflexivity|].
    rewrite Hch, <- app_assoc. simpl. rewrite user_mentions. reflexivity.
  - injection H as <-. exists []. rewrite !app_nil_r. split; [reflexivity|].
    destruct (Z.ltb_spec i (len userIds)); [lia|reflexivity].
Qed.

Lemma buildEntities_users (offsets : list Z) (userIds : list UserId)
    (es : list MessageEntity) :
  buildEntities offsets userIds = Ok es -> map user es = userIds.
Proof.
  unfold buildEntities. destruct (negb _); [discriminate|].
  intro H. injection H as <-. rewrite map_mapi_from. simpl.
  apply mapi_from_const.
Qed.

(** Under the policy ["error"] the classic loop turns a chunk that fits the
    capacity into one payload. *)
Lemma classicWhile_error_whole toNFC chatId t maxText inv capacity :
  forall fuel chunk payloads ps,
  chunk <> [] -> len chunk <= capacity ->
  Integral.classicWhile toNFC chatId t maxText OverflowError fuel inv capacity chunk
    payloads = Some (Ok ps) ->
  exists p, ps = payloads ++ [p] /\ map user (entities p) = chunk.
Proof.
  intros fuel chunk payloads ps Hne Hfit.
  pose proof (len_pos_of_ne Hne) as Hpos.
  rewrite classicWhile_eq.
  destruct (Z.gtb_spec (len chunk) 0); [|lia].
  destruct fuel as [|fuel]; [discriminate|]. cbv zeta.
  replace (Z.min (len chunk) capacity) with (len chunk) by lia.
  assert (Hpart : slice chunk 0 (Some (len chunk)) = chunk).
  { rewrite slice_prefix by lia. apply firstn_all2. unfold len. lia. }
  assert (Hrest : slice chunk (len chunk) None = []).
  { rewrite slice_suffix by lia. apply skipn_all2. unfold len. lia. }
  rewrite Hpart, Hrest.
  destruct (buildInvisibleText _ _ _) as [built|]; [|discriminate].
  destruct (_ >? maxText); [discriminate|].
  destruct (buildEntities _ _) as [es|] eqn:He; [|discriminate].
  cbn [isError andb]. change (len (@nil UserId) >? 0) with false. cbv iota.
  rewrite classicWhile_eq. change (len (@nil UserId) >? 0) with false.
  cbv iota. intro Hrun. injection Hrun as <-.
  eexists. split; [reflexivity|]. simpl. now apply buildEntities_users in He.
Qed.

Lemma classicFor_error_chunks toNFC chatId t maxText inv capacity fuel :
  forall chunks payloads ps,
  Forall (fun c => c <> []) chunks ->
  Integral.classicFor toNFC chatId t maxText OverflowError fuel inv capacity chunks
    payloads = Some (Ok ps) ->
  exists new, ps = payloads ++ new /\
              map (fun p => map user (entities p)) new = chunks.
Proof.
  induction chunks as [|chunk rest IH]; intros payloads ps Hne; simpl.
  - intro H. injection H as <-. exists []. now rewrite app_nil_r.
  - apply Forall_cons_iff in Hne. destruct Hne as [Hc Hrest].
    destruct (Z.gtb_spec (len chunk) capacity) as [|Hfit]; [discriminate|].
    rewrite slice_copy.
    destruct (Integral.classicWhile _ _ _ _ _ _ _ _ _ _) as [[mid|]|] eqn:Hw;
      try discriminate.
    apply classicWhile_error_whole in Hw; try assumption.
    destruct Hw as (p & -> & Hp). intro H. apply IH in H; [|assumption].
    destruct H as (new & -> & Hnew). exists (p :: new).
    rewrite <- app_assoc. split; [reflexivity|]. simpl. now rewrite Hp, Hnew.
Qed.

(** X17. On limits that are integers or absent, under the policy
    ["error"] the length cap never splits a batch: when the call returns
    payloads, their recipient lists are the chunks [chunkUserIds] cuts
    with the count cap, one payload per chunk, in both modes. *)
Theorem error_policy_keeps_chunks toNFC fuel chatId userIds t opts ps :
  overflowPolicy opts = OverflowError ->
  buildGhostPayloads toNFC fuel chatId userIds t (integral opts)
  = Some (Ok ps) ->
  chunkUserIds fuel userIds (Int (countCap opts))
  = Some (map (fun p => map user (entities p)) ps).
Proof.
  intros Hpol. rewrite buildGhostPayloads_integral.
  unfold chunkUserIds. rewrite chunkUserIds_loop_integral.
  change (Integral.chunkUserIds_loop fuel userIds (countCap opts) 0 [])
    with (Integral.chunkUserIds fuel userIds (countCap opts)).
  unfold Integral.buildGhostPayloads.
  fold (overflowPolicy opts) (countCap opts). rewrite Hpol.
  assert (Hm : 1 <= countCap opts) by (unfold countCap; lia).
  destruct (Z.eqb_spec (len userIds) 0) as [Hz|Hnz].
  { intro H. injection H as <-. apply len_nil_iff in Hz. subst userIds.
    unfold Integral.chunkUserIds. now rewrite chunkUserIds_loop_eq. }
  destruct (smartMode t) as [msg|].
  - intro H. eapply smartLoop_error_chunks with (i := 0) (out := []) in H;
      [|assumption|lia|now left].
    destruct H as (new & -> & Hch). exact Hch.
  - unfold Integral.chunkUserIds.
    destruct (Integral.chunkUserIds_loop fuel userIds (countCap opts) 0 [])
      as [chunks|] eqn:Hch; [|discriminate].
    destruct (assertNoExistingInv _ _ ;;; assertNoExistingInv _ _);
      [|discriminate].
    destruct (_ <=? 0); [discriminate|].
    intro H. apply classicFor_error_chunks in H.
    + destruct H as (new & -> & Hnew). simpl. now rewrite Hnew.
    + apply chunkUserIds_loop_spec in Hch; [|assumption|lia].
      destruct Hch as (new & -> & _ & Hall). simpl.
      eapply Forall_impl; [|exact Hall]. simpl. now intros c [Hc _].
Qed.

Lemma error_policy_keeps_chunks_witness :
  chunkUserIds 3 [7; 8; 9] (Int 2)
  = Some (map (fun p => map user (entities p))
            [{| chat_id := ChatNumber 1; text := [65; 8203; 8203; 66]%N;
                entities := mentions 1 [7; 8] |};
             {| chat_id := ChatNumber 1; text := [65; 8203; 66]%N;
                entities := mentions 1 [9] |}]).
Proof.
  apply (@error_policy_keeps_chunks nfc_sample 3%nat (ChatNumber 1) [7; 8; 9]
           (classicTemplate [65%N] [66%N])
           {| Integral.maxPerMessage := Some 2;
              Integral.maxTextLength := None;
              Integral.onOverflow := Some OverflowError |}).
  - reflexivity.
  - vm_compute. reflexivity.
Defined.

(** ** Recipients are only copied *)

Section Renaming.

Variable toNFC : jsstring -> jsstring.
Variable f : UserId -> UserId.

Lemma len_map {A B} (g : A -> B) (l : list A) : len (map g l) = len l.
Proof. unfold len. now rewrite length_map. Qed.

Lemma slice_map {A B} (g : A -> B) (l : list A) (a : Z) (e : option Z) :
  slice (map g l) a e = map g (slice l a e).
Proof.
  unfold slice. rewrite len_map. now rewrite skipn_map, firstn_map.
Qed.

Lemma slice_num_map {A B} (g : A -> B) (l : list A) (a : number)
    (e : option number) :
  slice_num (map g l) a e = map g (slice_num l a e).
Proof.
  unfold slice_num. rewrite len_map. now rewrite skipn_map, firstn_map.
Qed.

Lemma mapi_from_map {A B C} (g : A -> B) (h : B -> nat -> C) (l : list A)
    (i : nat) :
  mapi_from h i (map g l) = mapi_from (fun x k => h (g x) k) i l.
Proof.
  revert i. induction l as [|x l IH]; intro i; simpl; [|rewrite IH];
    reflexivity.
Qed.

Lemma buildEntities_map (offsets : list Z) (ids : list UserId) :
  buildEntities offsets (map f ids)
  = match buildEntities offsets ids with
    | Ok es => Ok (map (renameEntity f) es)
    | Throw e => Throw e
    end.
Proof.
  unfold buildEntities. rewrite len_map.
  destruct (negb (len offsets =? len ids)); [reflexivity|].
  rewrite mapi_from_map, map_mapi_from. reflexivity.
Qed.

Lemma chunkUserIds_loop_map (ids : list UserId) (m : number) :
  forall fuel i out,
  chunkUserIds_loop fuel (map f ids) m i (map (map f) out)
  = option_map (map (map f)) (chunkUserIds_loop fuel ids m i out).
Proof.
  induction fuel as [|fuel IH]; intros i out;
    cbn [chunkUserIds_loop]; rewrite len_map;
    destruct (num_lt i _); try reflexivity.
  rewrite <- IH, map_app, slice_num_map. reflexivity.
Qed.

Lemma smartLoop_map chatId ids t maxPer maxText overflow msg inv fb re
    sep trail :
  forall fuel cursor payloads,
  smartLoop toNFC chatId (map f ids) t maxPer maxText overflow fuel msg inv
    fb re sep trail cursor (map (renamePayload f) payloads)
  = option_map (renameResult f)
      (smartLoop toNFC chatId ids t maxPer maxText overflow fuel msg inv
         fb re sep trail cursor payloads).
Proof.
  induction fuel as [|fuel IH]; intros cursor payloads;
    cbn [smartLoop]; rewrite ?len_map;
    destruct (num_lt cursor _); try reflexivity.
  cbv zeta. destruct (num_eq _ _); [reflexivity|].
  destruct (isError overflow && _); [reflexivity|].
  rewrite slice_num_map, len_map.
  destruct (num_gt _ maxText); [reflexivity|].
  rewrite buildEntities_map.
  destruct (buildEntities _ _) as [es|]; [|reflexivity].
  rewrite <- IH, map_app. reflexivity.
Qed.

Lemma classicWhile_map chatId t maxText overflow inv capacity :
  forall fuel remaining payloads,
  classicWhile toNFC chatId t maxText overflow fuel inv capacity
    (map f remaining) (map (renamePayload f) payloads)
  = option_map (renameResult f)
      (classicWhile toNFC chatId t maxText overflow fuel inv capacity
         remaining payloads).
Proof.
  induction fuel as [|fuel IH]; intros remaining payloads;
    cbn [classicWhile]; rewrite ?len_map;
    destruct (len remaining >? 0); try reflexivity.
  cbv zeta. rewrite !slice_num_map, !len_map.
  destruct (buildInvisibleText _ _ _) as [built|]; [|reflexivity].
  destruct (num_gt _ maxText); [reflexivity|].
  rewrite buildEntities_map.
  destruct (buildEntities _ _) as [es|]; [|reflexivity].
  destruct (isError overflow && _); [reflexivity|].
  rewrite <- IH, map_app. reflexivity.
Qed.

Lemma classicFor_map chatId t maxText overflow inv capacity fuel :
  forall chunks payloads,
  classicFor toNFC chatId t maxText overflow fuel inv capacity
    (map (map f) chunks) (map (renamePayload f) payloads)
  = option_map (renameResult f)
      (classicFor toNFC chatId t maxText overflow fuel inv capacity
         chunks payloads).
Proof.
  induction chunks as [|chunk rest IH]; intro payloads;
    cbn [classicFor map]; [reflexivity|].
  rewrite len_map. destruct (isError overflow && _); [reflexivity|].
  rewrite slice_map, classicWhile_map.
  destruct (classicWhile _ _ _ _ _ _ _ _ _ _) as [[mid|]|]; simpl;
    try reflexivity.
  apply IH.
Qed.

Lemma buildGhostPayloads_map fuel chatId userIds t opts :
  buildGhostPayloads toNFC fuel chatId (map f userIds) t opts
  = option_map (renameResult f)
      (buildGhostPayloads toNFC fuel chatId userIds t opts).
Proof.
  unfold buildGhostPayloads. rewrite len_map.
  destruct (len userIds =? 0); [reflexivity|].
  destruct (smartMode t) as [msg|].
  - apply (smartLoop_map _ _ _ _ _ _ _ _ _ _ _ _ _ _ []).
  - unfold chunkUserIds.
    rewrite (chunkUserIds_loop_map userIds _ _ _ []).
    destruct (chunkUserIds_loop _ _ _ _ _) as [chunks|]; [|reflexivity].
    simpl option_map.
    destruct (assertNoExistingInv _ _ ;;; assertNoExistingInv _ _);
      [|reflexivity].
    destruct (num_le _ _); [reflexivity|].
    apply (classicFor_map _ _ _ _ _ _ _ _ []).
Qed.


End Renaming.

(** X18. [buildGhostPayloads] only copies the user ids: renaming the
    recipients before the call gives the result of the call with the
    users of its mentions renamed, the same texts, offsets and errors.
    So two calls for one recipient each, with the same template and
    options, return payloads that differ in the user of the mention
    only. *)
Theorem buildGhostPayloads_copies_ids toNFC fuel chatId t opts :
  (forall f userIds,
     buildGhostPayloads toNFC fuel chatId (map f userIds) t opts
     = option_map (renameResult f)
         (buildGhostPayloads toNFC fuel chatId userIds t opts)) /\
  (forall u v r,
     buildGhostPayloads toNFC fuel chatId [u] t opts = Some r ->
     buildGhostPayloads toNFC fuel chatId [v] t opts
     = Some (renameResult (fun _ => v) r)).
Proof.
  split.
  - intros f userIds. apply buildGhostPayloads_map.
  - intros u v r H. change [v] with (map (fun _ : UserId => v) [u]).
    rewrite buildGhostPayloads_map, H. reflexivity.
Qed.

Lemma buildGhostPayloads_copies_ids_witness :
  buildGhostPayloads nfc_sample 1 (ChatNumber 1) [8]
    (classicTemplate [65%N] [66%N]) defaultOptions
  = Some (renameResult (fun _ => 8)
            (Ok [{| chat_id := ChatNumber 1; text := [65; 8203; 66]%N;
                    entities := mentions 1 [7] |}])).
Proof.
  apply (proj2 (buildGhostPayloads_copies_ids nfc_sample 1 (ChatNumber 1)
                  (classicTemplate [65%N] [66%N]) defaultOptions) 7 8).
  vm_compute. reflexivity.
Defined.

(** ** Sending *)

(** Every payload [buildGhostPayloads] returns has passed the length check
    of its loop, whatever the limits. *)
Lemma payload_texts_pass toNFC fuel chatId userIds t opts ps :
  buildGhostPayloads toNFC fuel chatId userIds t opts = Some (Ok ps) ->
  Forall (fun p => num_gt (Int (len (text p))) (lengthLimit opts) = false) ps.
Proof.
  intro H. destruct (smartMode t) as [msg|] eqn:Hmode.
  - eapply buildGhostPayloads_smart_layout in H; [|exact Hmode].
    eapply Forall_impl; [|exact H]. simpl. now intros p [_ Hfit].
  - eapply buildGhostPayloads_classic_layout in H; [|exact Hmode].
    eapply Forall_impl; [|exact H]. simpl. now intros p [_ Hfit].
Qed.

Section TransportFacts.

Variable toNFC : jsstring -> jsstring.
Variables (World Failure ApiResult MessageId : Type).
Variable message_id : ApiResult -> MessageId.
Variable globalFetch : option (Fetch World Failure ApiResult MessageId).

Local Abbreviation callBotApi' := (callBotApi globalFetch).
Local Abbreviation sendLoop' := (sendLoop message_id globalFetch).
Local Abbreviation send' := (sendGhostMentions toNFC message_id globalFetch).
Local Abbreviation effective := (effectiveFetch globalFetch).

Lemma checkPayloads_pass (maxTextLength : number) (ps : list GhostPayload) :
  Forall (fun p => num_gt (Int (len (text p))) maxTextLength = false) ps ->
  checkPayloads (Failure := Failure) maxTextLength ps = inr tt.
Proof.
  induction 1 as [|p ps Hp _ IH]; simpl; [reflexivity|]. now rewrite Hp.
Qed.

(** A call that settles has used the fetch function once, if there is
    one. *)
Lemma callBotApi_world w token method body fetchImpl w' r :
  callBotApi' w token method body fetchImpl = Some (w', r) ->
  match effective fetchImpl with
  | Some f =>
      w' = worldAfter f w [{| rq_token := token; rq_method := method;
                              rq_body := body |}]
  | None => w' = w /\ r = inl NoFetchImplementation
  end.
Proof.
  unfold callBotApi, effectiveFetch, worldAfter.
  destruct (match fetchImpl with Some f => Some f | None => globalFetch end)
    as [f|]; [|intro H; injection H as <- <-; now split].
  simpl. destruct (f w _) as [[w1 [reason|json]]|]; [| |discriminate].
  - intro H. now injection H as <- _.
  - destruct (negb (json_ok json)); intro H; now injection H as <- _.
Qed.

(** A call settles when the fetch function does. *)
Lemma callBotApi_settles w token method body fetchImpl :
  (forall f, effective fetchImpl = Some f -> Settles f) ->
  exists out, callBotApi' w token method body fetchImpl = Some out.
Proof.
  unfold callBotApi, effectiveFetch. intro Hsettles.
  destruct (match fetchImpl with Some f => Some f | None => globalFetch end)
    as [f|]; [|eexists; reflexivity].
  specialize (Hsettles f eq_refl).
  destruct (f w _) as [[w1 [reason|json]]|] eqn:Hf.
  - eexists; reflexivity.
  - destruct (negb (json_ok json)); eexists; reflexivity.
  - now apply Hsettles in Hf.
Qed.

Lemma worldAfter_cons (f : Fetch World Failure ApiResult MessageId) w rq rest :
  worldAfter f w (rq :: rest) = worldAfter f (worldAfter f w [rq]) rest.
Proof. reflexivity. Qed.

Lemma sendLoop_spec token fetchImpl :
  forall ps w i ids errs w' ids' errs',
  sendLoop' w token fetchImpl i ps ids errs = Some (w', (ids', errs')) ->
  (length ids' + length errs' = length ids + length errs + length ps)%nat /\
  (exists sent, ids' = ids ++ sent) /\
  (exists failed, errs' = errs ++ failed /\
                  Forall (fun ke => i <= fst ke < i + len ps) failed) /\
  match effective fetchImpl with
  | Some f => w' = worldAfter f w (sendRequests token ps)
  | None => w' = w /\ ids' = ids
  end.
Proof.
  induction ps as [|p ps IH]; intros w i ids errs w' ids' errs';
    cbn [sendLoop].
  - intro H. injection H as <- <- <-. repeat split; try (simpl; lia).
    + exists []. now rewrite app_nil_r.
    + exists []. rewrite app_nil_r. split; [reflexivity|constructor].
    + destruct (effective fetchImpl); [reflexivity|now split].
  - destruct (callBotApi' w token sendMessage (PayloadBody (Some p)) fetchImpl)
      as [[w1 r]|] eqn:Hcall; [|discriminate].
    apply callBotApi_world in Hcall.
    destruct r as [err|[result|]]; intro H; apply IH in H;
      destruct H as (Hcount & [sent ->] & (failed & -> & Hrange) & Hw).
    + repeat split.
      * rewrite !length_app in *. simpl length in *. lia.
      * now exists sent.
      * exists ((i, ApiFailed err) :: failed). rewrite <- app_assoc.
        split; [reflexivity|]. constructor.
        -- simpl. unfold len. simpl length. lia.
        -- eapply Forall_impl; [|exact Hrange]. simpl. intros ke Hke.
           unfold len in *. simpl length. lia.
      * destruct (effective fetchImpl) as [f|].
        -- cbn [sendRequests map]. rewrite worldAfter_cons, <- Hcall. exact Hw.
        -- destruct Hcall as [-> _]. exact Hw.
    + repeat split.
      * rewrite !length_app in *. simpl length in *. lia.
      * exists (message_id result :: sent). now rewrite <- app_assoc.
      * exists failed. split; [reflexivity|].
        eapply Forall_impl; [|exact Hrange]. simpl. intros ke Hke.
        unfold len in *. simpl length. lia.
      * destruct (effective fetchImpl) as [f|].
        -- cbn [sendRequests map]. rewrite worldAfter_cons, <- Hcall. exact Hw.
        -- destruct Hcall as [_ Hcall]. discriminate.
    + repeat split.
      * rewrite !length_app in *. simpl length in *. lia.
      * now exists sent.
      * exists ((i, UndefinedResult) :: failed). rewrite <- app_assoc.
        split; [reflexivity|]. constructor.
        -- simpl. unfold len. simpl length. lia.
        -- eapply Forall_impl; [|exact Hrange]. simpl. intros ke Hke.
           unfold len in *. simpl length. lia.
      * destruct (effective fetchImpl) as [f|].
        -- cbn [sendRequests map]. rewrite worldAfter_cons, <- Hcall. exact Hw.
        -- destruct Hcall as [_ Hcall]. discriminate.
Qed.

Lemma sendLoop_settles token fetchImpl :
  (forall f, effective fetchImpl = Some f -> Settles f) ->
  forall ps w i ids errs,
  exists out, sendLoop' w token fetchImpl i ps ids errs = Some out.
Proof.
  intro Hsettles. induction ps as [|p ps IH]; intros w i ids errs;
    cbn [sendLoop]; [eexists; reflexivity|].
  destruct (callBotApi_settles w token sendMessage (PayloadBody (Some p))
              fetchImpl Hsettles) as [[w1 r] ->].
  destruct r as [err|[result|]]; apply IH.
Qed.

(** X19. [sendGhostMentions] rejects only with an error of
    [buildGhostPayloads], and then before any request: its own check of
    the text lengths never fires, whatever the limits.  When the limits
    are integers or absent and the fetch function, if there is one,
    settles on every request, the call settles with fuel for one round
    per recipient. *)
Theorem sendGhostMentions_rejects_before_sending fuel w chatId userIds t
    options :
  (forall w' e,
     send' fuel w chatId userIds t options = Some (w', inl e) ->
     w' = w /\
     exists e', e = BuildError e' /\
       buildGhostPayloads toNFC fuel chatId userIds t
         (sendBuildOptions options) = Some (Throw e')) /\
  (forall maxPer maxText,
     so_maxPerMessage options = option_map Int maxPer ->
     so_maxTextLength options = option_map Int maxText ->
     (forall f, effective (so_fetchImpl options) = Some f -> Settles f) ->
     (length userIds <= fuel)%nat ->
     exists out, send' fuel w chatId userIds t options = Some out).
Proof.
  unfold sendGhostMentions. fold (sendBuildOptions options). split.
  - intros w' e.
    destruct (buildGhostPayloads toNFC fuel chatId userIds t
                (sendBuildOptions options)) as [[ps|e0]|] eqn:Hb;
      [|intro H; injection H as <- <-; split; [reflexivity|now exists e0]
       |discriminate].
    apply payload_texts_pass in Hb. pose proof (@checkPayloads_pass _ _ Hb) as Hc.
    change (lengthLimit (sendBuildOptions options))
      with (so_maxTextLength options ?? Int DEFAULT_MAX_TEXT) in Hc.
    rewrite Hc.
    destruct (sendLoop' _ _ _ _ _ _ _) as [[w1 [ids errs]]|]; discriminate.
  - intros maxPer maxText HmaxPer HmaxText Hsettles Hfuel.
    assert (Ho : sendBuildOptions options
                 = integral {| Integral.maxPerMessage := Some (maxPer ?? 5);
                               Integral.maxTextLength :=
                                 Some (maxText ?? DEFAULT_MAX_TEXT);
                               Integral.onOverflow :=
                                 Some (so_onOverflow options ?? OverflowSplit) |}).
    { unfold sendBuildOptions, integral. rewrite HmaxPer, HmaxText.
      cbn [Integral.maxPerMessage Integral.maxTextLength Integral.onOverflow
           option_map]. now rewrite !orElse_Int. }
    rewrite Ho.
    destruct (integral_total toNFC chatId userIds t
                {| Integral.maxPerMessage := Some (maxPer ?? 5);
                   Integral.maxTextLength := Some (maxText ?? DEFAULT_MAX_TEXT);
                   Integral.onOverflow :=
                     Some (so_onOverflow options ?? OverflowSplit) |})
      as [r Hr].
    rewrite (Hr fuel Hfuel). destruct r as [ps|e]; [|eexists; reflexivity].
    destruct (checkPayloads _ _); [eexists; reflexivity|].
    destruct (sendLoop_settles (so_token options) (so_fetchImpl options)
                Hsettles ps w 0 [] []) as [[w1 [ids errs]] ->].
    eexists. reflexivity.
Qed.

(** X20. When [sendGhostMentions] resolves, it has built the payloads with
    its own default of 5 mentions per message and has sent each payload
    once, in order, whether or not earlier requests failed; every payload
    is counted either as a message id or as an error; [ok] holds exactly
    when there is no error, and then [errors] is [undefined]; every error
    carries the index of a payload. *)
Theorem sendGhostMentions_accounts fuel w chatId userIds t options w' r :
  send' fuel w chatId userIds t options = Some (w', inr r) ->
  exists ps,
    buildGhostPayloads toNFC fuel chatId userIds t (sendBuildOptions options)
    = Some (Ok ps) /\
    (length (messageIds r) + length (errors r ?? []) = length ps)%nat /\
    (ok r = true <-> errors r = None) /\
    (ok r = true <-> length (messageIds r) = length ps) /\
    (forall k err, In (k, err) (errors r ?? []) -> 0 <= k < len ps) /\
    (forall f, effective (so_fetchImpl options) = Some f ->
       w' = worldAfter f w (sendRequests (so_token options) ps)).
Proof.
  unfold sendGhostMentions. fold (sendBuildOptions options).
  destruct (buildGhostPayloads toNFC fuel chatId userIds t
              (sendBuildOptions options)) as [[ps|e0]|] eqn:Hb;
    try discriminate.
  destruct (checkPayloads _ _); [discriminate|].
  destruct (sendLoop' w (so_token options) (so_fetchImpl options) 0 ps [] [])
    as [[w1 [ids errs]]|] eqn:Hloop; [|discriminate].
  intro H. injection H as <- <-. exists ps. split; [reflexivity|].
  apply sendLoop_spec in Hloop.
  destruct Hloop as (Hcount & _ & (failed & E & Hrange) & Hworld).
  simpl in E. subst failed. simpl in Hcount. cbn [ok messageIds errors].
  assert (Herrs : (if negb (len errs =? 0) then Some errs else None) ?? []
                  = errs).
  { destruct errs; reflexivity. }
  rewrite Herrs. split; [lia|].
  assert (Hzero : (len errs =? 0) = true <-> errs = []).
  { rewrite Z.eqb_eq. apply len_nil_iff. }
  split; [|split; [|split]].
  - destruct errs; simpl; split; intro; congruence.
  - rewrite Hzero. split.
    + intros ->. simpl in Hcount. lia.
    + intro Hl. destruct errs; [reflexivity|]. simpl in Hcount. lia.
  - intros k err Hin. rewrite Forall_forall in Hrange.
    specialize (Hrange _ Hin). simpl in Hrange. lia.
  - intros f Hf. rewrite Hf in Hworld. exact Hworld.
Qed.

End TransportFacts.

Lemma sendGhostMentions_rejects_before_sending_witness :
  exists out,
    sendGhostMentions nfc_sample (fun r : Z => r) None 3 0%nat (ChatNumber 1)
      [7; 8; 9] (classicTemplate [65%N] [66%N]) countingSendOptions
    = Some out.
Proof.
  apply (proj2 (@sendGhostMentions_rejects_before_sending nfc_sample nat unit
                  Z Z (fun r : Z => r) None 3%nat 0%nat (ChatNumber 1)
                  [7; 8; 9] (classicTemplate [65%N] [66%N])
                  countingSendOptions) (Some 2) None).
  - reflexivity.
  - reflexivity.
  - intros f Hf w rq. injection Hf as <-. discriminate.
  - simpl. lia.
Defined.

Lemma sendGhostMentions_accounts_witness :
  exists ps,
    buildGhostPayloads nfc_sample 3 (ChatNumber 1) [7; 8; 9]
      (classicTemplate [65%N] [66%N]) (sendBuildOptions countingSendOptions)
    = Some (Ok ps) /\
    (length [0; 1] + length (@None (list (Z * SendError unit)) ?? [])
     = length ps)%nat /\
    (true = true <-> @None (list (Z * SendError unit)) = None) /\
    (true = true <-> length [0; 1] = length ps) /\
    (forall k err, In (k, err) (@None (list (Z * SendError unit)) ?? []) ->
       0 <= k < len ps) /\
    (forall f, effectiveFetch None (so_fetchImpl countingSendOptions) = Some f ->
       2%nat = worldAfter f 0%nat
                 (sendRequests (so_token countingSendOptions) ps)).
Proof.
  apply (@sendGhostMentions_accounts nfc_sample nat unit Z Z (fun r : Z => r)
           None 3%nat 0%nat (ChatNumber 1) [7; 8; 9]
           (classicTemplate [65%N] [66%N]) countingSendOptions 2%nat
           {| ok := true; messageIds := [0; 1]; errors := None |}).
  vm_compute. reflexivity.
Defined.

(** ** The edit cascade *)

Section CascadeFacts.

Variable toNFC : jsstring -> jsstring.
Variables (World Failure ApiResult MessageId : Type).
Variable message_id : ApiResult -> MessageId.
Variable globalFetch : option (Fetch World Failure ApiResult MessageId).

Local Abbreviation callBotApi' := (callBotApi globalFetch).
Local Abbreviation editLoop' := (editLoop toNFC globalFetch).
Local Abbreviation edit' := (editCascade toNFC message_id globalFetch).
Local Abbreviation effective := (effectiveFetch globalFetch).

(** The options [editCascade] builds each payload with are integer
    limits. *)
Lemma singlePayload_integral fuel chatId u t :
  singlePayload toNFC fuel chatId u t
  = match Integral.buildGhostPayloads toNFC fuel chatId [u] t
            {| Integral.maxPerMessage := Some 1;
               Integral.maxTextLength := None;
               Integral.onOverflow := None |} with
    | None => None
    | Some (Throw e) => Some (Throw e)
    | Some (Ok ps) => Some (Ok (nth_error ps 0))
    end.
Proof.
  unfold singlePayload. now rewrite <- buildGhostPayloads_integral.
Qed.

Lemma singlePayload_settles fuel chatId u t :
  (1 <= fuel)%nat ->
  (exists e, singlePayload toNFC fuel chatId u t = Some (Throw e)) \/
  (exists p, singlePayload toNFC fuel chatId u t = Some (Ok (Some p)) /\
             map user (entities p) = [u]).
Proof.
  intro Hfuel. rewrite singlePayload_integral.
  destruct (buildGhostPayloads_total toNFC chatId [u] t
              {| Integral.maxPerMessage := Some 1;
                 Integral.maxTextLength := None;
                 Integral.onOverflow := None |}) as [r Hr].
  specialize (Hr fuel Hfuel). rewrite Hr.
  destruct r as [ps|e]; [|left; now exists e].
  right. apply single_recipient_payload in Hr.
  destruct Hr as (p & -> & Hp). now exists p.
Qed.

Lemma singlePayload_Some fuel chatId u t r :
  singlePayload toNFC fuel chatId u t = Some (Ok r) ->
  exists p, r = Some p /\ map user (entities p) = [u].
Proof.
  rewrite singlePayload_integral.
  destruct (Integral.buildGhostPayloads _ _ _ _ _ _) as [[ps|]|] eqn:Hb;
    try discriminate.
  intro H. injection H as <-. apply single_recipient_payload in Hb.
  destruct Hb as (p & -> & Hp). now exists p.
Qed.

Lemma singlePayload_rename fuel chatId u0 u t p0 :
  singlePayload toNFC fuel chatId u0 t = Some (Ok (Some p0)) ->
  singlePayload toNFC fuel chatId u t
  = Some (Ok (Some (renamePayload (fun _ => u) p0))).
Proof.
  unfold singlePayload.
  change [u] with (map (fun _ : UserId => u) [u0]).
  rewrite buildGhostPayloads_map.
  destruct (buildGhostPayloads _ _ _ [u0] _ _) as [[ps|]|]; try discriminate.
  simpl. intro H. injection H as H. destruct ps as [|p ps]; [discriminate|].
  simpl in *. injection H as <-. reflexivity.
Qed.

Lemma callBotApi_reply w token method body fetchImpl w1 result :
  callBotApi' w token method body fetchImpl = Some (w1, inr result) ->
  exists f json,
    effective fetchImpl = Some f /\
    f w {| rq_token := token; rq_method := method; rq_body := body |}
    = Some (w1, inr json) /\
    json_ok json = true /\ result = json_result json.
Proof.
  unfold callBotApi, effectiveFetch.
  destruct (match fetchImpl with Some f => Some f | None => globalFetch end)
    as [f|]; [|discriminate].
  destruct (f w _) as [[w' [reason|json]]|] eqn:Hf; try discriminate.
  destruct (json_ok json) eqn:Hok; simpl; [|discriminate].
  intro H. injection H as <- <-. exists f, json. now repeat split.
Qed.

Lemma editLoop_spec fuel chatId u0 t token fetchImpl messageId p0 :
  singlePayload toNFC fuel chatId u0 t = Some (Ok (Some p0)) ->
  forall rest w w' r,
  editLoop' fuel w chatId rest t token fetchImpl messageId = Some (w', r) ->
  match r with
  | inl e => exists err, e = ApiFailed err
  | inr _ =>
      match effective fetchImpl with
      | Some f =>
          w' = worldAfter f w
                 (map (editRequest token chatId messageId p0) rest)
      | None => rest = [] /\ w' = w
      end
  end.
Proof.
  intros H0. induction rest as [|u rest IH]; intros w w' r; cbn [editLoop].
  - intro H. injection H as <- <-.
    destruct (effective fetchImpl); [reflexivity|now split].
  - rewrite (@singlePayload_rename fuel chatId u0 u t p0 H0).
    cbn [renamePayload text entities].
    destruct (callBotApi' w token editMessageText _ fetchImpl)
      as [[w1 [err|result]]|] eqn:Hcall; [| |discriminate].
    + intro H. injection H as <- <-. now exists err.
    + intro H. apply IH in H. destruct r as [e|[]]; [exact H|].
      apply callBotApi_reply in Hcall.
      destruct Hcall as (f & json & Hf & Hreq & _ & _).
      rewrite Hf in *. cbn [map]. rewrite worldAfter_cons.
      unfold worldAfter at 2. unfold editRequest at 1. simpl.
      rewrite Hreq. exact H.
Qed.

Lemma editLoop_settles fuel chatId u0 t token fetchImpl messageId p0 :
  singlePayload toNFC fuel chatId u0 t = Some (Ok (Some p0)) ->
  (forall f, effective fetchImpl = Some f -> Settles f) ->
  forall rest w,
  exists out,
    editLoop' fuel w chatId rest t token fetchImpl messageId = Some out.
Proof.
  intros H0 Hsettles. induction rest as [|u rest IH]; intro w;
    cbn [editLoop]; [eexists; reflexivity|].
  rewrite (@singlePayload_rename fuel chatId u0 u t p0 H0).
  cbn [renamePayload text entities].
  destruct (callBotApi_settles globalFetch w token editMessageText
              (EditBody chatId messageId (text p0)
                 (map (renameEntity (fun _ => u)) (entities p0)))
              fetchImpl Hsettles) as [[w1 r] ->].
  destruct r as [err|result]; [eexists; reflexivity|apply IH].
Qed.

(** X21. Whenever [editCascade] rejects, it is in one of these ways.  With
    "No userIds provided" exactly on the empty list, and then without a
    request.  With a build error only from the first user, before any
    request: once the first payload is built, every later one is.  With
    the [TypeError] of [initial.message_id] when the first request was
    answered [ok] without a [result], and then after that one request.
    Every other rejection is a failed request; the payload of a single user
    is never [undefined].  With fuel for one round the call settles when
    the fetch function, if there is one, settles on every request. *)
Theorem editCascade_failures fuel w chatId userIds t options :
  (forall w' r,
     edit' fuel w chatId userIds t options = Some (w', r) ->
     match r with
     | inl NoUserIdsProvided => userIds = [] /\ w' = w
     | inl (BuildError e) =>
         w' = w /\
         exists u0 rest, userIds = u0 :: rest /\
           singlePayload toNFC fuel chatId u0 t = Some (Throw e)
     | inl UndefinedResult =>
         exists u0 rest p0 f json,
           userIds = u0 :: rest /\
           singlePayload toNFC fuel chatId u0 t = Some (Ok (Some p0)) /\
           effective (eo_fetchImpl options) = Some f /\
           f w {| rq_token := eo_token options; rq_method := sendMessage;
                  rq_body := PayloadBody (Some p0) |}
           = Some (w', inr json) /\
           json_ok json = true /\ json_result json = None
     | inl (ApiFailed _) => userIds <> []
     | inl UndefinedPayload => False
     | inl (PayloadTextExceeds _ _) => False
     | inr _ => userIds <> []
     end) /\
  ((1 <= fuel)%nat ->
   (forall f, effective (eo_fetchImpl options) = Some f -> Settles f) ->
   exists out, edit' fuel w chatId userIds t options = Some out).
Proof.
  unfold editCascade. split.
  - intros w' r. destruct userIds as [|u0 rest].
    { intro H. injection H as <- <-. now split. }
    destruct (singlePayload toNFC fuel chatId u0 t) as [[first|e]|] eqn:Hfirst;
      [|intro H; injection H as <- <-; split; [reflexivity|now exists u0, rest]
       |discriminate].
    destruct (singlePayload_Some _ _ _ _ Hfirst) as (p0 & -> & _).
    destruct (callBotApi' w (eo_token options) sendMessage
                (PayloadBody (Some p0)) (eo_fetchImpl options))
      as [[w1 [err|[initial|]]]|] eqn:Hcall; [| | |discriminate].
    + intro H. injection H as <- <-. discriminate.
    + destruct (editLoop' fuel w1 chatId rest t (eo_token options)
                  (eo_fetchImpl options) (message_id initial))
        as [[w2 [e|[]]]|] eqn:Hloop; [| |discriminate].
      * eapply editLoop_spec in Hloop; [|exact Hfirst]. destruct Hloop as [err ->].
        intro H. injection H as <- <-. discriminate.
      * intro H. injection H as <- <-. discriminate.
    + intro H. injection H as <- <-. apply callBotApi_reply in Hcall.
      destruct Hcall as (f & json & Hf & Hreq & Hok & Hres).
      exists u0, rest, p0, f, json. now repeat split.
  - intros Hfuel Hsettles. destruct userIds as [|u0 rest].
    { eexists. reflexivity. }
    destruct (singlePayload_settles chatId u0 t Hfuel)
      as [[e He]|(p0 & Hp0 & _)].
    { rewrite He. eexists. reflexivity. }
    rewrite Hp0.
    destruct (callBotApi_settles globalFetch w (eo_token options) sendMessage
                (PayloadBody (Some p0)) (eo_fetchImpl options) Hsettles)
      as [[w1 r] ->].
    destruct r as [err|[initial|]]; try (eexists; reflexivity).
    destruct (@editLoop_settles fuel chatId u0 t (eo_token options)
                (eo_fetchImpl options) (message_id initial) p0 Hp0 Hsettles
                rest w1) as [[w2 [e|[]]] ->]; eexists; reflexivity.
Qed.

(** X22. When [editCascade] resolves, a fetch function was there and the
    first reply was an [ok] reply with a [result]; the call returns the
    [message_id] of that result; and the requests were, in order, one
    [sendMessage] with the payload of the first user and, for each later
    user, one [editMessageText] for that message with the same text and
    the same offset, the mention given to that user. *)
Theorem editCascade_trace fuel w chatId userIds t options w' mid :
  edit' fuel w chatId userIds t options = Some (w', inr mid) ->
  exists u0 rest p0 f json result w1,
    userIds = u0 :: rest /\
    singlePayload toNFC fuel chatId u0 t = Some (Ok (Some p0)) /\
    map user (entities p0) = [u0] /\
    effective (eo_fetchImpl options) = Some f /\
    f w {| rq_token := eo_token options; rq_method := sendMessage;
           rq_body := PayloadBody (Some p0) |} = Some (w1, inr json) /\
    json_ok json = true /\
    json_result json = Some result /\
    mid = message_id result /\
    w' = worldAfter f w
           ({| rq_token := eo_token options; rq_method := sendMessage;
               rq_body := PayloadBody (Some p0) |}
            :: map (editRequest (eo_token options) chatId mid p0) rest).
Proof.
  unfold editCascade. destruct userIds as [|u0 rest]; [discriminate|].
  destruct (singlePayload toNFC fuel chatId u0 t) as [[first|]|] eqn:Hfirst;
    try discriminate.
  destruct (singlePayload_Some _ _ _ _ Hfirst) as (p0 & -> & Hu).
  destruct (callBotApi' w (eo_token options) sendMessage
              (PayloadBody (Some p0)) (eo_fetchImpl options))
    as [[w1 [err|[initial|]]]|] eqn:Hcall; try discriminate.
  apply callBotApi_reply in Hcall.
  destruct Hcall as (f & json & Hf & Hreq & Hok & Hres).
  destruct (editLoop' fuel w1 chatId rest t (eo_token options)
              (eo_fetchImpl options) (message_id initial))
    as [[w2 [e|[]]]|] eqn:Hloop; try discriminate.
  intro H. injection H as <- <-.
  eapply editLoop_spec in Hloop; [|exact Hfirst]. rewrite Hf in Hloop.
  exists u0, rest, p0, f, json, initial, w1.
  repeat split; try assumption; [now symmetry|].
  rewrite worldAfter_cons. unfold worldAfter at 2. simpl. rewrite Hreq.
  exact Hloop.
Qed.

End CascadeFacts.

Lemma editCascade_failures_witness :
  (exists u0 rest p0 f json,
     [7; 8] = u0 :: rest /\
     singlePayload nfc_sample 1 (ChatNumber 1) u0
       (classicTemplate [65%N] [66%N]) = Some (Ok (Some p0)) /\
     effectiveFetch None (eo_fetchImpl bareEditOptions) = Some f /\
     f 0%nat {| rq_token := eo_token bareEditOptions;
                rq_method := sendMessage;
                rq_body := PayloadBody (Some p0) |}
     = Some (1%nat, inr json) /\
     json_ok json = true /\ json_result json = None) /\
  (exists out,
     editCascade nfc_sample (fun r : Z => r) None 1 0%nat (ChatNumber 1)
       [7; 8] (classicTemplate [65%N] [66%N]) bareEditOptions = Some out).
Proof.
  destruct (@editCascade_failures nfc_sample nat unit Z Z (fun r : Z => r)
              None 1%nat 0%nat (ChatNumber 1) [7; 8]
              (classicTemplate [65%N] [66%N]) bareEditOptions)
    as [Hclass Hsettles].
  split.
  - apply (Hclass 1%nat (inl UndefinedResult)). vm_compute. reflexivity.
  - apply Hsettles; [lia|].
    intros f Hf w rq. injection Hf as <-. discriminate.
Defined.

Lemma editCascade_trace_witness :
  exists u0 rest p0 f json result w1,
    [7; 8] = u0 :: rest /\
    singlePayload nfc_sample 1 (ChatNumber 1) u0
      (classicTemplate [65%N] [66%N]) = Some (Ok (Some p0)) /\
    map user (entities p0) = [u0] /\
    effectiveFetch None (eo_fetchImpl countingEditOptions) = Some f /\
    f 0%nat {| rq_token := eo_token countingEditOptions;
               rq_method := sendMessage;
               rq_body := PayloadBody (Some p0) |} = Some (w1, inr json) /\
    json_ok json = true /\
    json_result json = Some result /\
    0 = (fun r : Z => r) result /\
    2%nat = worldAfter f 0%nat
              ({| rq_token := eo_token countingEditOptions;
                  rq_method := sendMessage;
                  rq_body := PayloadBody (Some p0) |}
               :: map (editRequest (eo_token countingEditOptions)
                         (ChatNumber 1) 0 p0) rest).
Proof.
  apply (@editCascade_trace nfc_sample nat unit Z Z (fun r : Z => r) None
           1%nat 0%nat (ChatNumber 1) [7; 8] (classicTemplate [65%N] [66%N])
           countingEditOptions 2%nat 0).
  vm_compute. reflexivity.
Defined.

(** ** Where smart mode puts the markers *)

Lemma templateAnchor_target (t : GhostTemplate) (msg : jsstring)
    (targets : list jsstring) (i : nat) :
  isNumber (replacePosition t) = false ->
  replaceTargets t = Some targets -> targets <> [] ->
  lastIndexIn (setHas targets) msg i ->
  templateAnchor t msg
  = placeAt (Some (replacePosition t ?? RPend)) (Z.of_nat i).
Proof.
  intros Hnum Ht Hne Hlast.
  unfold templateAnchor, smartAnchor, findAnchorIndex.
  cbn [ao_replacePosition ao_replaceTargets ao_punctuationRegex
       ao_fallbackPosition].
  rewrite Ht. destruct targets as [|t0 ts]; [congruence|].
  rewrite (scanBack_lastIndexIn Hlast).
  destruct (replacePosition t) as [[| |q|]|]; try discriminate; reflexivity.
Qed.

Lemma smart_payloads_at_cut toNFC fuel chatId userIds t opts msg ps
    (cut : nat) :
  smartMode t = Some msg -> toNFC msg = msg ->
  templateAnchor t msg = Z.of_nat cut -> (cut <= length msg)%nat ->
  buildGhostPayloads toNFC fuel chatId userIds t opts = Some (Ok ps) ->
  Forall (fun p =>
    text p = firstn cut msg ++ lineBreak (separateLineForMentions t)
               ++ str_repeat (smartMarker t msg) (length (entities p))
               ++ lineBreak (trailingNewline t) ++ skipn cut msg /\
    forall k e, nth_error (entities p) k = Some e ->
      offset e = Z.of_nat cut + len (lineBreak (separateLineForMentions t))
                 + Z.of_nat k) ps.
Proof.
  intros Hmode Hnfc Hanchor Hcut H.
  eapply buildGhostPayloads_smart_layout in H; [|exact Hmode].
  eapply Forall_impl; [|exact H]. simpl.
  intros p [(batch & _ & Htext & Hents) _].
  rewrite Hents, length_mentions. unfold buildSmartBaseText in *.
  cbn [sb_text sb_insertAt] in *. rewrite Hnfc, Hanchor in *.
  assert (Hleft : slice msg 0 (Some (Z.of_nat cut)) = firstn cut msg).
  { rewrite slice_prefix by lia. now rewrite Nat2Z.id. }
  assert (Hright : slice msg (Z.of_nat cut) None = skipn cut msg).
  { rewrite slice_suffix by lia. now rewrite Nat2Z.id. }
  rewrite Hleft, Hright in *. split.
  - rewrite Htext. unfold len. rewrite Nat2Z.id. reflexivity.
  - intros k e He. rewrite nth_error_mentions in He.
    destruct (nth_error batch k); [|discriminate].
    injection He as <-. simpl.
    unfold len at 1. rewrite length_firstn.
    replace (Init.Nat.min cut (length msg)) with cut by lia. reflexivity.
Qed.

(** X24. Smart mode on a message that normalisation leaves unchanged, with
    a finite numeric [replacePosition] that truncates to an index [k] of
    the message: whatever the targets and the pattern, in every payload
    the markers stand right after code unit [k], after the optional line
    break, and mention [j] has the offset [k + 1] plus the line break
    plus [j]. *)
Theorem smart_mode_inserts_at_position toNFC fuel chatId userIds t opts msg
    q ps :
  smartMode t = Some msg -> toNFC msg = msg ->
  replacePosition t = Some (RPnumber q) ->
  0 <= trunc q < len msg ->
  buildGhostPayloads toNFC fuel chatId userIds t opts = Some (Ok ps) ->
  let cut := S (Z.to_nat (trunc q)) in
  Forall (fun p =>
    text p = firstn cut msg ++ lineBreak (separateLineForMentions t)
               ++ str_repeat (smartMarker t msg) (length (entities p))
               ++ lineBreak (trailingNewline t) ++ skipn cut msg /\
    forall j e, nth_error (entities p) j = Some e ->
      offset e = Z.of_nat cut + len (lineBreak (separateLineForMentions t))
                 + Z.of_nat j) ps.
Proof.
  intros Hmode Hnfc Hq Hk H cut.
  apply (@smart_payloads_at_cut toNFC fuel chatId userIds t opts msg ps cut
           Hmode Hnfc); [|unfold cut, len in *; lia|exact H].
  unfold templateAnchor, smartAnchor.
  unfold findAnchorIndex. cbn [ao_replacePosition]. rewrite Hq.
  cbn [orElse]. unfold clamp, cut. lia.
Qed.

Lemma smart_mode_inserts_at_position_witness :
  Forall (fun p =>
    text p = firstn 1 [72; 33; 63]%N ++ []
               ++ str_repeat [8203%N] (length (entities p))
               ++ [] ++ skipn 1 [72; 33; 63]%N /\
    forall j e, nth_error (entities p) j = Some e ->
      offset e = Z.of_nat 1 + len (@nil code_unit) + Z.of_nat j)
    [{| chat_id := ChatNumber 1; text := [72; 8203; 8203; 33; 63]%N;
        entities := mentions 1 [7; 8] |}].
Proof.
  apply (@smart_mode_inserts_at_position nfc_sample 2%nat (ChatNumber 1)
           [7; 8] (positionTemplate [72; 33; 63]%N (1 # 2)) defaultOptions
           [72; 33; 63]%N (1 # 2)).
  - reflexivity.
  - reflexivity.
  - reflexivity.
  - vm_compute. split; [discriminate|reflexivity].
  - vm_compute. reflexivity.
Defined.

(** X23. Smart mode on a message that normalisation leaves unchanged, with
    a target set that is not empty and no numeric position: in every
    payload the markers stand right after the last target character of
    the message (right before it for the placement ["start"]), after the
    optional line break, and mention [k] has the offset of that place
    plus [k]. *)
Theorem smart_mode_inserts_at_target toNFC fuel chatId userIds t opts msg
    targets i ps :
  smartMode t = Some msg -> toNFC msg = msg ->
  isNumber (replacePosition t) = false ->
  replaceTargets t = Some targets -> targets <> [] ->
  lastIndexIn (setHas targets) msg i ->
  buildGhostPayloads toNFC fuel chatId userIds t opts = Some (Ok ps) ->
  let cut := if isStart (replacePosition t) then i else S i in
  let nlBefore := lineBreak (separateLineForMentions t) in
  let nlAfter := lineBreak (trailingNewline t) in
  Forall (fun p =>
    text p = firstn cut msg ++ nlBefore
               ++ str_repeat (smartMarker t msg) (length (entities p))
               ++ nlAfter ++ skipn cut msg /\
    forall k e, nth_error (entities p) k = Some e ->
      offset e = Z.of_nat cut + len nlBefore + Z.of_nat k) ps.
Proof.
  intros Hmode Hnfc Hnum Ht Hne Hlast H cut nlBefore nlAfter.
  assert (Hi : (i < length msg)%nat).
  { destruct Hlast as [(c & Hc & _) _]. apply nth_error_Some. congruence. }
  apply (@smart_payloads_at_cut toNFC fuel chatId userIds t opts msg ps cut
           Hmode Hnfc); [|unfold cut; destruct (isStart _); lia|exact H].
  rewrite (templateAnchor_target t Hnum Ht Hne Hlast).
  unfold placeAt, cut.
  replace (isStart (Some (replacePosition t ?? RPend)))
    with (isStart (replacePosition t))
    by (destruct (replacePosition t) as [[| |q|]|]; reflexivity).
  destruct (isStart (replacePosition t)); lia.
Qed.

Lemma smart_mode_inserts_at_target_witness :
  Forall (fun p =>
    text p = firstn 2 [72; 33; 63]%N ++ []
               ++ str_repeat [8203%N] (length (entities p))
               ++ [] ++ skipn 2 [72; 33; 63]%N /\
    forall k e, nth_error (entities p) k = Some e ->
      offset e = Z.of_nat 2 + len (@nil code_unit) + Z.of_nat k)
    [{| chat_id := ChatNumber 1; text := [72; 33; 8203; 8203; 63]%N;
        entities := mentions 2 [7; 8] |}].
Proof.
  apply (@smart_mode_inserts_at_target nfc_sample 2%nat (ChatNumber 1) [7; 8]
           (targetTemplate [72; 33; 63]%N [[33%N]]) defaultOptions
           [72; 33; 63]%N [[33%N]] 1%nat).
  - reflexivity.
  - reflexivity.
  - reflexivity.
  - reflexivity.
  - discriminate.
  - split.
    + exists 33%N. split; reflexivity.
    + intros j c Hj Hc. destruct j as [|[|[|j]]]; try lia.
      * simpl in Hc. injection Hc as <-. reflexivity.
      * simpl in Hc. destruct j; discriminate.
  - vm_compute. reflexivity.
Defined.
